(** * PPO agent: return and advantage estimation, losses, adaptive KL

    A shallow embedding of [tf_agents/agents/ppo/ppo_agent.py].

    Conventions of the embedding:
    - a float32 scalar is idealised as a real number ([R]): no rounding,
      no NaN, no infinities, so [tf.check_numerics] is the identity; the
      masked losses are modelled a second time in [Float32], over values
      that can overflow to an infinity or be NaN;
    - a rank-1 tensor is a [list R], a rank-2 tensor of shape
      [(batch, time)] is the list of its rows;
    - an operation that TensorFlow can refuse (a failed shape assertion,
      operands that do not broadcast, an index out of bounds) returns a
      [result], the failure being the raised exception. *)

From Stdlib Require Import String Reals Lra Lia Bool Arith List.
Import ListNotations.
Local Open Scope R_scope.

(** ** Exceptions and the error monad *)

Inductive error : Type :=
| ValueError (msg : string)
| InvalidArgumentError (msg : string).

Inductive result (A : Type) : Type :=
| Ok (a : A)
| Raise (e : error).

Arguments Ok {A} a.
Arguments Raise {A} e.

Definition bind {A B : Type} (c : result A) (k : A -> result B) : result B :=
  match c with
  | Ok a => k a
  | Raise e => Raise e
  end.

Notation "x <- c ;; k" := (bind c (fun x => k))
  (at level 61, c at next level, right associativity).
Notation "c ;;; k" := (bind c (fun _ => k))
  (at level 61, right associativity).

(** ** Comparisons of floats *)

Definition Rltb (x y : R) : bool := if Rlt_dec x y then true else false.
Definition Rleb (x y : R) : bool := if Rle_dec x y then true else false.

(** ** Tensors *)

Abbreviation Vector := (list R).
Abbreviation Tensor := (list (list R)).

(** [tf.shape] of a rank-2 tensor. *)
Definition shape (t : Tensor) : nat * nat := (length t, length (hd [] t)).

Definition shape_eqb (s1 s2 : nat * nat) : bool :=
  ((fst s1 =? fst s2) && (snd s1 =? snd s2))%nat.

(** The tensors of shape [(B, T)]: [B] rows of [T] entries. *)
Definition has_shape (B T : nat) (t : Tensor) : Prop :=
  length t = B /\ Forall (fun row => length row = T) t.

(** Entry [t[b, i]]; outside the tensor the value is [0], which is also the
    seed of the reverse scans. *)
Definition at2 (t : Tensor) (b i : nat) : R := nth i (nth b t []) 0.

(** [tf.transpose] of a rank-2 tensor. *)
Definition transpose (t : Tensor) : Tensor :=
  map (fun j => map (fun row => nth j row 0) t) (seq 0 (length (hd [] t))).

(** [tf.zeros_like]. *)
Definition zeros_like (v : Vector) : Vector := map (fun _ => 0) v.

(** [t[0]]: the first slice along the leading dimension. *)
Definition first_slice (t : Tensor) : result Vector :=
  match t with
  | [] => Raise (InvalidArgumentError
                   "slice index 0 of dimension 0 out of bounds.")
  | v :: _ => Ok v
  end.

Fixpoint zip_with (op : R -> R -> R) (a b : Vector) : Vector :=
  match a, b with
  | x :: a', y :: b' => op x y :: zip_with op a' b'
  | _, _ => []
  end.

(** Elementwise binary operation on vectors, with broadcasting: the lengths
    agree, or one operand has a single entry. *)
Definition broadcast1 (op : R -> R -> R) (a b : Vector) : result Vector :=
  if (length a =? length b)%nat then Ok (zip_with op a b)
  else match a, b with
       | [x], _ => Ok (map (op x) b)
       | _, [y] => Ok (map (fun x => op x y) a)
       | _, _ => Raise (InvalidArgumentError "Incompatible shapes")
       end.

Fixpoint zip_rows (op : R -> R -> R) (a b : Tensor) : result Tensor :=
  match a, b with
  | ra :: a', rb :: b' =>
      r <- broadcast1 op ra rb ;;
      rest <- zip_rows op a' b' ;;
      Ok (r :: rest)
  | _, _ => Ok []
  end.

Fixpoint map_rows (f : Vector -> result Vector) (t : Tensor) : result Tensor :=
  match t with
  | [] => Ok []
  | r :: t' =>
      r' <- f r ;;
      rest <- map_rows f t' ;;
      Ok (r' :: rest)
  end.

(** Elementwise binary operation on rank-2 tensors, with broadcasting on
    both dimensions. *)
Definition broadcast2 (op : R -> R -> R) (a b : Tensor) : result Tensor :=
  if (length a =? length b)%nat then zip_rows op a b
  else match a, b with
       | [ra], _ => map_rows (fun rb => broadcast1 op ra rb) b
       | _, [rb] => map_rows (fun ra => broadcast1 op ra rb) a
       | _, _ => Raise (InvalidArgumentError "Incompatible shapes")
       end.

Definition tf_add : Tensor -> Tensor -> result Tensor := broadcast2 Rplus.
Definition tf_sub : Tensor -> Tensor -> result Tensor := broadcast2 Rminus.
Definition tf_mul : Tensor -> Tensor -> result Tensor := broadcast2 Rmult.

(** A tensor combined with a Python scalar. *)
Definition scale (c : R) (t : Tensor) : Tensor := map (map (fun x => x * c)) t.
Definition tf_neg (t : Tensor) : Tensor := map (map Ropp) t.

(** [tf.scan(fn, elems, reverse=True, initializer=init)] on one list of
    elements: they are visited from the last to the first, the accumulator
    starts at [init], and output [i] is the accumulator after element [i]. *)
Fixpoint scan_reverse {A E : Type} (fn : A -> E -> result A)
    (elems : list E) (init : A) : result (list A) :=
  match elems with
  | [] => Ok []
  | e :: rest =>
      outs <- scan_reverse fn rest init ;;
      acc <- fn (hd init outs) e ;;
      Ok (acc :: outs)
  end.

(** [tf.scan(fn, [xs, ys], reverse=True, initializer=init)]: both tensors
    are unstacked along the leading dimension, which has to be the same. *)
Definition tf_scan2 (fn : Vector -> Vector * Vector -> result Vector)
    (xs ys : Tensor) (init : Vector) : result Tensor :=
  if (length xs =? length ys)%nat
  then scan_reverse fn (combine xs ys) init
  else Raise (InvalidArgumentError
                "scan elems differ in the leading dimension").

Definition reduce_sum (t : Tensor) : R := fold_right Rplus 0 (concat t).

(** [tf.reduce_mean] over all the entries. *)
Definition reduce_mean (t : Tensor) : R :=
  reduce_sum t / INR (length (concat t)).

(** [tf.add_n]: refuses an empty list. *)
Definition add_n (xs : list R) : result R :=
  match xs with
  | [] => Raise (ValueError "inputs must be a list of at least one Tensor")
  | _ => Ok (fold_right Rplus 0 xs)
  end.

Definition tf_exp (t : Tensor) : Tensor := map (map exp) t.

(** [tf.clip_by_value(t, lo, hi)] is [maximum(minimum(t, hi), lo)]. *)
Definition clip (x lo hi : R) : R := Rmax (Rmin x hi) lo.
Definition clip_by_value (t : Tensor) (lo hi : R) : Tensor :=
  map (map (fun x => clip x lo hi)) t.

Definition tf_minimum : Tensor -> Tensor -> result Tensor := broadcast2 Rmin.
Definition squared_difference : Tensor -> Tensor -> result Tensor :=
  broadcast2 (fun x y => (x - y) * (x - y)).

(** ** External collaborators

    The networks, the optimizer, the distribution family, the streaming
    normalizer and the trajectory utilities live in other modules
    ([ppo_policy], [ppo_utils], [common_utils], [tensor_normalizer],
    [trajectory]); the agent only calls them. *)

Inductive StepType : Type := FIRST | MID | LAST.

Record TimeStep (Observation : Type) : Type := {
  step_type : list (list StepType);
  reward : Tensor;
  discount : Tensor;
  observation : Observation
}.

Arguments step_type {Observation} _.
Arguments reward {Observation} _.
Arguments discount {Observation} _.
Arguments observation {Observation} _.

Record PolicyStep (Action Info : Type) : Type := {
  action : Action;
  info : Info
}.

Arguments action {Action Info} _.
Arguments info {Action Info} _.

Class Collaborators : Type := {
  Observation : Type;
  Action : Type;
  Distribution : Type;
  DistributionParams : Type;
  Weights : Type;
  Normalizer : Type;
  Trajectory : Type;
  (** [nest.map_structure(lambda t: t[:, :-1], experience)] and
      [nest.map_structure(lambda t: t[:, 1:], experience)]. *)
  all_but_last : Trajectory -> Trajectory;
  all_but_first : Trajectory -> Trajectory;
  to_transition :
    Trajectory -> Trajectory ->
    TimeStep Observation * PolicyStep Action DistributionParams
    * TimeStep Observation;
  trajectory_observation : Trajectory -> Observation;
  trajectory_step_type : Trajectory -> list (list StepType);
  (** [common_utils.log_probability] and [common_utils.entropy], at the
      agent's action spec. *)
  log_probability : Distribution -> Action -> Tensor;
  entropy : Distribution -> Tensor;
  get_distribution_from_params_and_classes :
    DistributionParams -> Distribution;
  nested_kl_divergence : Distribution -> Distribution -> Tensor;
  get_episode_mask : TimeStep Observation -> Tensor;
  make_timestep_mask : TimeStep Observation -> Tensor;
  (** The policy reads the network weights and the observation normalizer
      it shares with the agent. *)
  policy_distribution :
    Weights -> option Normalizer -> TimeStep Observation -> Distribution;
  apply_value_network :
    Weights -> option Normalizer -> Observation -> list (list StepType)
    -> Tensor;
  (** [tf.reduce_sum(tf.square(v))] for the kernels of each network. *)
  actor_kernel_square_sums : Weights -> list R;
  value_kernel_square_sums : Weights -> list R;
  (** One step of [tf.contrib.training.create_train_op]: the loss as a
      function of the weights, and the weights before the step. *)
  optimizer_step : (Weights -> result R) -> Weights -> Weights;
  (** [StreamingTensorNormalizer.normalize(x, center_mean=False,
      clip_value)] and [update(x, outer_dims=[0, 1])]. *)
  normalize_reward : Normalizer -> Tensor -> R -> Tensor;
  update_reward_normalizer : Normalizer -> Tensor -> Normalizer;
  update_observation_normalizer : Normalizer -> Observation -> Normalizer
}.

(** ** The agent *)

Record PPOAgent `{Collaborators} : Type := {
  _importance_ratio_clipping : R;
  _lambda : R;
  _discount_factor : R;
  _policy_l2_reg : R;
  _value_function_l2_reg : R;
  _entropy_regularization : R;
  _value_pred_loss_coef : R;
  _use_gae : bool;
  _use_td_lambda_return : bool;
  _num_epochs : nat;
  _log_prob_clipping : R;
  _kl_cutoff_factor : R;
  _kl_cutoff_coef : R;
  (** [None] when [initial_adaptive_kl_beta <= 0]: no variable is made. *)
  _adaptive_kl_beta : option R;
  _adaptive_kl_target : R;
  _adaptive_kl_tolerance : R;
  _reward_norm_clipping : R;
  _reward_normalizer : option Normalizer;
  _observation_normalizer : option Normalizer;
  (** The trainable weights of [_actor_net] and [_value_net]. *)
  trainable_weights : Weights
}.

(** The stateful operations of one training call, for the execution
    trace. *)
Inductive op : Type :=
| TrainOp (i_epoch : nat)
| KLDivergenceOp
| UpdateAdaptiveKLBetaOp
| UpdateObservationNormalizerOp
| UpdateRewardNormalizerOp.

Section Agent.

Context `{Collaborators}.

Definition set_trainable_weights (self : PPOAgent) (w : Weights) : PPOAgent :=
  {| _importance_ratio_clipping := _importance_ratio_clipping self;
     _lambda := _lambda self;
     _discount_factor := _discount_factor self;
     _policy_l2_reg := _policy_l2_reg self;
     _value_function_l2_reg := _value_function_l2_reg self;
     _entropy_regularization := _entropy_regularization self;
     _value_pred_loss_coef := _value_pred_loss_coef self;
     _use_gae := _use_gae self;
     _use_td_lambda_return := _use_td_lambda_return self;
     _num_epochs := _num_epochs self;
     _log_prob_clipping := _log_prob_clipping self;
     _kl_cutoff_factor := _kl_cutoff_factor self;
     _kl_cutoff_coef := _kl_cutoff_coef self;
     _adaptive_kl_beta := _adaptive_kl_beta self;
     _adaptive_kl_target := _adaptive_kl_target self;
     _adaptive_kl_tolerance := _adaptive_kl_tolerance self;
     _reward_norm_clipping := _reward_norm_clipping self;
     _reward_normalizer := _reward_normalizer self;
     _observation_normalizer := _observation_normalizer self;
     trainable_weights := w |}.

Definition set_adaptive_kl_beta (self : PPOAgent) (beta : option R)
  : PPOAgent :=
  {| _importance_ratio_clipping := _importance_ratio_clipping self;
     _lambda := _lambda self;
     _discount_factor := _discount_factor self;
     _policy_l2_reg := _policy_l2_reg self;
     _value_function_l2_reg := _value_function_l2_reg self;
     _entropy_regularization := _entropy_regularization self;
     _value_pred_loss_coef := _value_pred_loss_coef self;
     _use_gae := _use_gae self;
     _use_td_lambda_return := _use_td_lambda_return self;
     _num_epochs := _num_epochs self;
     _log_prob_clipping := _log_prob_clipping self;
     _kl_cutoff_factor := _kl_cutoff_factor self;
     _kl_cutoff_coef := _kl_cutoff_coef self;
     _adaptive_kl_beta := beta;
     _adaptive_kl_target := _adaptive_kl_target self;
     _adaptive_kl_tolerance := _adaptive_kl_tolerance self;
     _reward_norm_clipping := _reward_norm_clipping self;
     _reward_normalizer := _reward_normalizer self;
     _observation_normalizer := _observation_normalizer self;
     trainable_weights := trainable_weights self |}.

Definition set_normalizers (self : PPOAgent)
    (obs_norm reward_norm : option Normalizer) : PPOAgent :=
  {| _importance_ratio_clipping := _importance_ratio_clipping self;
     _lambda := _lambda self;
     _discount_factor := _discount_factor self;
     _policy_l2_reg := _policy_l2_reg self;
     _value_function_l2_reg := _value_function_l2_reg self;
     _entropy_regularization := _entropy_regularization self;
     _value_pred_loss_coef := _value_pred_loss_coef self;
     _use_gae := _use_gae self;
     _use_td_lambda_return := _use_td_lambda_return self;
     _num_epochs := _num_epochs self;
     _log_prob_clipping := _log_prob_clipping self;
     _kl_cutoff_factor := _kl_cutoff_factor self;
     _kl_cutoff_coef := _kl_cutoff_coef self;
     _adaptive_kl_beta := _adaptive_kl_beta self;
     _adaptive_kl_target := _adaptive_kl_target self;
     _adaptive_kl_tolerance := _adaptive_kl_tolerance self;
     _reward_norm_clipping := _reward_norm_clipping self;
     _reward_normalizer := reward_norm;
     _observation_normalizer := obs_norm;
     trainable_weights := trainable_weights self |}.

(** The part of [__init__] that makes the variable [_adaptive_kl_beta]:
    the controller exists when [initial_adaptive_kl_beta > 0]. *)
Definition create_adaptive_kl_beta (initial_adaptive_kl_beta : R)
  : option R :=
  if Rltb 0 initial_adaptive_kl_beta then Some initial_adaptive_kl_beta
  else None.

(** Agents that differ from [self] in the constructor arguments named by
    the function. *)
Definition with_estimator (self : PPOAgent) (use_gae use_td_lambda_return : bool)
    (lambda_value : R)
  : PPOAgent :=
  {| _importance_ratio_clipping := _importance_ratio_clipping self;
     _lambda := lambda_value;
     _discount_factor := _discount_factor self;
     _policy_l2_reg := _policy_l2_reg self;
     _value_function_l2_reg := _value_function_l2_reg self;
     _entropy_regularization := _entropy_regularization self;
     _value_pred_loss_coef := _value_pred_loss_coef self;
     _use_gae := use_gae;
     _use_td_lambda_return := use_td_lambda_return;
     _num_epochs := _num_epochs self;
     _log_prob_clipping := _log_prob_clipping self;
     _kl_cutoff_factor := _kl_cutoff_factor self;
     _kl_cutoff_coef := _kl_cutoff_coef self;
     _adaptive_kl_beta := _adaptive_kl_beta self;
     _adaptive_kl_target := _adaptive_kl_target self;
     _adaptive_kl_tolerance := _adaptive_kl_tolerance self;
     _reward_norm_clipping := _reward_norm_clipping self;
     _reward_normalizer := _reward_normalizer self;
     _observation_normalizer := _observation_normalizer self;
     trainable_weights := trainable_weights self |}.

Definition with_clipping (self : PPOAgent) (importance_ratio_clipping log_prob_clipping : R)
  : PPOAgent :=
  {| _importance_ratio_clipping := importance_ratio_clipping;
     _lambda := _lambda self;
     _discount_factor := _discount_factor self;
     _policy_l2_reg := _policy_l2_reg self;
     _value_function_l2_reg := _value_function_l2_reg self;
     _entropy_regularization := _entropy_regularization self;
     _value_pred_loss_coef := _value_pred_loss_coef self;
     _use_gae := _use_gae self;
     _use_td_lambda_return := _use_td_lambda_return self;
     _num_epochs := _num_epochs self;
     _log_prob_clipping := log_prob_clipping;
     _kl_cutoff_factor := _kl_cutoff_factor self;
     _kl_cutoff_coef := _kl_cutoff_coef self;
     _adaptive_kl_beta := _adaptive_kl_beta self;
     _adaptive_kl_target := _adaptive_kl_target self;
     _adaptive_kl_tolerance := _adaptive_kl_tolerance self;
     _reward_norm_clipping := _reward_norm_clipping self;
     _reward_normalizer := _reward_normalizer self;
     _observation_normalizer := _observation_normalizer self;
     trainable_weights := trainable_weights self |}.

Definition with_kl_target (self : PPOAgent) (adaptive_kl_target adaptive_kl_tolerance : R)
  : PPOAgent :=
  {| _importance_ratio_clipping := _importance_ratio_clipping self;
     _lambda := _lambda self;
     _discount_factor := _discount_factor self;
     _policy_l2_reg := _policy_l2_reg self;
     _value_function_l2_reg := _value_function_l2_reg self;
     _entropy_regularization := _entropy_regularization self;
     _value_pred_loss_coef := _value_pred_loss_coef self;
     _use_gae := _use_gae self;
     _use_td_lambda_return := _use_td_lambda_return self;
     _num_epochs := _num_epochs self;
     _log_prob_clipping := _log_prob_clipping self;
     _kl_cutoff_factor := _kl_cutoff_factor self;
     _kl_cutoff_coef := _kl_cutoff_coef self;
     _adaptive_kl_beta := _adaptive_kl_beta self;
     _adaptive_kl_target := adaptive_kl_target;
     _adaptive_kl_tolerance := adaptive_kl_tolerance;
     _reward_norm_clipping := _reward_norm_clipping self;
     _reward_normalizer := _reward_normalizer self;
     _observation_normalizer := _observation_normalizer self;
     trainable_weights := trainable_weights self |}.

Definition with_num_epochs (self : PPOAgent) (num_epochs : nat)
  : PPOAgent :=
  {| _importance_ratio_clipping := _importance_ratio_clipping self;
     _lambda := _lambda self;
     _discount_factor := _discount_factor self;
     _policy_l2_reg := _policy_l2_reg self;
     _value_function_l2_reg := _value_function_l2_reg self;
     _entropy_regularization := _entropy_regularization self;
     _value_pred_loss_coef := _value_pred_loss_coef self;
     _use_gae := _use_gae self;
     _use_td_lambda_return := _use_td_lambda_return self;
     _num_epochs := num_epochs;
     _log_prob_clipping := _log_prob_clipping self;
     _kl_cutoff_factor := _kl_cutoff_factor self;
     _kl_cutoff_coef := _kl_cutoff_coef self;
     _adaptive_kl_beta := _adaptive_kl_beta self;
     _adaptive_kl_target := _adaptive_kl_target self;
     _adaptive_kl_tolerance := _adaptive_kl_tolerance self;
     _reward_norm_clipping := _reward_norm_clipping self;
     _reward_normalizer := _reward_normalizer self;
     _observation_normalizer := _observation_normalizer self;
     trainable_weights := trainable_weights self |}.

(** *** Returns *)

(** [rewards.shape.assert_is_compatible_with(discounts.shape)]: the static
    shapes, here fully known. *)
Definition assert_is_compatible_with (s1 s2 : nat * nat) : result unit :=
  if shape_eqb s1 s2 then Ok tt
  else Raise (ValueError "Shapes are incompatible").

(** [tf.assert_equal(tf.shape(x), tf.shape(y), message=msg)]. *)
Definition assert_equal_shape (s1 s2 : nat * nat) (msg : string)
  : result unit :=
  if shape_eqb s1 s2 then Ok tt else Raise (InvalidArgumentError msg).

Definition discounted_accumulate_rewards (next_step_return : Vector)
    (reward_and_discount : Vector * Vector) : result Vector :=
  let '(reward, discount) := reward_and_discount in
  p <- broadcast1 Rmult next_step_return discount ;;
  broadcast1 Rplus p reward.

(** The two shape checks that guard [compute_returns]; the transposes, and
    through them the scan, are control-dependent on them. *)
Definition check_shape (rewards discounts : Tensor) : result unit :=
  assert_is_compatible_with (shape rewards) (shape discounts) ;;;
  assert_equal_shape (shape rewards) (shape discounts)
    "rewards should have the same shape as discounts.".

Definition compute_returns (self : PPOAgent) (rewards discounts : Tensor)
    (norm_variance_epsilon : R) : result Tensor :=
  check_shape rewards discounts ;;;
  let rewards := transpose rewards in
  let discounts := transpose discounts in
  r0 <- first_slice rewards ;;
  returns <- tf_scan2 discounted_accumulate_rewards rewards discounts
               (zeros_like r0) ;;
  Ok (transpose returns).

(** The default of [norm_variance_epsilon]. *)
Definition default_norm_variance_epsilon : R := 1e6.

(** *** Advantages *)

(** [t[:, 1:]] and [t[:, :-1]]. *)
Definition drop_first_step (t : Tensor) : Tensor := map (@tl R) t.
Definition drop_last_step (t : Tensor) : Tensor := map (@removelast R) t.

Definition gae_step (self : PPOAgent) (next_step_val : Vector)
    (delta_and_discount : Vector * Vector) : result Vector :=
  let '(delta, discount) := delta_and_discount in
  p <- broadcast1 Rmult discount next_step_val ;;
  broadcast1 Rplus delta (map (fun x => x * _lambda self) p).

Definition compute_advantages (self : PPOAgent)
    (rewards returns discounts value_preds : Tensor) : result Tensor :=
  let next_value_preds := drop_first_step value_preds in
  let value_preds := drop_last_step value_preds in
  if negb (_use_gae self) then tf_sub returns value_preds
  else
    dv <- tf_mul discounts next_value_preds ;;
    s <- tf_add rewards dv ;;
    deltas <- tf_sub s value_preds ;;
    let deltas := transpose deltas in
    let discounts := transpose discounts in
    d0 <- first_slice deltas ;;
    advantages <- tf_scan2 (gae_step self) deltas discounts
                    (zeros_like d0) ;;
    Ok (transpose advantages).

(** [_normalize_advantages(advantages, axes=(0, 1))]: the moments are taken
    over every entry. *)
Definition _normalize_advantages (advantages : Tensor)
    (variance_epsilon : R) : Tensor :=
  let adv_mean := reduce_mean advantages in
  let adv_var :=
    reduce_mean
      (map (map (fun x => (x - adv_mean) * (x - adv_mean))) advantages) in
  map (map (fun x => (x - adv_mean) / (sqrt adv_var + variance_epsilon)))
      advantages.

(** The result carries the messages passed to [tf.logging.warning]. *)
Definition compute_return_and_advantage (self : PPOAgent)
    (time_steps : TimeStep Observation) (actions : Action)
    (next_time_steps : TimeStep Observation) (value_preds : Tensor)
  : result (Tensor * Tensor * list string) :=
  let discounts := scale (_discount_factor self) (discount next_time_steps) in
  let rewards := reward next_time_steps in
  let rewards :=
    match _reward_normalizer self with
    | Some normalizer =>
        normalize_reward normalizer rewards (_reward_norm_clipping self)
    | None => rewards
    end in
  let episode_mask := get_episode_mask next_time_steps in
  discounts <- tf_mul discounts episode_mask ;;
  returns <- compute_returns self rewards discounts
               default_norm_variance_epsilon ;;
  advantages <- compute_advantages self rewards returns discounts
                  value_preds ;;
  let normalized_advantages := _normalize_advantages advantages 1e-8 in
  if _use_td_lambda_return self then
    if negb (_use_gae self) then
      Ok (returns, normalized_advantages,
          ["use_td_lambda_return was True, but use_gae was False. Using Monte Carlo return."%string])
    else
      returns <- tf_add advantages value_preds ;;
      Ok (returns, normalized_advantages, [])
  else Ok (returns, normalized_advantages, []).

(** The rewards the estimator works on: normalized when the agent has a
    reward normalizer. *)
Definition estimator_rewards (self : PPOAgent)
    (next_time_steps : TimeStep Observation) : Tensor :=
  match _reward_normalizer self with
  | Some normalizer =>
      normalize_reward normalizer (reward next_time_steps)
        (_reward_norm_clipping self)
  | None => reward next_time_steps
  end.

(** *** Losses *)

Definition l2_regularization_loss (self : PPOAgent) : result R :=
  if Rltb 0 (_policy_l2_reg self) || Rltb 0 (_value_function_l2_reg self)
  then
    let policy_l2_losses :=
      map (fun v => v * _policy_l2_reg self)
          (actor_kernel_square_sums (trainable_weights self)) in
    let vf_l2_losses :=
      map (fun v => v * _value_function_l2_reg self)
          (value_kernel_square_sums (trainable_weights self)) in
    add_n (policy_l2_losses ++ vf_l2_losses)
  else Ok 0.

Definition entropy_regularization_loss (self : PPOAgent)
    (time_steps : TimeStep Observation)
    (current_policy_distribution : Distribution) (valid_mask : Tensor)
  : result R :=
  if Rltb 0 (_entropy_regularization self) then
    let entropy := entropy current_policy_distribution in
    m <- tf_mul (tf_neg entropy) valid_mask ;;
    Ok (reduce_mean m * _entropy_regularization self)
  else Ok 0.

Definition value_estimation_loss (self : PPOAgent)
    (time_steps : TimeStep Observation) (returns valid_mask : Tensor)
  : result R :=
  let value_preds :=
    apply_value_network (trainable_weights self)
      (_observation_normalizer self)
      (observation time_steps) (step_type time_steps) in
  sq <- squared_difference returns value_preds ;;
  value_estimation_error <- tf_mul sq valid_mask ;;
  Ok (reduce_mean value_estimation_error * _value_pred_loss_coef self).

(** The per-timestep loss of [policy_gradient_loss], before the mask and
    the mean. *)
Definition policy_gradient_per_timestep (self : PPOAgent)
    (actions : Action) (sample_action_log_probs advantages : Tensor)
    (current_policy_distribution : Distribution) : result Tensor :=
  let action_log_prob := log_probability current_policy_distribution actions in
  let action_log_prob :=
    if Rltb 0 (_log_prob_clipping self)
    then clip_by_value action_log_prob
           (- _log_prob_clipping self) (_log_prob_clipping self)
    else action_log_prob in
  d <- tf_sub action_log_prob sample_action_log_probs ;;
  let importance_ratio := tf_exp d in
  let importance_ratio_clipped :=
    clip_by_value importance_ratio
      (1 - _importance_ratio_clipping self)
      (1 + _importance_ratio_clipping self) in
  per_timestep_objective <- tf_mul importance_ratio advantages ;;
  per_timestep_objective_clipped <-
    tf_mul importance_ratio_clipped advantages ;;
  per_timestep_objective_min <-
    tf_minimum per_timestep_objective per_timestep_objective_clipped ;;
  if Rltb 0 (_importance_ratio_clipping self)
  then Ok (tf_neg per_timestep_objective_min)
  else Ok (tf_neg per_timestep_objective).

Definition policy_gradient_loss (self : PPOAgent)
    (time_steps : TimeStep Observation) (actions : Action)
    (sample_action_log_probs advantages : Tensor)
    (current_policy_distribution : Distribution) (valid_mask : Tensor)
  : result R :=
  policy_gradient_loss <-
    policy_gradient_per_timestep self actions sample_action_log_probs
      advantages current_policy_distribution ;;
  m <- tf_mul policy_gradient_loss valid_mask ;;
  Ok (reduce_mean m).

Definition kl_cutoff_loss (self : PPOAgent) (kl_divergence : Tensor) : R :=
  if Rleb (_kl_cutoff_factor self) 0 then 0
  else
    let kl_cutoff := _kl_cutoff_factor self * _adaptive_kl_target self in
    let mean_kl := reduce_mean kl_divergence in
    let kl_over_cutoff := Rmax (mean_kl - kl_cutoff) 0 in
    _kl_cutoff_coef self * (kl_over_cutoff * kl_over_cutoff).

Definition adaptive_kl_loss (self : PPOAgent) (kl_divergence : Tensor) : R :=
  match _adaptive_kl_beta self with
  | None => 0
  | Some beta =>
      let mean_kl := reduce_mean kl_divergence in
      beta * mean_kl
  end.

Definition _kl_divergence (self : PPOAgent)
    (time_steps : TimeStep Observation)
    (action_distribution_parameters : DistributionParams)
    (current_policy_distribution : Distribution) : Tensor :=
  let old_actions_distribution :=
    get_distribution_from_params_and_classes action_distribution_parameters in
  nested_kl_divergence old_actions_distribution current_policy_distribution.

Definition kl_penalty_loss (self : PPOAgent)
    (time_steps : TimeStep Observation)
    (action_distribution_parameters : DistributionParams)
    (current_policy_distribution : Distribution) (valid_mask : Tensor)
  : result R :=
  kl_divergence <-
    tf_mul (_kl_divergence self time_steps action_distribution_parameters
              current_policy_distribution) valid_mask ;;
  let kl_cutoff_loss := kl_cutoff_loss self kl_divergence in
  let adaptive_kl_loss := adaptive_kl_loss self kl_divergence in
  Ok (kl_cutoff_loss + adaptive_kl_loss).

(** *** Adaptive KL coefficient *)

(** [tf.case({p1: f1, p2: f2}, default=d, exclusive=True)]: every predicate
    is evaluated and more than one true predicate is an error. *)
Definition tf_case_exclusive (p1 : bool) (f1 : R) (p2 : bool) (f2 : R)
    (default : R) : result R :=
  match p1, p2 with
  | true, true =>
      Raise (InvalidArgumentError
               "Input error: exclusive=True: more than 1 conditions evaluated as True")
  | true, false => Ok f1
  | false, true => Ok f2
  | false, false => Ok default
  end.

(** The value assigned to the variable [_adaptive_kl_beta], which holds
    [beta] before the update. *)
Definition new_adaptive_kl_beta (self : PPOAgent) (beta : R)
    (kl_divergence : Tensor) : result R :=
  let mean_kl := reduce_mean kl_divergence in
  let mean_kl_below_bound :=
    Rltb mean_kl
      (_adaptive_kl_target self * (1.0 - _adaptive_kl_tolerance self)) in
  let mean_kl_above_bound :=
    Rltb (_adaptive_kl_target self * (1.0 + _adaptive_kl_tolerance self))
      mean_kl in
  adaptive_kl_update_factor <-
    tf_case_exclusive mean_kl_below_bound (1.0 / 1.5)
      mean_kl_above_bound 1.5 1.0 ;;
  Ok (Rmax (beta * adaptive_kl_update_factor) 10e-16).

(** Running the returned update op: [tf.no_op()] without the variable,
    [tf.assign] with it. *)
Definition update_adaptive_kl_beta (self : PPOAgent) (kl_divergence : Tensor)
  : result PPOAgent :=
  match _adaptive_kl_beta self with
  | None => Ok self
  | Some beta =>
      new_adaptive_kl_beta <- new_adaptive_kl_beta self beta kl_divergence ;;
      Ok (set_adaptive_kl_beta self (Some new_adaptive_kl_beta))
  end.

(** *** One training epoch *)

(** The five losses of [build_train_op], in the order of the returned
    list. *)
Definition epoch_losses (self : PPOAgent)
    (time_steps : TimeStep Observation) (actions : Action)
    (act_log_probs returns normalized_advantages : Tensor)
    (action_distribution_parameters : DistributionParams)
    (valid_mask : Tensor) : result (list R) :=
  let current_policy_distribution :=
    policy_distribution (trainable_weights self)
      (_observation_normalizer self) time_steps in
  value_estimation_loss <-
    value_estimation_loss self time_steps returns valid_mask ;;
  policy_gradient_loss <-
    policy_gradient_loss self time_steps actions act_log_probs
      normalized_advantages current_policy_distribution valid_mask ;;
  l2_regularization_loss <-
    (if Rltb 0 (_policy_l2_reg self) || Rltb 0 (_value_function_l2_reg self)
     then l2_regularization_loss self else Ok 0) ;;
  entropy_regularization_loss <-
    (if Rltb 0 (_entropy_regularization self)
     then entropy_regularization_loss self time_steps
            current_policy_distribution valid_mask
     else Ok 0) ;;
  kl_penalty_loss <-
    kl_penalty_loss self time_steps action_distribution_parameters
      current_policy_distribution valid_mask ;;
  Ok [policy_gradient_loss; value_estimation_loss; l2_regularization_loss;
      entropy_regularization_loss; kl_penalty_loss].

(** [total_loss] as the optimizer sees it: a function of the trainable
    weights. *)
Definition epoch_total_loss (self : PPOAgent)
    (time_steps : TimeStep Observation) (actions : Action)
    (act_log_probs returns normalized_advantages : Tensor)
    (action_distribution_parameters : DistributionParams)
    (valid_mask : Tensor) (w : Weights) : result R :=
  ls <- epoch_losses (set_trainable_weights self w) time_steps actions
          act_log_probs returns normalized_advantages
          action_distribution_parameters valid_mask ;;
  Ok (fold_right Rplus 0 ls).

(** Running the train op of one epoch: the losses are evaluated at the
    current weights and the optimizer replaces the weights. *)
Definition build_train_op (self : PPOAgent)
    (time_steps : TimeStep Observation) (actions : Action)
    (act_log_probs returns normalized_advantages : Tensor)
    (action_distribution_parameters : DistributionParams)
    (valid_mask : Tensor) : result (PPOAgent * list R) :=
  losses <- epoch_losses self time_steps actions act_log_probs returns
              normalized_advantages action_distribution_parameters
              valid_mask ;;
  let total_loss :=
    epoch_total_loss self time_steps actions act_log_probs returns
      normalized_advantages action_distribution_parameters valid_mask in
  Ok (set_trainable_weights self
        (optimizer_step total_loss (trainable_weights self)),
      losses).

(** *** The training call *)

(** [for i_epoch in range(self._num_epochs)], each train op control-dependent
    on the previous one; [remaining] epochs are still to run. *)
Fixpoint run_epochs (remaining i_epoch : nat) (self : PPOAgent)
    (time_steps : TimeStep Observation) (actions : Action)
    (act_log_probs returns normalized_advantages : Tensor)
    (action_distribution_parameters : DistributionParams)
    (valid_mask : Tensor) : result (PPOAgent * list (list R) * list op) :=
  match remaining with
  | O => Ok (self, [], [])
  | S remaining' =>
      step <- build_train_op self time_steps actions act_log_probs returns
                normalized_advantages action_distribution_parameters
                valid_mask ;;
      let '(self', losses) := step in
      rest <- run_epochs remaining' (S i_epoch) self' time_steps actions
                act_log_probs returns normalized_advantages
                action_distribution_parameters valid_mask ;;
      let '(self'', all_losses, trace) := rest in
      Ok (self'', losses :: all_losses, TrainOp i_epoch :: trace)
  end.

(** After the update epochs: the adaptive KL beta, then the normalizers. *)
Definition after_update_epochs (self : PPOAgent)
    (time_steps next_time_steps : TimeStep Observation)
    (action_distribution_parameters : DistributionParams)
  : result (PPOAgent * list op) :=
  let kl_divergence :=
    _kl_divergence self time_steps action_distribution_parameters
      (policy_distribution (trainable_weights self)
         (_observation_normalizer self) time_steps) in
  self' <- update_adaptive_kl_beta self kl_divergence ;;
  let kl_trace :=
    match _adaptive_kl_beta self with
    | Some _ => [KLDivergenceOp; UpdateAdaptiveKLBetaOp]
    | None => []
    end in
  let update_obs_norm :=
    option_map
      (fun n => update_observation_normalizer n (observation time_steps))
      (_observation_normalizer self') in
  let update_reward_norm :=
    option_map
      (fun n => update_reward_normalizer n (reward next_time_steps))
      (_reward_normalizer self') in
  let obs_trace :=
    match _observation_normalizer self' with
    | Some _ => [UpdateObservationNormalizerOp]
    | None => []
    end in
  let reward_trace :=
    match _reward_normalizer self' with
    | Some _ => [UpdateRewardNormalizerOp]
    | None => []
    end in
  Ok (set_normalizers self' update_obs_norm update_reward_norm,
      kl_trace ++ obs_trace ++ reward_trace).

(** The result is the agent after the returned train op has run, and the
    stateful operations in the order the control dependencies impose. *)
Definition train_from_experience (self : PPOAgent) (experience : Trajectory)
  : result (PPOAgent * list op) :=
  let trajectory0 := all_but_last experience in
  let trajectory1 := all_but_first experience in
  let '(time_steps, policy_steps_, next_time_steps) :=
    to_transition trajectory0 trajectory1 in
  let actions := action policy_steps_ in
  let action_distribution_parameters := info policy_steps_ in
  let old_actions_distribution :=
    get_distribution_from_params_and_classes action_distribution_parameters in
  let act_log_probs := log_probability old_actions_distribution actions in
  let value_preds :=
    apply_value_network (trainable_weights self)
      (_observation_normalizer self)
      (trajectory_observation experience)
      (trajectory_step_type experience) in
  let valid_mask := make_timestep_mask next_time_steps in
  ra <- compute_return_and_advantage self time_steps actions next_time_steps
          value_preds ;;
  let '(returns, normalized_advantages, _) := ra in
  epochs <- run_epochs (_num_epochs self) 0 self time_steps actions
              act_log_probs returns normalized_advantages
              action_distribution_parameters valid_mask ;;
  let '(self', losses, epoch_trace) := epochs in
  final <- after_update_epochs self' time_steps next_time_steps
             action_distribution_parameters ;;
  let '(self'', final_trace) := final in
  add_n (map (fun l => nth 0 l 0) losses) ;;;
  add_n (map (fun l => nth 1 l 0) losses) ;;;
  add_n (map (fun l => nth 2 l 0) losses) ;;;
  add_n (map (fun l => nth 3 l 0) losses) ;;;
  add_n (map (fun l => nth 4 l 0) losses) ;;;
  Ok (self'', epoch_trace ++ final_trace).

(** *** The losses without a mask

    The same computations with the multiplication by [valid_mask] left
    out; they only serve to state what a mask of ones does. *)

Definition policy_gradient_loss_unmasked (self : PPOAgent)
    (time_steps : TimeStep Observation) (actions : Action)
    (sample_action_log_probs advantages : Tensor)
    (current_policy_distribution : Distribution) : result R :=
  policy_gradient_loss <-
    policy_gradient_per_timestep self actions sample_action_log_probs
      advantages current_policy_distribution ;;
  Ok (reduce_mean policy_gradient_loss).

Definition value_estimation_loss_unmasked (self : PPOAgent)
    (time_steps : TimeStep Observation) (returns : Tensor) : result R :=
  let value_preds :=
    apply_value_network (trainable_weights self)
      (_observation_normalizer self)
      (observation time_steps) (step_type time_steps) in
  value_estimation_error <- squared_difference returns value_preds ;;
  Ok (reduce_mean value_estimation_error * _value_pred_loss_coef self).

Definition entropy_regularization_loss_unmasked (self : PPOAgent)
    (time_steps : TimeStep Observation)
    (current_policy_distribution : Distribution) : result R :=
  if Rltb 0 (_entropy_regularization self) then
    let entropy := entropy current_policy_distribution in
    Ok (reduce_mean (tf_neg entropy) * _entropy_regularization self)
  else Ok 0.

Definition kl_penalty_loss_unmasked (self : PPOAgent)
    (time_steps : TimeStep Observation)
    (action_distribution_parameters : DistributionParams)
    (current_policy_distribution : Distribution) : result R :=
  let kl_divergence :=
    _kl_divergence self time_steps action_distribution_parameters
      current_policy_distribution in
  Ok (kl_cutoff_loss self kl_divergence + adaptive_kl_loss self kl_divergence).

(** *** Entrywise formulas *)

(** The tensor of shape [(B, T)] whose entry [(b, t)] is [f b t]. *)
Definition tabulate (B T : nat) (f : nat -> nat -> R) : Tensor :=
  map (fun b => map (fun t => f b t) (seq 0 T)) (seq 0 B).

Definition ones (B T : nat) : Tensor := tabulate B T (fun _ _ => 1).
Definition zeros (B T : nat) : Tensor := tabulate B T (fun _ _ => 0).

(** The importance ratio of one timestep as the agent computes it: the
    clipping bounds the new log-probability, and the old log-probability is
    subtracted afterwards. *)
Definition importance_ratio_at (self : PPOAgent) (new_log_prob old_log_prob : R)
  : R :=
  exp ((if Rltb 0 (_log_prob_clipping self)
        then clip new_log_prob (- _log_prob_clipping self)
               (_log_prob_clipping self)
        else new_log_prob) - old_log_prob).

(** The importance ratio of one timestep in the words of the specification:
    [exp(clip(log pi_new(a) - log pi_old(a), +-logClip))]. *)
Definition importance_ratio_of_clipped_difference (self : PPOAgent)
    (new_log_prob old_log_prob : R) : R :=
  exp (if Rltb 0 (_log_prob_clipping self)
       then clip (new_log_prob - old_log_prob) (- _log_prob_clipping self)
              (_log_prob_clipping self)
       else new_log_prob - old_log_prob).

(** The surrogate objective of one timestep: the pessimistic minimum with
    the clipped ratio, or the plain product when the clipping is off. *)
Definition surrogate_objective (self : PPOAgent) (ratio advantage : R) : R :=
  if Rltb 0 (_importance_ratio_clipping self)
  then Rmin (ratio * advantage)
         (clip ratio (1 - _importance_ratio_clipping self)
            (1 + _importance_ratio_clipping self) * advantage)
  else ratio * advantage.

(** The outputs of the networks and of the distribution have the shape of
    the batch, whatever the weights are, and the L2 term can be summed. *)
Definition network_outputs_shaped (self : PPOAgent)
    (time_steps : TimeStep Observation) (actions : Action)
    (action_distribution_parameters : DistributionParams) (B T : nat)
  : Prop :=
  forall w : Weights,
    let distribution :=
      policy_distribution w (_observation_normalizer self) time_steps in
    has_shape B T (log_probability distribution actions) /\
    has_shape B T (entropy distribution) /\
    has_shape B T
      (nested_kl_divergence
         (get_distribution_from_params_and_classes
            action_distribution_parameters) distribution) /\
    has_shape B T
      (apply_value_network w (_observation_normalizer self)
         (observation time_steps) (step_type time_steps)) /\
    exists l2, l2_regularization_loss (set_trainable_weights self w) = Ok l2.

(** A trajectory of [T + 1] steps for [B] environments: [T] transitions, and
    one more value prediction than transitions. *)
Definition well_shaped_experience (self : PPOAgent) (experience : Trajectory)
    (B T : nat) : Prop :=
  let '(time_steps, policy_steps_, next_time_steps) :=
    to_transition (all_but_last experience) (all_but_first experience) in
  has_shape B T (estimator_rewards self next_time_steps) /\
  has_shape B T (discount next_time_steps) /\
  has_shape B T (get_episode_mask next_time_steps) /\
  has_shape B T (make_timestep_mask next_time_steps) /\
  has_shape B (S T)
    (apply_value_network (trainable_weights self)
       (_observation_normalizer self) (trajectory_observation experience)
       (trajectory_step_type experience)) /\
  has_shape B T
    (log_probability
       (get_distribution_from_params_and_classes (info policy_steps_))
       (action policy_steps_)) /\
  network_outputs_shaped self time_steps (action policy_steps_)
    (info policy_steps_) B T.

(** The weights after [n] more optimizer steps on one batch. *)
Fixpoint weights_after_epochs (n : nat) (self : PPOAgent)
    (time_steps : TimeStep Observation) (actions : Action)
    (act_log_probs returns normalized_advantages : Tensor)
    (action_distribution_parameters : DistributionParams)
    (valid_mask : Tensor) : Weights :=
  match n with
  | O => trainable_weights self
  | S n' =>
      weights_after_epochs n'
        (set_trainable_weights self
           (optimizer_step
              (epoch_total_loss self time_steps actions act_log_probs
                 returns normalized_advantages
                 action_distribution_parameters valid_mask)
              (trainable_weights self)))
        time_steps actions act_log_probs returns normalized_advantages
        action_distribution_parameters valid_mask
  end.

(** The operations that run after the update epochs, in order: the KL
    divergence and the beta update when the controller is enabled, then the
    update of each normalizer the agent has. *)
Definition final_trace (self : PPOAgent) : list op :=
  (match _adaptive_kl_beta self with
   | Some _ => [KLDivergenceOp; UpdateAdaptiveKLBetaOp]
   | None => []
   end)
  ++ (match _observation_normalizer self with
      | Some _ => [UpdateObservationNormalizerOp]
      | None => []
      end)
  ++ (match _reward_normalizer self with
      | Some _ => [UpdateRewardNormalizerOp]
      | None => []
      end).

(** The product of the discounts of row [b] over the steps [t, t+1, ...,
    t+n-1]. *)
Fixpoint discount_product (discounts : Tensor) (b t n : nat) : R :=
  match n with
  | O => 1
  | S n' => at2 discounts b t * discount_product discounts b (S t) n'
  end.

End Agent.

(** ** The masked losses over float32 values

    The four masked losses once more, this time over float32 values that
    can be infinite or NaN, to see what the mask does to a timestep whose
    value has overflowed. Rounding is still left out: a finite result is
    the real result, unless it lies beyond the largest finite float32, where
    it is an infinity. The special values follow IEEE 754; the sign of a
    zero is not kept. The agent is one built with [check_numerics=False],
    the default, so that [tf.check_numerics] is never called. *)

Module Float32.

Inductive float32 : Type :=
| Finite (x : R)
| PosInf
| NegInf
| NaN.

(** The largest finite float32. *)
Definition FLT_MAX : R := (2 - / 2 ^ 23) * 2 ^ 127.

(** The reals that a finite float32 can stand for. *)
Definition finite_float (x : R) : Prop := - FLT_MAX <= x <= FLT_MAX.

(** A real result as a float32: beyond the finite range it overflows. *)
Definition to_float (x : R) : float32 :=
  if Rltb FLT_MAX x then PosInf
  else if Rltb x (- FLT_MAX) then NegInf
  else Finite x.

Definition is_finite (v : float32) : bool :=
  match v with
  | Finite _ => true
  | _ => false
  end.

(** The values an operation can return: its finite results are in range. *)
Definition representable (v : float32) : Prop :=
  match v with
  | Finite x => finite_float x
  | _ => True
  end.

Definition fneg (v : float32) : float32 :=
  match v with
  | Finite x => Finite (- x)
  | PosInf => NegInf
  | NegInf => PosInf
  | NaN => NaN
  end.

Definition fadd (u v : float32) : float32 :=
  match u, v with
  | NaN, _ | _, NaN => NaN
  | Finite x, Finite y => to_float (x + y)
  | PosInf, NegInf | NegInf, PosInf => NaN
  | PosInf, _ | _, PosInf => PosInf
  | NegInf, _ | _, NegInf => NegInf
  end.

Definition fsub (u v : float32) : float32 := fadd u (fneg v).

(** [x * inf] for the infinity of the given sign: [0 * inf] is NaN. *)
Definition times_infinity (x : R) (positive : bool) : float32 :=
  if Rltb 0 x then (if positive then PosInf else NegInf)
  else if Rltb x 0 then (if positive then NegInf else PosInf)
  else NaN.

Definition fmul (u v : float32) : float32 :=
  match u, v with
  | NaN, _ | _, NaN => NaN
  | Finite x, Finite y => to_float (x * y)
  | Finite x, PosInf | PosInf, Finite x => times_infinity x true
  | Finite x, NegInf | NegInf, Finite x => times_infinity x false
  | PosInf, PosInf | NegInf, NegInf => PosInf
  | PosInf, NegInf | NegInf, PosInf => NegInf
  end.

(** Division; a zero divisor counts as [+0], the only one that occurs being
    the number of entries of an empty tensor. *)
Definition fdiv (u v : float32) : float32 :=
  match u, v with
  | NaN, _ | _, NaN => NaN
  | Finite x, Finite y =>
      if Rltb 0 y || Rltb y 0 then to_float (x / y)
      else times_infinity x true
  | Finite _, _ => Finite 0
  | PosInf, Finite y => if Rltb y 0 then NegInf else PosInf
  | NegInf, Finite y => if Rltb y 0 then PosInf else NegInf
  | _, _ => NaN
  end.

(** [u < v]: false as soon as one side is NaN. *)
Definition fless (u v : float32) : bool :=
  match u, v with
  | NaN, _ | _, NaN => false
  | Finite x, Finite y => Rltb x y
  | _, NegInf => false
  | NegInf, _ => true
  | PosInf, _ => false
  | _, PosInf => true
  end.

Definition is_infinite (v : float32) : bool :=
  match v with
  | PosInf | NegInf => true
  | _ => false
  end.

(** [tf.minimum] and [tf.maximum]: the smaller and the larger operand.
    Which operand a kernel returns when one of them is NaN has changed
    between versions; NaN is kept here, so that a result that is not NaN
    always comes from operands that are not NaN. *)
Definition fmin (x y : float32) : float32 :=
  match x, y with
  | NaN, _ | _, NaN => NaN
  | _, _ => if fless x y then x else y
  end.

Definition fmax (x y : float32) : float32 :=
  match x, y with
  | NaN, _ | _, NaN => NaN
  | _, _ => if fless y x then x else y
  end.

Definition fexp (v : float32) : float32 :=
  match v with
  | Finite x => to_float (exp x)
  | PosInf => PosInf
  | NegInf => Finite 0
  | NaN => NaN
  end.

Abbreviation FVector := (list float32).
Abbreviation FTensor := (list (list float32)).

(** A tensor of float32 values given by the numbers they hold. *)
Definition of_tensor (t : Tensor) : FTensor := map (map to_float) t.

Definition has_shape (B T : nat) (t : FTensor) : Prop :=
  length t = B /\ Forall (fun row => length row = T) t.

(** Every entry satisfies [P]. *)
Definition all (P : float32 -> Prop) (t : FTensor) : Prop :=
  Forall (Forall P) t.

Definition all_finite (t : FTensor) : Prop :=
  all (fun v => is_finite v = true) t.

Fixpoint zip_with (op : float32 -> float32 -> float32) (a b : FVector)
  : FVector :=
  match a, b with
  | x :: a', y :: b' => op x y :: zip_with op a' b'
  | _, _ => []
  end.

Definition broadcast1 (op : float32 -> float32 -> float32) (a b : FVector)
  : result FVector :=
  if (length a =? length b)%nat then Ok (zip_with op a b)
  else match a, b with
       | [x], _ => Ok (map (op x) b)
       | _, [y] => Ok (map (fun x => op x y) a)
       | _, _ => Raise (InvalidArgumentError "Incompatible shapes")
       end.

Fixpoint zip_rows (op : float32 -> float32 -> float32) (a b : FTensor)
  : result FTensor :=
  match a, b with
  | ra :: a', rb :: b' =>
      r <- broadcast1 op ra rb ;;
      rest <- zip_rows op a' b' ;;
      Ok (r :: rest)
  | _, _ => Ok []
  end.

Fixpoint map_rows (f : FVector -> result FVector) (t : FTensor)
  : result FTensor :=
  match t with
  | [] => Ok []
  | r :: t' =>
      r' <- f r ;;
      rest <- map_rows f t' ;;
      Ok (r' :: rest)
  end.

Definition broadcast2 (op : float32 -> float32 -> float32) (a b : FTensor)
  : result FTensor :=
  if (length a =? length b)%nat then zip_rows op a b
  else match a, b with
       | [ra], _ => map_rows (fun rb => broadcast1 op ra rb) b
       | _, [rb] => map_rows (fun ra => broadcast1 op ra rb) a
       | _, _ => Raise (InvalidArgumentError "Incompatible shapes")
       end.

Definition tf_sub : FTensor -> FTensor -> result FTensor := broadcast2 fsub.
Definition tf_mul : FTensor -> FTensor -> result FTensor := broadcast2 fmul.
Definition tf_minimum : FTensor -> FTensor -> result FTensor :=
  broadcast2 fmin.
Definition squared_difference : FTensor -> FTensor -> result FTensor :=
  broadcast2 (fun x y => fmul (fsub x y) (fsub x y)).
Definition tf_neg (t : FTensor) : FTensor := map (map fneg) t.
Definition tf_exp (t : FTensor) : FTensor := map (map fexp) t.

(** [tf.clip_by_value(t, lo, hi)] is [maximum(minimum(t, hi), lo)]. *)
Definition clip_by_value (t : FTensor) (lo hi : float32) : FTensor :=
  map (map (fun x => fmax (fmin x hi) lo)) t.

Definition reduce_sum (t : FTensor) : float32 :=
  fold_right fadd (Finite 0) (concat t).

Definition reduce_mean (t : FTensor) : float32 :=
  fdiv (reduce_sum t) (to_float (INR (length (concat t)))).

Section Losses.

Context `{Collaborators}.

(** The per-timestep loss of [policy_gradient_loss], before the mask and
    the mean. The clipping bounds are Python floats. *)
Definition policy_gradient_per_timestep (self : PPOAgent)
    (actions : Action) (sample_action_log_probs advantages : Tensor)
    (current_policy_distribution : Distribution) : result FTensor :=
  let action_log_prob :=
    of_tensor (log_probability current_policy_distribution actions) in
  let action_log_prob :=
    if Rltb 0 (_log_prob_clipping self)
    then clip_by_value action_log_prob
           (to_float (- _log_prob_clipping self))
           (to_float (_log_prob_clipping self))
    else action_log_prob in
  d <- tf_sub action_log_prob (of_tensor sample_action_log_probs) ;;
  let importance_ratio := tf_exp d in
  let importance_ratio_clipped :=
    clip_by_value importance_ratio
      (to_float (1 - _importance_ratio_clipping self))
      (to_float (1 + _importance_ratio_clipping self)) in
  per_timestep_objective <-
    tf_mul importance_ratio (of_tensor advantages) ;;
  per_timestep_objective_clipped <-
    tf_mul importance_ratio_clipped (of_tensor advantages) ;;
  per_timestep_objective_min <-
    tf_minimum per_timestep_objective per_timestep_objective_clipped ;;
  if Rltb 0 (_importance_ratio_clipping self)
  then Ok (tf_neg per_timestep_objective_min)
  else Ok (tf_neg per_timestep_objective).

Definition policy_gradient_loss (self : PPOAgent)
    (time_steps : TimeStep Observation) (actions : Action)
    (sample_action_log_probs advantages : Tensor)
    (current_policy_distribution : Distribution) (valid_mask : Tensor)
  : result float32 :=
  policy_gradient_loss <-
    policy_gradient_per_timestep self actions sample_action_log_probs
      advantages current_policy_distribution ;;
  m <- tf_mul policy_gradient_loss (of_tensor valid_mask) ;;
  Ok (reduce_mean m).

(** The per-timestep error of [value_estimation_loss], before the mask. *)
Definition value_estimation_per_timestep (self : PPOAgent)
    (time_steps : TimeStep Observation) (returns : Tensor)
  : result FTensor :=
  let value_preds :=
    of_tensor
      (apply_value_network (trainable_weights self)
         (_observation_normalizer self)
         (observation time_steps) (step_type time_steps)) in
  squared_difference (of_tensor returns) value_preds.

Definition value_estimation_loss (self : PPOAgent)
    (time_steps : TimeStep Observation) (returns valid_mask : Tensor)
  : result float32 :=
  sq <- value_estimation_per_timestep self time_steps returns ;;
  value_estimation_error <- tf_mul sq (of_tensor valid_mask) ;;
  Ok (fmul (reduce_mean value_estimation_error)
           (to_float (_value_pred_loss_coef self))).

Definition entropy_regularization_loss (self : PPOAgent)
    (time_steps : TimeStep Observation)
    (current_policy_distribution : Distribution) (valid_mask : Tensor)
  : result float32 :=
  if Rltb 0 (_entropy_regularization self) then
    let entropy := of_tensor (entropy current_policy_distribution) in
    m <- tf_mul (tf_neg entropy) (of_tensor valid_mask) ;;
    Ok (fmul (reduce_mean m) (to_float (_entropy_regularization self)))
  else Ok (Finite 0).

(** [kl_cutoff] is a product of Python floats. *)
Definition kl_cutoff_loss (self : PPOAgent) (kl_divergence : FTensor)
  : float32 :=
  if Rleb (_kl_cutoff_factor self) 0 then Finite 0
  else
    let kl_cutoff :=
      to_float (_kl_cutoff_factor self * _adaptive_kl_target self) in
    let mean_kl := reduce_mean kl_divergence in
    let kl_over_cutoff := fmax (fsub mean_kl kl_cutoff) (Finite 0) in
    fmul (to_float (_kl_cutoff_coef self))
         (fmul kl_over_cutoff kl_over_cutoff).

Definition adaptive_kl_loss (self : PPOAgent) (kl_divergence : FTensor)
  : float32 :=
  match _adaptive_kl_beta self with
  | None => Finite 0
  | Some beta =>
      let mean_kl := reduce_mean kl_divergence in
      fmul (to_float beta) mean_kl
  end.

Definition kl_penalty_loss (self : PPOAgent)
    (time_steps : TimeStep Observation)
    (action_distribution_parameters : DistributionParams)
    (current_policy_distribution : Distribution) (valid_mask : Tensor)
  : result float32 :=
  kl_divergence <-
    tf_mul (of_tensor
              (_kl_divergence self time_steps action_distribution_parameters
                 current_policy_distribution))
           (of_tensor valid_mask) ;;
  let kl_cutoff_loss := kl_cutoff_loss self kl_divergence in
  let adaptive_kl_loss := adaptive_kl_loss self kl_divergence in
  Ok (fadd kl_cutoff_loss adaptive_kl_loss).

(** *** The losses without a mask

    The same computations with the multiplication by [valid_mask] left
    out; they only serve to state what a mask of ones does. *)

Definition policy_gradient_loss_unmasked (self : PPOAgent)
    (time_steps : TimeStep Observation) (actions : Action)
    (sample_action_log_probs advantages : Tensor)
    (current_policy_distribution : Distribution) : result float32 :=
  policy_gradient_loss <-
    policy_gradient_per_timestep self actions sample_action_log_probs
      advantages current_policy_distribution ;;
  Ok (reduce_mean policy_gradient_loss).

Definition value_estimation_loss_unmasked (self : PPOAgent)
    (time_steps : TimeStep Observation) (returns : Tensor) : result float32 :=
  value_estimation_error <-
    value_estimation_per_timestep self time_steps returns ;;
  Ok (fmul (reduce_mean value_estimation_error)
           (to_float (_value_pred_loss_coef self))).

Definition entropy_regularization_loss_unmasked (self : PPOAgent)
    (time_steps : TimeStep Observation)
    (current_policy_distribution : Distribution) : result float32 :=
  if Rltb 0 (_entropy_regularization self) then
    let entropy := of_tensor (entropy current_policy_distribution) in
    Ok (fmul (reduce_mean (tf_neg entropy))
             (to_float (_entropy_regularization self)))
  else Ok (Finite 0).

Definition kl_penalty_loss_unmasked (self : PPOAgent)
    (time_steps : TimeStep Observation)
    (action_distribution_parameters : DistributionParams)
    (current_policy_distribution : Distribution) : result float32 :=
  let kl_divergence :=
    of_tensor
      (_kl_divergence self time_steps action_distribution_parameters
         current_policy_distribution) in
  Ok (fadd (kl_cutoff_loss self kl_divergence)
           (adaptive_kl_loss self kl_divergence)).

End Losses.

End Float32.

(** ** A test double for the collaborators

    Distributions are tables of per-timestep values. The policy is constant
    over the batch: its weights are the log-probability it gives every
    action and its KL divergence from the collection policy. An observation
    is the value predicted for it, the optimizer is stationary and the
    normalizers are the identity. *)

Record StubDistribution : Type := {
  stub_log_prob : Tensor;
  stub_entropy : Tensor;
  stub_kl : Tensor
}.

Record StubWeights : Type := {
  weight_log_prob : R;
  weight_kl : R
}.

Record StubTrajectory : Type := {
  stub_value_preds : Tensor;
  stub_time_steps : TimeStep (list (list R));
  stub_policy_steps : PolicyStep unit StubDistribution;
  stub_next_time_steps : TimeStep (list (list R))
}.

Definition fill (x : R) (like : Tensor) : Tensor := map (map (fun _ => x)) like.

Definition stub_mask (zero_at : StepType -> bool)
    (ts : TimeStep (list (list R))) : Tensor :=
  map (map (fun s => if zero_at s then 0 else 1)) (step_type ts).

#[export] Instance stub_collaborators : Collaborators := {|
  Observation := list (list R);
  Action := unit;
  Distribution := StubDistribution;
  DistributionParams := StubDistribution;
  Weights := StubWeights;
  Normalizer := unit;
  Trajectory := StubTrajectory;
  all_but_last := fun e => e;
  all_but_first := fun e => e;
  to_transition := fun e0 e1 =>
    (stub_time_steps e0, stub_policy_steps e0, stub_next_time_steps e1);
  trajectory_observation := stub_value_preds;
  trajectory_step_type := fun _ => [];
  log_probability := fun d _ => stub_log_prob d;
  entropy := stub_entropy;
  get_distribution_from_params_and_classes := fun p => p;
  nested_kl_divergence := fun _ new => stub_kl new;
  get_episode_mask :=
    stub_mask (fun s => match s with LAST => true | _ => false end);
  make_timestep_mask :=
    stub_mask (fun s => match s with FIRST => true | _ => false end);
  policy_distribution := fun w _ ts =>
    {| stub_log_prob := fill (weight_log_prob w) (reward ts);
       stub_entropy := fill 0 (reward ts);
       stub_kl := fill (weight_kl w) (reward ts) |};
  apply_value_network := fun _ _ obs _ => obs;
  actor_kernel_square_sums := fun _ => [];
  value_kernel_square_sums := fun _ => [];
  optimizer_step := fun _ w => w;
  normalize_reward := fun _ x _ => x;
  update_reward_normalizer := fun n _ => n;
  update_observation_normalizer := fun n _ => n
|}.

(** The agent built by the default arguments of [__init__], on the test
    double. *)
Definition default_agent (w : StubWeights) : PPOAgent :=
  {| _importance_ratio_clipping := 0.0;
     _lambda := 0.95;
     _discount_factor := 0.99;
     _policy_l2_reg := 0.0;
     _value_function_l2_reg := 0.0;
     _entropy_regularization := 0.0;
     _value_pred_loss_coef := 0.5;
     _use_gae := false;
     _use_td_lambda_return := false;
     _num_epochs := 25;
     _log_prob_clipping := 0.0;
     _kl_cutoff_factor := 2.0;
     _kl_cutoff_coef := 1000.0;
     _adaptive_kl_beta := Some 1.0;
     _adaptive_kl_target := 0.01;
     _adaptive_kl_tolerance := 0.3;
     _reward_norm_clipping := 10.0;
     _reward_normalizer := Some tt;
     _observation_normalizer := Some tt;
     trainable_weights := w |}.

Definition example_weights : StubWeights :=
  {| weight_log_prob := 0; weight_kl := 0.02 |}.

Definition example_agent : PPOAgent := default_agent example_weights.

(** Two transitions of one environment; the second one crosses into a new
    episode, so that its timestep is masked out. *)
Definition example_time_steps : TimeStep (list (list R)) :=
  {| step_type := [[FIRST; MID]];
     reward := [[0; 0]];
     discount := [[1; 1]];
     observation := [[0; 0]] |}.

Definition example_next_time_steps : TimeStep (list (list R)) :=
  {| step_type := [[MID; FIRST]];
     reward := [[1; 1]];
     discount := [[1; 1]];
     observation := [[0; 0]] |}.

Definition example_experience : StubTrajectory :=
  {| stub_value_preds := [[0; 0; 0]];
     stub_time_steps := example_time_steps;
     stub_policy_steps :=
       {| action := tt;
          info := {| stub_log_prob := [[0; 0]];
                     stub_entropy := [[0; 0]];
                     stub_kl := [[0; 0]] |} |};
     stub_next_time_steps := example_next_time_steps |}.

(** What the policy of [example_agent] answers on the example batch, and
    the stored parameters of the collection policy. *)
Definition example_distribution : StubDistribution :=
  @policy_distribution stub_collaborators example_weights (Some tt)
    example_time_steps.

Definition example_parameters : StubDistribution :=
  info (stub_policy_steps example_experience).

(** A distribution that gives the one action of a one-step batch the
    log-probability [x]. *)
Definition one_step_distribution (x : R) : StubDistribution :=
  {| stub_log_prob := [[x]]; stub_entropy := [[0]]; stub_kl := [[0]] |}.

(** ** Construction

    [__init__] stores its arguments; it makes the beta variable only for a
    positive initial value and a normalizer only where normalization is
    asked for. The networks come with their weights, and the normalizers it
    would create are passed in fresh. *)

Section Construction.

Context `{Collaborators}.

Definition __init__ (networks : Weights)
    (fresh_reward_normalizer fresh_observation_normalizer : Normalizer)
    (importance_ratio_clipping lambda_value discount_factor
     entropy_regularization policy_l2_reg value_function_l2_reg
     value_pred_loss_coef : R)
    (num_epochs : nat) (use_gae use_td_lambda_return normalize_rewards : bool)
    (reward_norm_clipping : R) (normalize_observations : bool)
    (log_prob_clipping kl_cutoff_factor kl_cutoff_coef
     initial_adaptive_kl_beta adaptive_kl_target adaptive_kl_tolerance : R)
  : PPOAgent :=
  {| _importance_ratio_clipping := importance_ratio_clipping;
     _lambda := lambda_value;
     _discount_factor := discount_factor;
     _policy_l2_reg := policy_l2_reg;
     _value_function_l2_reg := value_function_l2_reg;
     _entropy_regularization := entropy_regularization;
     _value_pred_loss_coef := value_pred_loss_coef;
     _use_gae := use_gae;
     _use_td_lambda_return := use_td_lambda_return;
     _num_epochs := num_epochs;
     _log_prob_clipping := log_prob_clipping;
     _kl_cutoff_factor := kl_cutoff_factor;
     _kl_cutoff_coef := kl_cutoff_coef;
     _adaptive_kl_beta := create_adaptive_kl_beta initial_adaptive_kl_beta;
     _adaptive_kl_target := adaptive_kl_target;
     _adaptive_kl_tolerance := adaptive_kl_tolerance;
     _reward_norm_clipping := reward_norm_clipping;
     _reward_normalizer :=
       if normalize_rewards then Some fresh_reward_normalizer else None;
     _observation_normalizer :=
       if normalize_observations then Some fresh_observation_normalizer
       else None;
     trainable_weights := networks |}.

(** [train] hands the experience to [train_from_experience]. *)
Definition train (self : PPOAgent) (experience : Trajectory)
  : result (PPOAgent * list op) :=
  train_from_experience self experience.

End Construction.

(** ** Sums over indices *)

(** [f 0 + f 1 + ... + f (n - 1)]. *)
Fixpoint sum_upto (n : nat) (f : nat -> R) : R :=
  match n with
  | O => 0
  | S n' => f 0%nat + sum_upto n' (fun k => f (S k))
  end.

(** The discounted sum of the rewards of row [b] over the [n] steps from
    [t] on: each reward is weighted by the discounts of the steps before
    it. *)
Definition discounted_sum (rewards discounts : Tensor) (b t n : nat) : R :=
  sum_upto n (fun k =>
    discount_product discounts b t k * at2 rewards b (t + k)).

(** * Properties *)

(** ** The error monad *)

Lemma bind_Ok {A B : Type} (a : A) (k : A -> result B) :
  bind (Ok a) k = k a.
Proof. reflexivity. Qed.

Lemma bind_Raise {A B : Type} (e : error) (k : A -> result B) :
  bind (Raise e) k = Raise e.
Proof. reflexivity. Qed.

(** ** Shapes and entries *)

Lemma has_shape_length B T t : has_shape B T t -> length t = B.
Proof. now intros [HB _]. Qed.

Lemma has_shape_row B T t b :
  has_shape B T t -> (b < B)%nat -> length (nth b t []) = T.
Proof.
  intros [HB HT] Hb. rewrite Forall_forall in HT.
  apply HT, nth_In. lia.
Qed.

Lemma has_shape_shape B T t :
  has_shape B T t -> (0 < B)%nat -> shape t = (B, T).
Proof.
  intros Ht HB. unfold shape. rewrite (has_shape_length _ _ _ Ht).
  f_equal. pose proof (has_shape_row B T t 0 Ht HB) as H0.
  destruct t as [|r t']; [destruct Ht; simpl in *; lia | exact H0].
Qed.

Lemma tabulate_shape B T f : has_shape B T (tabulate B T f).
Proof.
  split.
  - unfold tabulate. now rewrite length_map, length_seq.
  - unfold tabulate. apply Forall_forall. intros row Hrow.
    apply in_map_iff in Hrow as [b [<- _]].
    now rewrite length_map, length_seq.
Qed.

Lemma at2_tabulate B T f b t :
  (b < B)%nat -> (t < T)%nat -> at2 (tabulate B T f) b t = f b t.
Proof.
  intros Hb Ht. unfold at2, tabulate.
  rewrite (nth_indep _ [] (map (fun t0 => f 0%nat t0) (seq 0 T)))
    by now rewrite length_map, length_seq.
  rewrite (map_nth (fun b0 => map (fun t0 => f b0 t0) (seq 0 T)) (seq 0 B) 0%nat b).
  rewrite seq_nth by assumption. simpl.
  rewrite (nth_indep _ 0 (f b 0%nat))
    by now rewrite length_map, length_seq.
  rewrite (map_nth (fun t0 => f b t0) (seq 0 T) 0%nat t).
  now rewrite seq_nth.
Qed.

Lemma at2_outside_row B T t b i :
  has_shape B T t -> (T <= i)%nat -> at2 t b i = 0.
Proof.
  intros Ht Hi. unfold at2.
  destruct (Nat.lt_ge_cases b B) as [Hb|Hb].
  - apply nth_overflow. rewrite (has_shape_row B T t b Ht Hb). lia.
  - rewrite (nth_overflow t) by (rewrite (has_shape_length _ _ _ Ht); lia).
    now destruct i.
Qed.

Lemma list_ext_nth {A : Type} (d : A) (l1 l2 : list A) :
  length l1 = length l2 ->
  (forall i, (i < length l1)%nat -> nth i l1 d = nth i l2 d) ->
  l1 = l2.
Proof.
  revert l2. induction l1 as [|x l1 IH]; intros [|y l2] Hlen Hnth;
    simpl in Hlen; try discriminate; [reflexivity|].
  f_equal.
  - apply (Hnth 0%nat). simpl. lia.
  - apply IH; [lia|]. intros i Hi. apply (Hnth (S i)). simpl. lia.
Qed.

(** Two tensors of one shape with the same entries are equal. *)
Lemma tensor_ext B T t1 t2 :
  has_shape B T t1 -> has_shape B T t2 ->
  (forall b i, (b < B)%nat -> (i < T)%nat -> at2 t1 b i = at2 t2 b i) ->
  t1 = t2.
Proof.
  intros H1 H2 Hext.
  pose proof (has_shape_length _ _ _ H1) as L1.
  pose proof (has_shape_length _ _ _ H2) as L2.
  apply (list_ext_nth []); [lia|].
  intros b Hb.
  assert (Hb' : (b < B)%nat) by (lia).
  pose proof (has_shape_row _ _ _ _ H1 Hb') as R1.
  pose proof (has_shape_row _ _ _ _ H2 Hb') as R2.
  apply (list_ext_nth 0); [lia|].
  intros i Hi. apply Hext; [assumption|].
  lia.
Qed.

Lemma tabulate_at2 B T t : has_shape B T t -> t = tabulate B T (at2 t).
Proof.
  intros Ht. apply (tensor_ext B T); auto using tabulate_shape.
  intros b i Hb Hi. now rewrite at2_tabulate.
Qed.

Lemma tabulate_ext B T f g :
  (forall b t, (b < B)%nat -> (t < T)%nat -> f b t = g b t) ->
  tabulate B T f = tabulate B T g.
Proof.
  intros Hfg. apply (tensor_ext B T); auto using tabulate_shape.
  intros b i Hb Hi. rewrite !at2_tabulate by assumption. now apply Hfg.
Qed.

(** ** Elementwise operations on tensors of one shape *)

Lemma zip_with_length op a b :
  length a = length b -> length (zip_with op a b) = length a.
Proof.
  revert b. induction a as [|x a IH]; intros [|y b] Hlen;
    simpl in *; try discriminate; [reflexivity|].
  f_equal. apply IH. lia.
Qed.

Lemma nth_zip_with op a b i :
  length a = length b -> (i < length a)%nat ->
  nth i (zip_with op a b) 0 = op (nth i a 0) (nth i b 0).
Proof.
  revert b i. induction a as [|x a IH]; intros [|y b] i Hlen Hi;
    simpl in *; try discriminate; try lia.
  destruct i as [|i]; [reflexivity|]. apply IH; lia.
Qed.

Lemma broadcast1_same_length op a b :
  length a = length b -> broadcast1 op a b = Ok (zip_with op a b).
Proof.
  intros Hlen. unfold broadcast1.
  now rewrite (proj2 (Nat.eqb_eq _ _) Hlen).
Qed.

Lemma zip_rows_rows op a : forall b,
  length a = length b ->
  (forall i, (i < length a)%nat -> length (nth i a []) = length (nth i b [])) ->
  exists r, zip_rows op a b = Ok r /\ length r = length a /\
    forall i, (i < length a)%nat ->
      nth i r [] = zip_with op (nth i a []) (nth i b []).
Proof.
  induction a as [|ra a IH]; intros [|rb b] Hlen Hrows;
    simpl in Hlen; try discriminate.
  - exists []. repeat split. intros i Hi. simpl in Hi. lia.
  - destruct (IH b) as [r [Hr [Lr Nr]]].
    + lia.
    + intros i Hi. apply (Hrows (S i)). simpl. lia.
    + exists (zip_with op ra rb :: r). simpl.
      rewrite broadcast1_same_length by (apply (Hrows 0%nat); simpl; lia).
      rewrite bind_Ok, Hr, bind_Ok. repeat split.
      * simpl. now rewrite Lr.
      * intros [|i] Hi; [reflexivity|]. apply Nr. simpl in Hi. lia.
Qed.

Lemma broadcast2_same_shape op B T a b :
  has_shape B T a -> has_shape B T b ->
  broadcast2 op a b = Ok (tabulate B T (fun i j => op (at2 a i j) (at2 b i j))).
Proof.
  intros Ha Hb.
  pose proof (has_shape_length _ _ _ Ha) as La.
  pose proof (has_shape_length _ _ _ Hb) as Lb.
  unfold broadcast2.
  replace (length a =? length b)%nat with true
    by (symmetry; apply Nat.eqb_eq; lia).
  destruct (zip_rows_rows op a b) as [r [Hr [Lr Nr]]].
  - lia.
  - intros i Hi.
    rewrite (has_shape_row B T a i Ha), (has_shape_row B T b i Hb);
      lia.
  - rewrite Hr. f_equal.
    assert (Hshape : has_shape B T r).
    { split; [lia|]. apply Forall_forall. intros row Hin.
      destruct (In_nth _ _ [] Hin) as [i [Hi <-]].
      assert (Hi' : (i < B)%nat) by (lia).
      rewrite Nr by (lia).
      rewrite zip_with_length.
      - now apply (has_shape_row B T a).
      - rewrite (has_shape_row B T a i Ha), (has_shape_row B T b i Hb); auto. }
    apply (tensor_ext B T); auto using tabulate_shape.
    intros i j Hi Hj. rewrite at2_tabulate by assumption.
    unfold at2. rewrite Nr by (lia).
    apply nth_zip_with.
    + rewrite (has_shape_row B T a i Ha), (has_shape_row B T b i Hb); auto.
    + rewrite (has_shape_row B T a i Ha); auto.
Qed.

Lemma map_map_tabulate B T (f : R -> R) t :
  has_shape B T t ->
  map (map f) t = tabulate B T (fun b i => f (at2 t b i)).
Proof.
  intros Ht.
  pose proof (has_shape_length _ _ _ Ht) as Lt.
  assert (Hshape : has_shape B T (map (map f) t)).
  { split; [now rewrite length_map|].
    apply Forall_forall. intros row Hin.
    apply in_map_iff in Hin as [row' [<- Hin']].
    rewrite length_map. destruct Ht as [_ Hrows].
    rewrite Forall_forall in Hrows. now apply Hrows. }
  apply (tensor_ext B T); auto using tabulate_shape.
  intros b i Hb Hi. rewrite at2_tabulate by assumption.
  unfold at2.
  rewrite (nth_indep (map (map f) t) [] (map f []))
    by (rewrite length_map; lia).
  rewrite (map_nth (map f) t [] b).
  rewrite (nth_indep (map f (nth b t [])) 0 (f 0)).
  - now rewrite map_nth.
  - rewrite length_map, (has_shape_row B T t b Ht Hb). assumption.
Qed.

Lemma transpose_tabulate B T t :
  has_shape B T t -> (0 < B)%nat ->
  transpose t = tabulate T B (fun i b => at2 t b i).
Proof.
  intros Ht HB.
  pose proof (has_shape_shape _ _ _ Ht HB) as Hs.
  unfold shape in Hs. injection Hs as Hl Hhd.
  unfold transpose, tabulate. rewrite Hhd.
  apply map_ext_in. intros i Hi.
  apply (list_ext_nth 0).
  - rewrite !length_map, length_seq. lia.
  - intros b Hb. rewrite length_map in Hb.
    rewrite (nth_indep (map _ (seq 0 B)) 0 (at2 t 0 i))
      by (rewrite length_map, length_seq; lia).
    rewrite (map_nth (fun b0 => at2 t b0 i) (seq 0 B) 0%nat b).
    rewrite seq_nth by (lia). simpl.
    rewrite (nth_indep (map _ t) 0 (nth i [] 0))
      by (rewrite length_map; assumption).
    now rewrite (map_nth (fun row => nth i row 0) t [] b).
Qed.

(** ** The reverse scan, entry by entry *)

Lemma nth_nil_0 (b : nat) : nth b (@nil R) 0 = 0.
Proof. now destruct b. Qed.

Lemma nth_zeros_like v b : nth b (zeros_like v) 0 = 0.
Proof. exact (map_nth (fun _ : R => 0) v 0 b). Qed.

Section ScanEntrywise.

Variable B : nat.
Variable fn : Vector -> Vector * Vector -> result Vector.
Variable phi : R -> R -> R -> R.

(** On vectors of length [B] the step never fails and works entry by
    entry. *)
Hypothesis fn_entrywise : forall acc x y,
  length acc = B -> length x = B -> length y = B ->
  exists v, fn acc (x, y) = Ok v /\ length v = B /\
    forall b, (b < B)%nat ->
      nth b v 0 = phi (nth b acc 0) (nth b x 0) (nth b y 0).

Lemma scan_reverse_entrywise init :
  length init = B -> (forall b, nth b init 0 = 0) ->
  forall elems,
  Forall (fun e => length (fst e) = B /\ length (snd e) = B) elems ->
  exists outs, scan_reverse fn elems init = Ok outs /\
    length outs = length elems /\
    Forall (fun v => length v = B) outs /\
    forall t b, (t < length elems)%nat -> (b < B)%nat ->
      nth b (nth t outs []) 0 =
      phi (nth b (nth (S t) outs []) 0)
          (nth b (fst (nth t elems ([], []))) 0)
          (nth b (snd (nth t elems ([], []))) 0).
Proof.
  intros Hinit Hzero elems. induction elems as [|[x y] elems IH]; intros Hall.
  - exists []. simpl. repeat split; auto. intros t b Ht. lia.
  - pose proof (Forall_inv Hall) as [Hx Hy]. simpl in Hx, Hy.
    pose proof (Forall_inv_tail Hall) as Hrest.
    destruct (IH Hrest) as [outs [Hscan [Hlen [Hrows Hrec]]]].
    assert (Hacc : length (hd init outs) = B).
    { destruct outs as [|v outs]; [exact Hinit|].
      exact (Forall_inv Hrows). }
    assert (Hhd : forall b, nth b (hd init outs) 0 = nth b (nth 0 outs []) 0).
    { intros b. destruct outs as [|v outs]; simpl; [|reflexivity].
      rewrite Hzero. now destruct b. }
    destruct (fn_entrywise (hd init outs) x y Hacc Hx Hy)
      as [v [Hv [Lv Ev]]].
    exists (v :: outs). simpl. rewrite Hscan, bind_Ok, Hv, bind_Ok.
    repeat split.
    + simpl. now rewrite Hlen.
    + now constructor.
    + intros [|t] b Ht Hb.
      * simpl. rewrite Ev by assumption. now rewrite Hhd.
      * simpl in Ht. change (nth (S t) (v :: outs) []) with (nth t outs []).
        change (nth (S (S t)) (v :: outs) []) with (nth (S t) outs []).
        change (nth (S t) ((x, y) :: elems) ([], []))
          with (nth t elems ([], [])).
        apply Hrec; [lia | assumption].
Qed.

Lemma tf_scan2_entrywise T X Y init :
  length init = B -> (forall b, nth b init 0 = 0) ->
  has_shape T B X -> has_shape T B Y ->
  exists outs, tf_scan2 fn X Y init = Ok outs /\ has_shape T B outs /\
    forall t b, (t < T)%nat -> (b < B)%nat ->
      at2 outs t b = phi (at2 outs (S t) b) (at2 X t b) (at2 Y t b).
Proof.
  intros Hinit Hzero HX HY.
  pose proof (has_shape_length _ _ _ HX) as LX.
  pose proof (has_shape_length _ _ _ HY) as LY.
  unfold tf_scan2.
  replace (length X =? length Y)%nat with true
    by (symmetry; apply Nat.eqb_eq; lia).
  destruct (scan_reverse_entrywise init Hinit Hzero (combine X Y))
    as [outs [Hscan [Hlen [Hrows Hrec]]]].
  - apply Forall_forall. intros [x y] Hin. simpl.
    destruct HX as [_ HX], HY as [_ HY]. rewrite Forall_forall in HX, HY.
    split; [apply HX; eapply in_combine_l | apply HY; eapply in_combine_r];
      eassumption.
  - rewrite length_combine in Hlen.
    exists outs. split; [exact Hscan|]. split; [split; [lia | exact Hrows]|].
    intros t b Ht Hb. unfold at2.
    rewrite Hrec; [| rewrite length_combine; lia | assumption].
    now rewrite combine_nth by lia.
Qed.

End ScanEntrywise.

Lemma discounted_accumulate_rewards_entrywise B acc x y :
  length acc = B -> length x = B -> length y = B ->
  exists v, discounted_accumulate_rewards acc (x, y) = Ok v /\ length v = B /\
    forall b, (b < B)%nat ->
      nth b v 0 = nth b acc 0 * nth b y 0 + nth b x 0.
Proof.
  intros Hacc Hx Hy. unfold discounted_accumulate_rewards.
  rewrite broadcast1_same_length by lia. rewrite bind_Ok.
  assert (Hp : length (zip_with Rmult acc y) = B)
    by (rewrite zip_with_length; lia).
  rewrite broadcast1_same_length by lia.
  eexists. split; [reflexivity|]. split.
  - rewrite zip_with_length; lia.
  - intros b Hb. rewrite nth_zip_with by lia.
    now rewrite nth_zip_with by lia.
Qed.

Lemma first_slice_tabulate T B f :
  (0 < T)%nat ->
  exists r0, first_slice (tabulate T B f) = Ok r0 /\ length r0 = B.
Proof.
  intros HT. destruct T as [|T]; [lia|].
  unfold tabulate. simpl. eexists. split; [reflexivity|].
  now rewrite length_map, length_seq.
Qed.

(** Entry [(t, b)] of a time-major tensor is entry [(b, t)] of its
    transpose, also one step past the end, where both are the seed. *)
Lemma at2_transposed_next B T outs b t :
  has_shape T B outs -> (b < B)%nat -> (t < T)%nat ->
  at2 (tabulate B T (fun b0 t0 => at2 outs t0 b0)) b (S t) = at2 outs (S t) b.
Proof.
  intros Houts Hb Ht.
  destruct (Nat.lt_ge_cases (S t) T) as [Hlt|Hge].
  - now rewrite at2_tabulate.
  - rewrite (at2_outside_row B T) by (auto using tabulate_shape).
    unfold at2. rewrite (nth_overflow outs).
    + now rewrite nth_nil_0.
    + rewrite (has_shape_length _ _ _ Houts). lia.
Qed.

Section AgentProperties.

Context `{Collaborators}.

Lemma check_shape_same B T rewards discounts :
  (0 < B)%nat -> has_shape B T rewards -> has_shape B T discounts ->
  check_shape rewards discounts = Ok tt.
Proof.
  intros HB Hr Hd. unfold check_shape, assert_is_compatible_with,
    assert_equal_shape.
  rewrite (has_shape_shape _ _ _ Hr HB), (has_shape_shape _ _ _ Hd HB).
  unfold shape_eqb. simpl. now rewrite !Nat.eqb_refl.
Qed.

(** The returns of well-shaped inputs: the call succeeds and every entry
    obeys the reverse recursion. *)
Lemma compute_returns_entries self B T rewards discounts eps :
  (0 < B)%nat -> (0 < T)%nat ->
  has_shape B T rewards -> has_shape B T discounts ->
  exists returns,
    compute_returns self rewards discounts eps = Ok returns /\
    has_shape B T returns /\
    forall b t, (b < B)%nat -> (t < T)%nat ->
      at2 returns b t =
      at2 rewards b t + at2 discounts b t * at2 returns b (S t).
Proof.
  intros HB HT Hr Hd. unfold compute_returns.
  rewrite (check_shape_same B T) by assumption. rewrite bind_Ok.
  rewrite (transpose_tabulate B T rewards Hr HB).
  rewrite (transpose_tabulate B T discounts Hd HB).
  destruct (first_slice_tabulate T B (fun i b => at2 rewards b i) HT)
    as [r0 [Hr0 Lr0]].
  rewrite Hr0, bind_Ok.
  destruct (tf_scan2_entrywise B discounted_accumulate_rewards
              (fun acc x y => acc * y + x)
              (discounted_accumulate_rewards_entrywise B) T
              (tabulate T B (fun i b => at2 rewards b i))
              (tabulate T B (fun i b => at2 discounts b i))
              (zeros_like r0))
    as [outs [Hscan [Houts Hrec]]].
  - unfold zeros_like. now rewrite length_map.
  - apply nth_zeros_like.
  - apply tabulate_shape.
  - apply tabulate_shape.
  - rewrite Hscan, bind_Ok.
    rewrite (transpose_tabulate T B outs Houts HT).
    eexists. split; [reflexivity|]. split; [apply tabulate_shape|].
    intros b t Hb Ht.
    rewrite (at2_transposed_next B T outs b t Houts Hb Ht).
    rewrite at2_tabulate by assumption.
    rewrite Hrec by assumption.
    rewrite !at2_tabulate by assumption. ring.
Qed.

(** C1. For rewards and discounts of one shape [(B, T)], with at least one
    trajectory and one timestep, [compute_returns] returns a tensor [R] of
    that shape with [R[b, t] = rewards[b, t] + discounts[b, t] * R[b, t+1]]
    at every timestep, the entry one past the last index being the seed
    [0]; and rewards [[1, 1, 1]] with discounts [[1, 1, 0]] give
    [[3, 2, 1]]. *)
Theorem compute_returns_reverse_scan self B T rewards discounts eps :
  (0 < B)%nat -> (0 < T)%nat ->
  has_shape B T rewards -> has_shape B T discounts ->
  (exists returns,
     compute_returns self rewards discounts eps = Ok returns /\
     has_shape B T returns /\
     (forall b t, (b < B)%nat -> (t < T)%nat ->
        at2 returns b t =
        at2 rewards b t + at2 discounts b t * at2 returns b (S t)) /\
     (forall b, at2 returns b T = 0)) /\
  compute_returns self [[1; 1; 1]] [[1; 1; 0]] eps = Ok [[3; 2; 1]].
Proof.
  intros HB HT Hr Hd. split.
  - destruct (compute_returns_entries self B T rewards discounts eps
                HB HT Hr Hd) as [returns [Hret [Hshape Hrec]]].
    exists returns. repeat split; try assumption.
    + now destruct Hshape.
    + now destruct Hshape.
    + intros b. apply (at2_outside_row B T); [assumption | lia].
  - unfold compute_returns, check_shape, assert_is_compatible_with,
      assert_equal_shape, transpose, tf_scan2, discounted_accumulate_rewards,
      broadcast1. simpl.
    do 2 f_equal. repeat (f_equal; try ring).
Qed.

(** C9. When the shapes of rewards and discounts differ, the shape check
    that guards [compute_returns] raises, and the call ends with that
    exception: the transposes and the scan, which come after the check, are
    not run and no tensor is returned. *)
Theorem compute_returns_shape_mismatch self rewards discounts eps :
  shape rewards <> shape discounts ->
  check_shape rewards discounts = Raise (ValueError "Shapes are incompatible")
  /\ compute_returns self rewards discounts eps
     = Raise (ValueError "Shapes are incompatible")
  /\ forall returns, compute_returns self rewards discounts eps <> Ok returns.
Proof.
  intros Hneq.
  assert (Hcheck : check_shape rewards discounts
                   = Raise (ValueError "Shapes are incompatible")).
  { unfold check_shape, assert_is_compatible_with.
    replace (shape_eqb (shape rewards) (shape discounts)) with false;
      [reflexivity|].
    symmetry. apply not_true_is_false. intros Heq. apply Hneq.
    unfold shape_eqb in Heq. apply andb_prop in Heq as [H1 H2].
    apply Nat.eqb_eq in H1, H2.
    destruct (shape rewards), (shape discounts). simpl in *. congruence. }
  assert (Hcall : compute_returns self rewards discounts eps
                  = Raise (ValueError "Shapes are incompatible")).
  { unfold compute_returns. now rewrite Hcheck. }
  repeat split; try assumption.
  intros returns. rewrite Hcall. discriminate.
Qed.

(** C10. The result of [compute_returns] is the same for any two values of
    [norm_variance_epsilon]: the argument is never read and no normalization
    is applied to the returns. *)
Theorem compute_returns_ignores_norm_variance_epsilon
    self rewards discounts e1 e2 :
  compute_returns self rewards discounts e1
  = compute_returns self rewards discounts e2.
Proof. reflexivity. Qed.

(** *** Advantages *)

Lemma drop_last_step_shape B T t :
  has_shape B (S T) t -> has_shape B T (drop_last_step t).
Proof.
  intros [HB Hrows]. split.
  - unfold drop_last_step. now rewrite length_map.
  - unfold drop_last_step. apply Forall_forall. intros row Hin.
    apply in_map_iff in Hin as [row' [<- Hin']].
    rewrite Forall_forall in Hrows. specialize (Hrows _ Hin').
    rewrite removelast_firstn_len, length_firstn. lia.
Qed.

Lemma drop_first_step_shape B T t :
  has_shape B (S T) t -> has_shape B T (drop_first_step t).
Proof.
  intros [HB Hrows]. split.
  - unfold drop_first_step. now rewrite length_map.
  - unfold drop_first_step. apply Forall_forall. intros row Hin.
    apply in_map_iff in Hin as [row' [<- Hin']].
    rewrite Forall_forall in Hrows. specialize (Hrows _ Hin').
    rewrite length_tl. lia.
Qed.

Lemma nth_map_row {A : Type} (f : list A -> list A) (t : list (list A)) b :
  f [] = [] -> nth b (map f t) [] = f (nth b t []).
Proof. intros Hf. rewrite <- Hf at 1. apply map_nth. Qed.

(** [value_preds[:, :-1]] keeps the entries at their index. *)
Lemma at2_drop_last_step B T t b i :
  has_shape B (S T) t -> (b < B)%nat -> (i < T)%nat ->
  at2 (drop_last_step t) b i = at2 t b i.
Proof.
  intros Ht Hb Hi. unfold at2, drop_last_step.
  rewrite (nth_map_row (@removelast R)) by reflexivity.
  rewrite removelast_firstn_len, nth_firstn.
  rewrite (has_shape_row B (S T) t b Ht Hb). simpl.
  now rewrite (proj2 (Nat.ltb_lt i T) Hi).
Qed.

(** [value_preds[:, 1:]] moves every entry one step earlier. *)
Lemma at2_drop_first_step t b i :
  at2 (drop_first_step t) b i = at2 t b (S i).
Proof.
  unfold at2, drop_first_step.
  rewrite (nth_map_row (@tl R)) by reflexivity.
  destruct (nth b t []); [now destruct i | reflexivity].
Qed.

Lemma nth_map_in (f : R -> R) l b :
  (b < length l)%nat -> nth b (map f l) 0 = f (nth b l 0).
Proof.
  intros Hb. rewrite (nth_indep _ 0 (f 0)) by now rewrite length_map.
  apply map_nth.
Qed.

Lemma gae_step_entrywise self B acc x y :
  length acc = B -> length x = B -> length y = B ->
  exists v, gae_step self acc (x, y) = Ok v /\ length v = B /\
    forall b, (b < B)%nat ->
      nth b v 0 = nth b x 0 + nth b y 0 * nth b acc 0 * _lambda self.
Proof.
  intros Hacc Hx Hy. unfold gae_step.
  rewrite broadcast1_same_length by lia. rewrite bind_Ok.
  assert (Hp : length (zip_with Rmult y acc) = B)
    by (rewrite zip_with_length; lia).
  rewrite broadcast1_same_length by (rewrite length_map; lia).
  eexists. split; [reflexivity|]. split.
  - rewrite zip_with_length; [lia | rewrite length_map; lia].
  - intros b Hb. rewrite nth_zip_with by (rewrite ?length_map; lia).
    rewrite nth_map_in by lia.
    now rewrite nth_zip_with by lia.
Qed.

(** The advantages of well-shaped inputs, on both paths. *)
Lemma compute_advantages_entries self B T rewards returns discounts
    value_preds :
  (0 < B)%nat -> (0 < T)%nat ->
  has_shape B T rewards -> has_shape B T returns ->
  has_shape B T discounts -> has_shape B (S T) value_preds ->
  exists advantages,
    compute_advantages self rewards returns discounts value_preds
    = Ok advantages /\
    has_shape B T advantages /\
    forall b t, (b < B)%nat -> (t < T)%nat ->
      at2 advantages b t =
      if _use_gae self
      then (at2 rewards b t + at2 discounts b t * at2 value_preds b (S t)
            - at2 value_preds b t)
           + at2 discounts b t * _lambda self * at2 advantages b (S t)
      else at2 returns b t - at2 value_preds b t.
Proof.
  intros HB HT Hr Hret Hd Hv. unfold compute_advantages.
  pose proof (drop_last_step_shape B T value_preds Hv) as Hlast.
  pose proof (drop_first_step_shape B T value_preds Hv) as Hfirst.
  destruct (_use_gae self); simpl; unfold tf_mul, tf_add, tf_sub.
  - rewrite (broadcast2_same_shape Rmult B T) by assumption.
    rewrite bind_Ok.
    set (dv := tabulate B T _).
    rewrite (broadcast2_same_shape Rplus B T rewards dv)
      by (try assumption; apply tabulate_shape).
    rewrite bind_Ok.
    set (s := tabulate B T _).
    rewrite (broadcast2_same_shape Rminus B T s)
      by (try assumption; apply tabulate_shape).
    rewrite bind_Ok.
    set (deltas := tabulate B T _).
    assert (Hdeltas : has_shape B T deltas) by apply tabulate_shape.
    assert (Edeltas : forall b t, (b < B)%nat -> (t < T)%nat ->
              at2 deltas b t =
              at2 rewards b t + at2 discounts b t * at2 value_preds b (S t)
              - at2 value_preds b t).
    { intros b t Hb Ht. unfold deltas, s, dv.
      rewrite !at2_tabulate by assumption.
      rewrite at2_drop_first_step.
      now rewrite (at2_drop_last_step B T). }
    clearbody deltas. clear s dv.
    rewrite (transpose_tabulate B T deltas Hdeltas HB).
    rewrite (transpose_tabulate B T discounts Hd HB).
    destruct (first_slice_tabulate T B (fun i b => at2 deltas b i) HT)
      as [d0 [Hd0 Ld0]].
    rewrite Hd0, bind_Ok.
    destruct (tf_scan2_entrywise B (gae_step self)
                (fun acc x y => x + y * acc * _lambda self)
                (gae_step_entrywise self B) T
                (tabulate T B (fun i b => at2 deltas b i))
                (tabulate T B (fun i b => at2 discounts b i))
                (zeros_like d0))
      as [outs [Hscan [Houts Hrec]]].
    + unfold zeros_like. now rewrite length_map.
    + apply nth_zeros_like.
    + apply tabulate_shape.
    + apply tabulate_shape.
    + rewrite Hscan, bind_Ok.
      rewrite (transpose_tabulate T B outs Houts HT).
      eexists. split; [reflexivity|]. split; [apply tabulate_shape|].
      intros b t Hb Ht.
      rewrite (at2_transposed_next B T outs b t Houts Hb Ht).
      rewrite at2_tabulate by assumption.
      rewrite Hrec by assumption.
      rewrite !at2_tabulate by assumption.
      rewrite Edeltas by assumption. ring.
  - rewrite (broadcast2_same_shape Rminus B T) by assumption.
    eexists. split; [reflexivity|]. split; [apply tabulate_shape|].
    intros b t Hb Ht. rewrite at2_tabulate by assumption.
    now rewrite (at2_drop_last_step B T).
Qed.

(** C2. [value_preds] has one more timestep than [rewards]; it is split
    into [value[t] = value_preds[t]] and [value_next[t] = value_preds[t+1]].
    Without GAE the advantage is [returns[t] - value[t]]; with GAE it is
    the reverse scan [A[t] = delta[t] + discounts[t] * lambda * A[t+1]] of
    [delta[t] = rewards[t] + discounts[t] * value_next[t] - value[t]], with
    the seed [A[T] = 0]. *)
Theorem compute_advantages_paths self B T rewards returns discounts
    value_preds :
  (0 < B)%nat -> (0 < T)%nat ->
  has_shape B T rewards -> has_shape B T returns ->
  has_shape B T discounts -> has_shape B (S T) value_preds ->
  let value := drop_last_step value_preds in
  let value_next := drop_first_step value_preds in
  (forall b t, (b < B)%nat -> (t < T)%nat ->
     at2 value b t = at2 value_preds b t /\
     at2 value_next b t = at2 value_preds b (S t)) /\
  exists advantages,
    compute_advantages self rewards returns discounts value_preds
    = Ok advantages /\
    has_shape B T advantages /\
    (forall b, at2 advantages b T = 0) /\
    (_use_gae self = false ->
     forall b t, (b < B)%nat -> (t < T)%nat ->
       at2 advantages b t = at2 returns b t - at2 value b t) /\
    (_use_gae self = true ->
     forall b t, (b < B)%nat -> (t < T)%nat ->
       let delta :=
         at2 rewards b t + at2 discounts b t * at2 value_next b t
         - at2 value b t in
       at2 advantages b t =
       delta + at2 discounts b t * _lambda self * at2 advantages b (S t)).
Proof.
  intros HB HT Hr Hret Hd Hv value value_next.
  assert (Hsplit : forall b t, (b < B)%nat -> (t < T)%nat ->
            at2 value b t = at2 value_preds b t /\
            at2 value_next b t = at2 value_preds b (S t)).
  { intros b t Hb Ht. unfold value, value_next. split.
    - now apply (at2_drop_last_step B T).
    - apply at2_drop_first_step. }
  split; [exact Hsplit|].
  destruct (compute_advantages_entries self B T rewards returns discounts
              value_preds HB HT Hr Hret Hd Hv)
    as [advantages [Hadv [Hshape Hentries]]].
  exists advantages. split; [exact Hadv|]. split; [exact Hshape|].
  split; [|split].
  - intros b. apply (at2_outside_row B T); [assumption | lia].
  - intros Hgae b t Hb Ht. rewrite Hentries by assumption.
    rewrite Hgae. now rewrite (proj1 (Hsplit b t Hb Ht)).
  - intros Hgae b t Hb Ht delta. rewrite Hentries by assumption.
    rewrite Hgae. unfold delta.
    destruct (Hsplit b t Hb Ht) as [-> ->]. reflexivity.
Qed.

(** *** GAE with [lambda = 1] against the Monte Carlo advantage *)

(** With [lambda = 1] the GAE recursion telescopes: what is left beside the
    Monte Carlo advantage is the bootstrap value, discounted through the
    remaining [n] steps. *)
Lemma gae_lambda_one_telescopes B T rewards discounts value_preds
    returns gae :
  has_shape B T returns -> has_shape B T gae ->
  (forall b t, (b < B)%nat -> (t < T)%nat ->
     at2 returns b t =
     at2 rewards b t + at2 discounts b t * at2 returns b (S t)) ->
  (forall b t, (b < B)%nat -> (t < T)%nat ->
     at2 gae b t =
     (at2 rewards b t + at2 discounts b t * at2 value_preds b (S t)
      - at2 value_preds b t)
     + at2 discounts b t * 1 * at2 gae b (S t)) ->
  forall n t b, (t + n = T)%nat -> (b < B)%nat ->
    at2 gae b t =
    at2 returns b t - at2 value_preds b t
    + discount_product discounts b t n * at2 value_preds b T.
Proof.
  intros Hret Hgae Rrec Grec n.
  induction n as [|n IH]; intros t b Hn Hb.
  - assert (t = T) by lia. subst t. simpl.
    rewrite (at2_outside_row B T gae) by (assumption || lia).
    rewrite (at2_outside_row B T returns) by (assumption || lia).
    ring.
  - assert (Ht : (t < T)%nat) by lia.
    rewrite Grec, Rrec by assumption.
    rewrite (IH (S t) b) by (lia || assumption).
    simpl. ring.
Qed.

(** C7, as the code has it. With [lambda = 1] the GAE advantage is the
    Monte Carlo advantage [returns - value_preds[:, :-1]] plus the bootstrap
    value [value_preds[:, -1]] discounted through the remaining steps, so
    the two paths coincide when the bootstrap value is zero, whatever the
    discounts are. *)
Theorem gae_lambda_one_is_monte_carlo_plus_bootstrap
    self_gae self_mc B T rewards discounts value_preds eps :
  _use_gae self_gae = true -> _lambda self_gae = 1 ->
  _use_gae self_mc = false ->
  (0 < B)%nat -> (0 < T)%nat ->
  has_shape B T rewards -> has_shape B T discounts ->
  has_shape B (S T) value_preds ->
  exists returns gae mc,
    compute_returns self_gae rewards discounts eps = Ok returns /\
    compute_advantages self_gae rewards returns discounts value_preds
    = Ok gae /\
    compute_advantages self_mc rewards returns discounts value_preds
    = Ok mc /\
    (forall b t, (b < B)%nat -> (t < T)%nat ->
       at2 gae b t =
       at2 mc b t
       + discount_product discounts b t (T - t) * at2 value_preds b T) /\
    ((forall b, (b < B)%nat -> at2 value_preds b T = 0) -> gae = mc).
Proof.
  intros Hgae Hlam Hmc HB HT Hr Hd Hv.
  destruct (compute_returns_entries self_gae B T rewards discounts eps
              HB HT Hr Hd) as [returns [Hret [Sret Rrec]]].
  destruct (compute_advantages_entries self_gae B T rewards returns discounts
              value_preds HB HT Hr Sret Hd Hv) as [gae [Hg [Sg Eg]]].
  destruct (compute_advantages_entries self_mc B T rewards returns discounts
              value_preds HB HT Hr Sret Hd Hv) as [mc [Hm [Sm Em]]].
  rewrite Hgae, Hlam in Eg. rewrite Hmc in Em.
  assert (Hdiff : forall b t, (b < B)%nat -> (t < T)%nat ->
            at2 gae b t =
            at2 mc b t
            + discount_product discounts b t (T - t) * at2 value_preds b T).
  { intros b t Hb Ht. rewrite Em by assumption.
    apply (gae_lambda_one_telescopes B T rewards discounts value_preds
             returns gae Sret Sg Rrec Eg); [lia | assumption]. }
  exists returns, gae, mc. repeat split; try assumption.
  intros Hboot. apply (tensor_ext B T); try assumption.
  intros b t Hb Ht. rewrite Hdiff, Hboot by assumption. ring.
Qed.

(** *** TD(lambda) returns *)

Lemma broadcast2_extra_step op B T a b :
  (0 < B)%nat -> (2 <= T)%nat ->
  has_shape B T a -> has_shape B (S T) b ->
  broadcast2 op a b = Raise (InvalidArgumentError "Incompatible shapes").
Proof.
  intros HB HT Ha Hb.
  pose proof (has_shape_row B T a 0 Ha HB) as Ra.
  pose proof (has_shape_row B (S T) b 0 Hb HB) as Rb.
  pose proof (has_shape_length _ _ _ Ha) as La.
  pose proof (has_shape_length _ _ _ Hb) as Lb.
  unfold broadcast2.
  replace (length a =? length b)%nat with true
    by (symmetry; apply Nat.eqb_eq; lia).
  destruct a as [|ra a]; [simpl in La; lia|].
  destruct b as [|rb b]; [simpl in Lb; lia|].
  simpl in Ra, Rb. simpl. unfold broadcast1.
  replace (length ra =? length rb)%nat with false
    by (symmetry; apply Nat.eqb_neq; lia).
  destruct ra as [|x [|x' ra]]; simpl in Ra; try lia.
  destruct rb as [|y [|y' rb]]; simpl in Rb; try lia.
  reflexivity.
Qed.

(** C4. What [compute_return_and_advantage] does with TD(lambda) returns
    and GAE both requested: the advantages have [T] timesteps, the value
    predictions it adds to them are not cut to [value_preds[:, :-1]] and
    still have [T + 1], and from two timesteps on the addition is
    refused. *)
Theorem td_lambda_return_adds_full_value_preds
    self time_steps actions next_time_steps value_preds B T :
  _use_td_lambda_return self = true -> _use_gae self = true ->
  (0 < B)%nat -> (2 <= T)%nat ->
  has_shape B T (estimator_rewards self next_time_steps) ->
  has_shape B T (discount next_time_steps) ->
  has_shape B T (get_episode_mask next_time_steps) ->
  has_shape B (S T) value_preds ->
  compute_return_and_advantage self time_steps actions next_time_steps
    value_preds
  = Raise (InvalidArgumentError "Incompatible shapes").
Proof.
  intros Htd Hgae HB HT Hr Hd Hm Hv.
  unfold compute_return_and_advantage.
  fold (estimator_rewards self next_time_steps).
  set (rewards := estimator_rewards self next_time_steps) in *.
  assert (Hscaled : has_shape B T
            (scale (_discount_factor self) (discount next_time_steps))).
  { unfold scale. rewrite (map_map_tabulate B T) by assumption.
    apply tabulate_shape. }
  unfold tf_mul at 1.
  rewrite (broadcast2_same_shape Rmult B T) by assumption.
  rewrite bind_Ok.
  set (discounts := tabulate B T _).
  assert (Hdisc : has_shape B T discounts) by apply tabulate_shape.
  destruct (compute_returns_entries self B T rewards discounts
              default_norm_variance_epsilon)
    as [returns [Hret [Sret _]]]; try assumption; try lia.
  rewrite Hret, bind_Ok.
  destruct (compute_advantages_entries self B T rewards returns discounts
              value_preds)
    as [advantages [Hadv [Sadv _]]]; try assumption; try lia.
  rewrite Hadv, bind_Ok. rewrite Htd, Hgae. simpl.
  unfold tf_add.
  now rewrite (broadcast2_extra_step Rplus B T advantages value_preds).
Qed.

(** With TD(lambda) returns requested and GAE off, the Monte Carlo returns
    are returned unchanged and one warning is logged. *)
Lemma td_lambda_return_without_gae
    self time_steps actions next_time_steps value_preds B T :
  _use_td_lambda_return self = true -> _use_gae self = false ->
  (0 < B)%nat -> (0 < T)%nat ->
  has_shape B T (estimator_rewards self next_time_steps) ->
  has_shape B T (discount next_time_steps) ->
  has_shape B T (get_episode_mask next_time_steps) ->
  has_shape B (S T) value_preds ->
  exists discounts returns normalized_advantages,
    tf_mul (scale (_discount_factor self) (discount next_time_steps))
      (get_episode_mask next_time_steps) = Ok discounts /\
    compute_returns self (estimator_rewards self next_time_steps) discounts
      default_norm_variance_epsilon = Ok returns /\
    compute_return_and_advantage self time_steps actions next_time_steps
      value_preds
    = Ok (returns, normalized_advantages,
          ["use_td_lambda_return was True, but use_gae was False. Using Monte Carlo return."%string]).
Proof.
  intros Htd Hgae HB HT Hr Hd Hm Hv.
  unfold compute_return_and_advantage.
  fold (estimator_rewards self next_time_steps).
  set (rewards := estimator_rewards self next_time_steps) in *.
  assert (Hscaled : has_shape B T
            (scale (_discount_factor self) (discount next_time_steps))).
  { unfold scale. rewrite (map_map_tabulate B T) by assumption.
    apply tabulate_shape. }
  unfold tf_mul.
  rewrite (broadcast2_same_shape Rmult B T) by assumption.
  rewrite bind_Ok.
  set (discounts := tabulate B T _).
  assert (Hdisc : has_shape B T discounts) by apply tabulate_shape.
  destruct (compute_returns_entries self B T rewards discounts
              default_norm_variance_epsilon)
    as [returns [Hret [Sret _]]]; try assumption.
  rewrite Hret, bind_Ok.
  destruct (compute_advantages_entries self B T rewards returns discounts
              value_preds)
    as [advantages [Hadv [Sadv _]]]; try assumption.
  rewrite Hadv, bind_Ok. rewrite Htd, Hgae. simpl.
  exists discounts, returns. eexists. repeat split. exact Hret.
Qed.

(** *** The adaptive KL coefficient *)

Lemma Rltb_true x y : x < y -> Rltb x y = true.
Proof. intros Hlt. unfold Rltb. now destruct (Rlt_dec x y). Qed.

Lemma Rltb_false x y : ~ x < y -> Rltb x y = false.
Proof. intros Hge. unfold Rltb. now destruct (Rlt_dec x y). Qed.

Lemma Rleb_true x y : x <= y -> Rleb x y = true.
Proof. intros Hle. unfold Rleb. now destruct (Rle_dec x y). Qed.

Lemma Rleb_false x y : ~ x <= y -> Rleb x y = false.
Proof. intros Hgt. unfold Rleb. now destruct (Rle_dec x y). Qed.

Lemma Rmax_floor beta : 10e-16 <= beta -> Rmax beta 10e-16 = beta.
Proof. intros Hb. apply Rmax_left. exact Hb. Qed.

Lemma reduce_mean_singleton x : reduce_mean [[x]] = x.
Proof. unfold reduce_mean, reduce_sum. simpl. field. Qed.

(** The update of an enabled controller, by the position of the mean KL
    against the two bounds. *)
Lemma update_adaptive_kl_beta_cases self beta kl_divergence :
  _adaptive_kl_beta self = Some beta ->
  let mean_kl := reduce_mean kl_divergence in
  let lower := _adaptive_kl_target self * (1.0 - _adaptive_kl_tolerance self) in
  let upper := _adaptive_kl_target self * (1.0 + _adaptive_kl_tolerance self) in
  (mean_kl < lower -> ~ upper < mean_kl ->
   update_adaptive_kl_beta self kl_divergence
   = Ok (set_adaptive_kl_beta self (Some (Rmax (beta / 1.5) 10e-16)))) /\
  (upper < mean_kl -> ~ mean_kl < lower ->
   update_adaptive_kl_beta self kl_divergence
   = Ok (set_adaptive_kl_beta self (Some (Rmax (beta * 1.5) 10e-16)))) /\
  (~ mean_kl < lower -> ~ upper < mean_kl ->
   update_adaptive_kl_beta self kl_divergence
   = Ok (set_adaptive_kl_beta self (Some (Rmax beta 10e-16)))) /\
  (mean_kl < lower -> upper < mean_kl ->
   exists e, update_adaptive_kl_beta self kl_divergence = Raise e).
Proof.
  intros Hbeta mean_kl lower upper.
  unfold update_adaptive_kl_beta, new_adaptive_kl_beta. rewrite Hbeta.
  fold mean_kl. fold lower. fold upper.
  repeat split.
  - intros Hlo Hup. rewrite (Rltb_true _ _ Hlo), (Rltb_false _ _ Hup). simpl.
    now replace (beta * (1.0 / 1.5)) with (beta / 1.5) by lra.
  - intros Hup Hlo. rewrite (Rltb_false _ _ Hlo), (Rltb_true _ _ Hup). simpl.
    reflexivity.
  - intros Hlo Hup. rewrite (Rltb_false _ _ Hlo), (Rltb_false _ _ Hup). simpl.
    now replace (beta * 1.0) with beta by lra.
  - intros Hlo Hup. rewrite (Rltb_true _ _ Hlo), (Rltb_true _ _ Hup). simpl.
    eexists. reflexivity.
Qed.

(** C5, as the code has it. An enabled controller replaces beta by
    [max(beta / 1.5, floor)] when the mean KL is below
    [target * (1 - tolerance)], by [max(beta * 1.5, floor)] when it is above
    [target * (1 + tolerance)], and by [max(beta, floor)] otherwise, which
    leaves a beta that is at least the floor [1e-15] unchanged. The two
    bound checks cannot both hold when [target * tolerance >= 0]; when both
    hold the exclusive case raises. With target 0.01, tolerance 0.3 and
    beta 1.0, a mean KL of 0.02 gives 1.5, 0.003 gives 1/1.5 (about 0.667),
    and 0.01 leaves 1.0. *)
Theorem update_adaptive_kl_beta_three_branches self beta kl_divergence :
  _adaptive_kl_beta self = Some beta ->
  let mean_kl := reduce_mean kl_divergence in
  let lower := _adaptive_kl_target self * (1.0 - _adaptive_kl_tolerance self) in
  let upper := _adaptive_kl_target self * (1.0 + _adaptive_kl_tolerance self) in
  (mean_kl < lower -> ~ upper < mean_kl ->
   update_adaptive_kl_beta self kl_divergence
   = Ok (set_adaptive_kl_beta self (Some (Rmax (beta / 1.5) 10e-16)))) /\
  (upper < mean_kl -> ~ mean_kl < lower ->
   update_adaptive_kl_beta self kl_divergence
   = Ok (set_adaptive_kl_beta self (Some (Rmax (beta * 1.5) 10e-16)))) /\
  (~ mean_kl < lower -> ~ upper < mean_kl ->
   update_adaptive_kl_beta self kl_divergence
   = Ok (set_adaptive_kl_beta self (Some (Rmax beta 10e-16))) /\
   (10e-16 <= beta ->
    update_adaptive_kl_beta self kl_divergence
    = Ok (set_adaptive_kl_beta self (Some beta)))) /\
  (0 <= _adaptive_kl_target self * _adaptive_kl_tolerance self ->
   ~ (mean_kl < lower /\ upper < mean_kl)) /\
  (mean_kl < lower -> upper < mean_kl ->
   exists e, update_adaptive_kl_beta self kl_divergence = Raise e) /\
  (_adaptive_kl_target self = 0.01 -> _adaptive_kl_tolerance self = 0.3 ->
   beta = 1.0 ->
   update_adaptive_kl_beta self [[0.02]]
   = Ok (set_adaptive_kl_beta self (Some 1.5)) /\
   update_adaptive_kl_beta self [[0.003]]
   = Ok (set_adaptive_kl_beta self (Some (1 / 1.5))) /\
   Rabs (1 / 1.5 - 0.667) < 0.001 /\
   update_adaptive_kl_beta self [[0.01]]
   = Ok (set_adaptive_kl_beta self (Some 1.0))).
Proof.
  intros Hbeta mean_kl lower upper.
  destruct (update_adaptive_kl_beta_cases self beta kl_divergence Hbeta)
    as [Hbelow [Habove [Hband Hboth]]].
  split; [exact Hbelow|]. split; [exact Habove|]. split; [|split; [|split]].
  - intros Hlo Hup. split; [now apply Hband|].
    intros Hfloor. rewrite (Hband Hlo Hup). now rewrite Rmax_floor.
  - intros Hsign [Hlo Hup]. unfold lower, upper in *. lra.
  - exact Hboth.
  - intros Htarget Htol ->.
    destruct (update_adaptive_kl_beta_cases self 1.0 [[0.02]] Hbeta)
      as [_ [Habove' _]].
    destruct (update_adaptive_kl_beta_cases self 1.0 [[0.003]] Hbeta)
      as [Hbelow' _].
    destruct (update_adaptive_kl_beta_cases self 1.0 [[0.01]] Hbeta)
      as [_ [_ [Hband' _]]].
    rewrite reduce_mean_singleton, Htarget, Htol in Habove', Hbelow', Hband'.
    repeat split.
    + rewrite Habove' by lra. do 3 f_equal.
      unfold Rmax. destruct (Rle_dec _ _); lra.
    + rewrite Hbelow' by lra. do 3 f_equal.
      unfold Rmax. destruct (Rle_dec _ _); lra.
    + unfold Rabs. destruct (Rcase_abs _); lra.
    + rewrite Hband' by lra. do 3 f_equal.
      unfold Rmax. destruct (Rle_dec _ _); lra.
Qed.

(** A disabled controller (no beta variable) is left as it is. *)
Lemma update_adaptive_kl_beta_disabled self kl_divergence :
  _adaptive_kl_beta self = None ->
  update_adaptive_kl_beta self kl_divergence = Ok self.
Proof. intros Hnone. unfold update_adaptive_kl_beta. now rewrite Hnone. Qed.

(** *** Sums, means and masks *)

Lemma fold_right_Rplus_opp l :
  fold_right Rplus 0 (map Ropp l) = - fold_right Rplus 0 l.
Proof. induction l as [|x l IH]; simpl; [ring | rewrite IH; ring]. Qed.

Lemma reduce_mean_tf_neg t : reduce_mean (tf_neg t) = - reduce_mean t.
Proof.
  unfold reduce_mean, reduce_sum, tf_neg.
  rewrite <- concat_map, fold_right_Rplus_opp, length_map.
  unfold Rdiv. ring.
Qed.

Lemma fold_right_Rplus_zero l :
  Forall (fun x => x = 0) l -> fold_right Rplus 0 l = 0.
Proof.
  induction 1 as [|x l Hx _ IH]; simpl; [reflexivity | rewrite Hx, IH; ring].
Qed.

Lemma reduce_mean_zeros B T : reduce_mean (zeros B T) = 0.
Proof.
  unfold reduce_mean, reduce_sum. rewrite fold_right_Rplus_zero.
  - unfold Rdiv. ring.
  - apply Forall_forall. intros x Hin.
    apply in_concat in Hin as [row [Hrow Hx]].
    unfold zeros, tabulate in Hrow.
    apply in_map_iff in Hrow as [b [<- _]].
    now apply in_map_iff in Hx as [t [<- _]].
Qed.

Lemma mask_of_ones B T t :
  has_shape B T t -> tf_mul t (ones B T) = Ok t.
Proof.
  intros Ht. unfold tf_mul, ones.
  rewrite (broadcast2_same_shape Rmult B T) by (auto using tabulate_shape).
  f_equal.
  transitivity (tabulate B T (at2 t)); [|symmetry; now apply tabulate_at2].
  apply tabulate_ext. intros b i Hb Hi.
  rewrite at2_tabulate by assumption. ring.
Qed.

Lemma mask_of_zeros B T t :
  has_shape B T t -> tf_mul t (zeros B T) = Ok (zeros B T).
Proof.
  intros Ht. unfold tf_mul, zeros.
  rewrite (broadcast2_same_shape Rmult B T) by (auto using tabulate_shape).
  f_equal. apply tabulate_ext. intros b i Hb Hi.
  rewrite at2_tabulate by assumption. ring.
Qed.

Lemma tf_neg_tabulate B T f :
  tf_neg (tabulate B T f) = tabulate B T (fun b t => - f b t).
Proof.
  unfold tf_neg.
  rewrite (map_map_tabulate B T) by apply tabulate_shape.
  apply tabulate_ext. intros b t Hb Ht. now rewrite at2_tabulate.
Qed.

(** *** The policy gradient loss *)

Ltac tensor_step B T :=
  first
    [ rewrite (broadcast2_same_shape _ B T)
        by (try assumption; apply tabulate_shape)
    | rewrite (map_map_tabulate B T)
        by (try assumption; apply tabulate_shape) ];
  rewrite ?bind_Ok.

(** The per-timestep loss, entry by entry: minus the surrogate objective of
    the importance ratio. *)
Lemma policy_gradient_per_timestep_entries self actions
    sample_action_log_probs advantages current_policy_distribution B T :
  has_shape B T (log_probability current_policy_distribution actions) ->
  has_shape B T sample_action_log_probs ->
  has_shape B T advantages ->
  policy_gradient_per_timestep self actions sample_action_log_probs
    advantages current_policy_distribution
  = Ok (tabulate B T (fun b t =>
          - surrogate_objective self
              (importance_ratio_at self
                 (at2 (log_probability current_policy_distribution actions)
                    b t)
                 (at2 sample_action_log_probs b t))
              (at2 advantages b t))).
Proof.
  intros Hnew Hold Hadv.
  unfold policy_gradient_per_timestep, surrogate_objective,
    importance_ratio_at.
  set (new := log_probability current_policy_distribution actions) in *.
  unfold tf_sub, tf_mul, tf_minimum, tf_exp, clip_by_value.
  destruct (Rltb 0 (_log_prob_clipping self));
    destruct (Rltb 0 (_importance_ratio_clipping self));
    repeat tensor_step B T; rewrite tf_neg_tabulate; f_equal;
    apply tabulate_ext; intros b t Hb Ht;
    rewrite !at2_tabulate by assumption; reflexivity.
Qed.

Lemma policy_gradient_loss_entries self time_steps actions
    sample_action_log_probs advantages current_policy_distribution
    valid_mask B T :
  has_shape B T (log_probability current_policy_distribution actions) ->
  has_shape B T sample_action_log_probs ->
  has_shape B T advantages ->
  has_shape B T valid_mask ->
  policy_gradient_loss self time_steps actions sample_action_log_probs
    advantages current_policy_distribution valid_mask
  = Ok (- reduce_mean (tabulate B T (fun b t =>
          surrogate_objective self
            (importance_ratio_at self
               (at2 (log_probability current_policy_distribution actions) b t)
               (at2 sample_action_log_probs b t))
            (at2 advantages b t)
          * at2 valid_mask b t))).
Proof.
  intros Hnew Hold Hadv Hmask. unfold policy_gradient_loss.
  rewrite (policy_gradient_per_timestep_entries self actions
             sample_action_log_probs advantages current_policy_distribution
             B T Hnew Hold Hadv).
  rewrite bind_Ok. unfold tf_mul.
  rewrite (broadcast2_same_shape Rmult B T)
    by (try assumption; apply tabulate_shape).
  rewrite bind_Ok. f_equal.
  rewrite <- reduce_mean_tf_neg, tf_neg_tabulate. f_equal.
  apply tabulate_ext. intros b t Hb Ht.
  rewrite at2_tabulate by assumption. ring.
Qed.

(** C3, as the code has it. The log-probability clipping bounds the new
    log-probability alone, before the old one is subtracted:
    [ratio = exp(clip(log pi_new(a), +-logClip) - log pi_old(a))], without
    clipping when the clipping value is 0. Then
    [ratio_clipped = clip(ratio, 1 - epsilon, 1 + epsilon)], the objective is
    [min(ratio * A, ratio_clipped * A)], or [ratio * A] when epsilon is 0,
    and the loss is [- mean(objective * mask)]. *)
Theorem policy_gradient_loss_clipped_surrogate self time_steps actions
    sample_action_log_probs advantages current_policy_distribution
    valid_mask B T :
  (0 < B)%nat -> (0 < T)%nat ->
  has_shape B T (log_probability current_policy_distribution actions) ->
  has_shape B T sample_action_log_probs ->
  has_shape B T advantages ->
  has_shape B T valid_mask ->
  policy_gradient_loss self time_steps actions sample_action_log_probs
    advantages current_policy_distribution valid_mask
  = Ok (- reduce_mean (tabulate B T (fun b t =>
          surrogate_objective self
            (importance_ratio_at self
               (at2 (log_probability current_policy_distribution actions) b t)
               (at2 sample_action_log_probs b t))
            (at2 advantages b t)
          * at2 valid_mask b t)))
  /\ (forall new old,
        (0 < _log_prob_clipping self ->
         importance_ratio_at self new old
         = exp (clip new (- _log_prob_clipping self) (_log_prob_clipping self)
                - old)) /\
        (_log_prob_clipping self = 0 ->
         importance_ratio_at self new old = exp (new - old)))
  /\ (forall ratio A,
        (0 < _importance_ratio_clipping self ->
         surrogate_objective self ratio A
         = Rmin (ratio * A)
             (clip ratio (1 - _importance_ratio_clipping self)
                (1 + _importance_ratio_clipping self) * A)) /\
        (_importance_ratio_clipping self = 0 ->
         surrogate_objective self ratio A = ratio * A)).
Proof.
  intros _ _ Hnew Hold Hadv Hmask. split; [|split].
  - now apply policy_gradient_loss_entries.
  - intros new old. unfold importance_ratio_at. split.
    + intros Hpos. now rewrite (Rltb_true _ _ Hpos).
    + intros Hzero. rewrite Rltb_false; [reflexivity | lra].
  - intros ratio A. unfold surrogate_objective. split.
    + intros Hpos. now rewrite (Rltb_true _ _ Hpos).
    + intros Hzero. rewrite Rltb_false; [reflexivity | lra].
Qed.

(** *** Masks of ones and of zeros *)

Lemma kl_cutoff_loss_zeros self B T :
  0 <= _adaptive_kl_target self -> kl_cutoff_loss self (zeros B T) = 0.
Proof.
  intros Htarget. unfold kl_cutoff_loss. rewrite reduce_mean_zeros.
  unfold Rleb. destruct (Rle_dec (_kl_cutoff_factor self) 0) as [Hle|Hgt];
    [reflexivity|].
  rewrite Rmax_right; [ring|].
  assert (0 <= _kl_cutoff_factor self * _adaptive_kl_target self)
    by (apply Rmult_le_pos; lra).
  lra.
Qed.

Lemma adaptive_kl_loss_zeros self B T : adaptive_kl_loss self (zeros B T) = 0.
Proof.
  unfold adaptive_kl_loss. destruct (_adaptive_kl_beta self); [|reflexivity].
  rewrite reduce_mean_zeros. ring.
Qed.

(** *** The training call *)

Lemma scale_shape B T c t : has_shape B T t -> has_shape B T (scale c t).
Proof.
  intros Ht. unfold scale. rewrite (map_map_tabulate B T) by assumption.
  apply tabulate_shape.
Qed.

Lemma _normalize_advantages_shape B T t eps :
  has_shape B T t -> has_shape B T (_normalize_advantages t eps).
Proof.
  intros Ht. unfold _normalize_advantages.
  rewrite (map_map_tabulate B T) by assumption. apply tabulate_shape.
Qed.

(** Unless TD(lambda) returns and GAE are both requested, the estimator
    succeeds on a well-shaped batch. *)
Lemma compute_return_and_advantage_runs
    self time_steps actions next_time_steps value_preds B T :
  _use_td_lambda_return self && _use_gae self = false ->
  (0 < B)%nat -> (0 < T)%nat ->
  has_shape B T (estimator_rewards self next_time_steps) ->
  has_shape B T (discount next_time_steps) ->
  has_shape B T (get_episode_mask next_time_steps) ->
  has_shape B (S T) value_preds ->
  exists returns normalized_advantages warnings,
    compute_return_and_advantage self time_steps actions next_time_steps
      value_preds = Ok (returns, normalized_advantages, warnings) /\
    has_shape B T returns /\ has_shape B T normalized_advantages.
Proof.
  intros Hflags HB HT Hr Hd Hm Hv.
  unfold compute_return_and_advantage.
  fold (estimator_rewards self next_time_steps).
  set (rewards := estimator_rewards self next_time_steps) in *.
  pose proof (scale_shape B T (_discount_factor self) _ Hd) as Hscaled.
  unfold tf_mul.
  rewrite (broadcast2_same_shape Rmult B T) by assumption.
  rewrite bind_Ok.
  set (discounts := tabulate B T _).
  assert (Hdisc : has_shape B T discounts) by apply tabulate_shape.
  destruct (compute_returns_entries self B T rewards discounts
              default_norm_variance_epsilon)
    as [returns [Hret [Sret _]]]; try assumption.
  rewrite Hret, bind_Ok.
  destruct (compute_advantages_entries self B T rewards returns discounts
              value_preds)
    as [advantages [Hadv [Sadv _]]]; try assumption.
  rewrite Hadv, bind_Ok.
  pose proof (_normalize_advantages_shape B T advantages 1e-8 Sadv) as Snorm.
  destruct (_use_td_lambda_return self); simpl in Hflags.
  - rewrite Hflags. simpl. do 3 eexists.
    split; [reflexivity|]. split; assumption.
  - do 3 eexists. split; [reflexivity|]. split; assumption.
Qed.

Lemma network_outputs_shaped_weights self time_steps actions params B T w :
  network_outputs_shaped self time_steps actions params B T ->
  network_outputs_shaped (set_trainable_weights self w) time_steps actions
    params B T.
Proof. intros Hnet w'. exact (Hnet w'). Qed.

Lemma set_trainable_weights_self self :
  set_trainable_weights self (trainable_weights self) = self.
Proof. now destruct self. Qed.

(** The five losses of an epoch are defined on a well-shaped batch. *)
Lemma epoch_losses_run self time_steps actions act_log_probs returns
    normalized_advantages params valid_mask B T :
  network_outputs_shaped self time_steps actions params B T ->
  has_shape B T act_log_probs -> has_shape B T returns ->
  has_shape B T normalized_advantages -> has_shape B T valid_mask ->
  exists l0 l1 l2 l3 l4,
    epoch_losses self time_steps actions act_log_probs returns
      normalized_advantages params valid_mask = Ok [l0; l1; l2; l3; l4].
Proof.
  intros Hnet Hold Hret Hadv Hmask.
  destruct (Hnet (trainable_weights self))
    as [Hlp [Hent [Hkl [Hval [l2 Hl2]]]]].
  rewrite set_trainable_weights_self in Hl2.
  unfold epoch_losses.
  unfold value_estimation_loss, squared_difference, tf_mul.
  rewrite (broadcast2_same_shape _ B T) by assumption. rewrite bind_Ok.
  rewrite (broadcast2_same_shape _ B T)
    by (try assumption; apply tabulate_shape).
  rewrite !bind_Ok.
  rewrite (policy_gradient_loss_entries self time_steps actions act_log_probs
             normalized_advantages _ valid_mask B T) by assumption.
  rewrite bind_Ok.
  assert (Hl2' : exists l,
            (if Rltb 0 (_policy_l2_reg self)
                || Rltb 0 (_value_function_l2_reg self)
             then l2_regularization_loss self else Ok 0) = Ok l).
  { destruct (_ || _); [now exists l2 | now exists 0]. }
  destruct Hl2' as [l Hl]. rewrite Hl, bind_Ok.
  assert (Hent' : exists l',
            (if Rltb 0 (_entropy_regularization self)
             then entropy_regularization_loss self time_steps
                    (policy_distribution (trainable_weights self)
                       (_observation_normalizer self) time_steps) valid_mask
             else Ok 0) = Ok l').
  { unfold entropy_regularization_loss.
    destruct (Rltb 0 (_entropy_regularization self)); [|now exists 0].
    unfold tf_mul, tf_neg.
    rewrite (map_map_tabulate B T) by assumption.
    rewrite (broadcast2_same_shape _ B T)
      by (try assumption; apply tabulate_shape).
    rewrite bind_Ok. now eexists. }
  destruct Hent' as [l' Hl']. rewrite Hl', bind_Ok.
  unfold kl_penalty_loss, _kl_divergence, tf_mul.
  rewrite (broadcast2_same_shape _ B T) by assumption. rewrite !bind_Ok.
  do 5 eexists. reflexivity.
Qed.

(** The update epochs run one after the other; they replace the weights and
    nothing else. *)
Lemma run_epochs_run time_steps actions act_log_probs returns
    normalized_advantages params valid_mask B T :
  has_shape B T act_log_probs -> has_shape B T returns ->
  has_shape B T normalized_advantages -> has_shape B T valid_mask ->
  forall remaining i_epoch self,
  network_outputs_shaped self time_steps actions params B T ->
  exists losses,
    run_epochs remaining i_epoch self time_steps actions act_log_probs
      returns normalized_advantages params valid_mask
    = Ok (set_trainable_weights self
            (weights_after_epochs remaining self time_steps actions
               act_log_probs returns normalized_advantages params
               valid_mask),
          losses, map TrainOp (seq i_epoch remaining)) /\
    length losses = remaining.
Proof.
  intros Hold Hret Hadv Hmask remaining.
  induction remaining as [|remaining IH]; intros i_epoch self Hnet.
  - exists []. simpl. now rewrite set_trainable_weights_self.
  - destruct (epoch_losses_run self time_steps actions act_log_probs returns
                normalized_advantages params valid_mask B T
                Hnet Hold Hret Hadv Hmask)
      as [l0 [l1 [l2 [l3 [l4 Hlosses]]]]].
    simpl. unfold build_train_op. rewrite Hlosses, !bind_Ok.
    set (w1 := optimizer_step _ _).
    destruct (IH (S i_epoch) (set_trainable_weights self w1)
                (network_outputs_shaped_weights _ _ _ _ _ _ w1 Hnet))
      as [losses [Hrun Hlen]].
    rewrite Hrun, bind_Ok.
    exists ([l0; l1; l2; l3; l4] :: losses). split; [reflexivity|].
    simpl. now rewrite Hlen.
Qed.

Lemma add_n_nonempty xs : xs <> [] -> exists s, add_n xs = Ok s.
Proof. destruct xs; [congruence | intros _; now eexists]. Qed.

Lemma update_adaptive_kl_beta_runs self kl_divergence :
  0 <= _adaptive_kl_target self * _adaptive_kl_tolerance self ->
  exists beta',
    update_adaptive_kl_beta self kl_divergence
    = Ok (set_adaptive_kl_beta self beta') /\
    (_adaptive_kl_beta self = None -> beta' = None).
Proof.
  intros Hsign. unfold update_adaptive_kl_beta, new_adaptive_kl_beta.
  destruct (_adaptive_kl_beta self) as [beta|] eqn:Hbeta.
  - unfold Rltb.
    destruct (Rlt_dec _ _) as [Hlo|Hlo]; destruct (Rlt_dec _ _) as [Hup|Hup];
      simpl; try (eexists; split; [reflexivity | discriminate]).
    exfalso. lra.
  - exists None. split; [|reflexivity].
    destruct self. simpl in Hbeta. now subst.
Qed.

(** A training call on a well-shaped trajectory runs to its end: the
    estimator, the epochs in sequence, the recomputed KL divergence and the
    beta update at the weights the last epoch left, and at last the
    normalizers, fed with the raw observations and rewards. *)
Lemma train_from_experience_runs self experience B T
    time_steps policy_steps_ next_time_steps :
  to_transition (all_but_last experience) (all_but_first experience)
  = (time_steps, policy_steps_, next_time_steps) ->
  well_shaped_experience self experience B T ->
  (0 < B)%nat -> (0 < T)%nat -> (0 < _num_epochs self)%nat ->
  _use_td_lambda_return self && _use_gae self = false ->
  0 <= _adaptive_kl_target self * _adaptive_kl_tolerance self ->
  exists returns normalized_advantages warnings losses beta',
    let actions := action policy_steps_ in
    let action_distribution_parameters := info policy_steps_ in
    let old_actions_distribution :=
      get_distribution_from_params_and_classes
        action_distribution_parameters in
    let act_log_probs := log_probability old_actions_distribution actions in
    let valid_mask := make_timestep_mask next_time_steps in
    let w :=
      weights_after_epochs (_num_epochs self) self time_steps actions
        act_log_probs returns normalized_advantages
        action_distribution_parameters valid_mask in
    let trained := set_trainable_weights self w in
    let kl_divergence :=
      nested_kl_divergence old_actions_distribution
        (policy_distribution w (_observation_normalizer self) time_steps) in
    compute_return_and_advantage self time_steps actions next_time_steps
      (apply_value_network (trainable_weights self)
         (_observation_normalizer self)
         (trajectory_observation experience)
         (trajectory_step_type experience))
    = Ok (returns, normalized_advantages, warnings) /\
    run_epochs (_num_epochs self) 0 self time_steps actions act_log_probs
      returns normalized_advantages action_distribution_parameters
      valid_mask
    = Ok (trained, losses, map TrainOp (seq 0 (_num_epochs self))) /\
    update_adaptive_kl_beta trained kl_divergence
    = Ok (set_adaptive_kl_beta trained beta') /\
    train_from_experience self experience
    = Ok (set_normalizers (set_adaptive_kl_beta trained beta')
            (option_map
               (fun n =>
                  update_observation_normalizer n (observation time_steps))
               (_observation_normalizer self))
            (option_map
               (fun n =>
                  update_reward_normalizer n (reward next_time_steps))
               (_reward_normalizer self)),
          map TrainOp (seq 0 (_num_epochs self)) ++ final_trace self).
Proof.
  intros Htrans Hwell HB HT Hepochs Hflags Hsign.
  unfold well_shaped_experience in Hwell. rewrite Htrans in Hwell.
  destruct Hwell as [Hr [Hd [Hem [Hmask [Hvp [Hold Hnet]]]]]].
  destruct (compute_return_and_advantage_runs self time_steps
              (action policy_steps_) next_time_steps _ B T
              Hflags HB HT Hr Hd Hem Hvp)
    as [returns [nadv [warnings [Hcra [Sret Sadv]]]]].
  destruct (run_epochs_run time_steps (action policy_steps_) _ returns nadv
              (info policy_steps_) _ B T Hold Sret Sadv Hmask
              (_num_epochs self) 0%nat self Hnet)
    as [losses [Hrun Hlen]].
  set (w := weights_after_epochs _ _ _ _ _ _ _ _ _) in Hrun.
  destruct (update_adaptive_kl_beta_runs (set_trainable_weights self w)
              (nested_kl_divergence
                 (get_distribution_from_params_and_classes
                    (info policy_steps_))
                 (policy_distribution w (_observation_normalizer self)
                    time_steps)) Hsign)
    as [beta' [Hupdate Hnone]].
  exists returns, nadv, warnings, losses, beta'. cbv zeta. fold w.
  split; [exact Hcra|]. split; [exact Hrun|]. split; [exact Hupdate|].
  unfold train_from_experience. rewrite Htrans.
  rewrite Hcra, bind_Ok. rewrite Hrun, bind_Ok.
  unfold after_update_epochs, _kl_divergence. cbn [trainable_weights
    _observation_normalizer set_trainable_weights].
  rewrite Hupdate, bind_Ok.
  destruct losses as [|l losses]; [simpl in Hlen; lia|].
  cbn [map add_n bind]. unfold final_trace.
  cbn [_adaptive_kl_beta _observation_normalizer _reward_normalizer
       set_trainable_weights set_adaptive_kl_beta].
  reflexivity.
Qed.

(** C6, as the code has it. In a training call on a well-shaped trajectory
    the epochs run first, in sequence. After the weight update of the last
    epoch the KL divergence between the stored old distribution and the
    distribution under the updated weights is recomputed; it is not
    multiplied by the validity mask, and its mean over all timesteps drives
    the beta update. The normalizers are updated after the beta update,
    from the raw observations and rewards of the batch, and every epoch
    reads the normalizer state from before the call. *)
Theorem train_from_experience_final_updates self experience B T
    time_steps policy_steps_ next_time_steps :
  to_transition (all_but_last experience) (all_but_first experience)
  = (time_steps, policy_steps_, next_time_steps) ->
  well_shaped_experience self experience B T ->
  (0 < B)%nat -> (0 < T)%nat -> (0 < _num_epochs self)%nat ->
  _use_td_lambda_return self && _use_gae self = false ->
  0 <= _adaptive_kl_target self * _adaptive_kl_tolerance self ->
  exists returns normalized_advantages warnings losses beta',
    let actions := action policy_steps_ in
    let action_distribution_parameters := info policy_steps_ in
    let old_actions_distribution :=
      get_distribution_from_params_and_classes
        action_distribution_parameters in
    let act_log_probs := log_probability old_actions_distribution actions in
    let valid_mask := make_timestep_mask next_time_steps in
    let w :=
      weights_after_epochs (_num_epochs self) self time_steps actions
        act_log_probs returns normalized_advantages
        action_distribution_parameters valid_mask in
    let trained := set_trainable_weights self w in
    let kl_divergence :=
      nested_kl_divergence old_actions_distribution
        (policy_distribution w (_observation_normalizer self) time_steps) in
    compute_return_and_advantage self time_steps actions next_time_steps
      (apply_value_network (trainable_weights self)
         (_observation_normalizer self)
         (trajectory_observation experience)
         (trajectory_step_type experience))
    = Ok (returns, normalized_advantages, warnings) /\
    run_epochs (_num_epochs self) 0 self time_steps actions act_log_probs
      returns normalized_advantages action_distribution_parameters
      valid_mask
    = Ok (trained, losses, map TrainOp (seq 0 (_num_epochs self))) /\
    update_adaptive_kl_beta trained kl_divergence
    = Ok (set_adaptive_kl_beta trained beta') /\
    train_from_experience self experience
    = Ok (set_normalizers (set_adaptive_kl_beta trained beta')
            (option_map
               (fun n =>
                  update_observation_normalizer n (observation time_steps))
               (_observation_normalizer self))
            (option_map
               (fun n =>
                  update_reward_normalizer n (reward next_time_steps))
               (_reward_normalizer self)),
          map TrainOp (seq 0 (_num_epochs self)) ++ final_trace self).
Proof. exact (train_from_experience_runs self experience B T
                time_steps policy_steps_ next_time_steps). Qed.

End AgentProperties.

(** ** Float32 values: overflow, infinities and NaN *)

Lemma FLT_MAX_bounds : 1e30 <= Float32.FLT_MAX < 2 ^ 128.
Proof. unfold Float32.FLT_MAX. lra. Qed.

Lemma Rltb_false_le x y : Rltb x y = false -> y <= x.
Proof. unfold Rltb. destruct (Rlt_dec x y); [discriminate | lra]. Qed.

Lemma Rltb_true_lt x y : Rltb x y = true -> x < y.
Proof. unfold Rltb. destruct (Rlt_dec x y); [easy | discriminate]. Qed.

Lemma to_float_finite x :
  Float32.finite_float x -> Float32.to_float x = Float32.Finite x.
Proof.
  intros [Hlo Hhi]. unfold Float32.to_float.
  rewrite (Rltb_false Float32.FLT_MAX x) by lra.
  now rewrite (Rltb_false x (- Float32.FLT_MAX)) by lra.
Qed.

Lemma finite_float_small x : -1e30 <= x <= 1e30 -> Float32.finite_float x.
Proof.
  intros Hx. pose proof FLT_MAX_bounds. unfold Float32.finite_float. lra.
Qed.

Lemma to_float_0 : Float32.to_float 0 = Float32.Finite 0.
Proof. apply to_float_finite, finite_float_small. lra. Qed.


Lemma to_float_representable x :
  Float32.representable (Float32.to_float x).
Proof.
  unfold Float32.to_float.
  destruct (Rltb Float32.FLT_MAX x) eqn:Hhi; [exact I|].
  destruct (Rltb x (- Float32.FLT_MAX)) eqn:Hlo; [exact I|].
  apply Rltb_false_le in Hhi, Hlo. split; assumption.
Qed.

Lemma to_float_overflow x :
  Float32.FLT_MAX < x -> Float32.to_float x = Float32.PosInf.
Proof. intros Hx. unfold Float32.to_float. now rewrite Rltb_true. Qed.

Lemma times_infinity_representable x positive :
  Float32.representable (Float32.times_infinity x positive).
Proof.
  unfold Float32.times_infinity.
  destruct (Rltb 0 x), (Rltb x 0), positive; exact I.
Qed.

Lemma fmul_representable u v : Float32.representable (Float32.fmul u v).
Proof.
  destruct u, v; simpl;
    try exact I; try apply to_float_representable;
    apply times_infinity_representable.
Qed.

Lemma fneg_representable v :
  Float32.representable v -> Float32.representable (Float32.fneg v).
Proof.
  destruct v; simpl; try easy.
  unfold Float32.finite_float. lra.
Qed.

Lemma fmin_representable u v :
  Float32.representable u -> Float32.representable v ->
  Float32.representable (Float32.fmin u v).
Proof.
  intros Hu Hv. unfold Float32.fmin.
  destruct u, v; try exact I; now destruct (Float32.fless _ _).
Qed.


(** Multiplying by zero gives zero for a finite value only. *)
Lemma fmul_zero v :
  Float32.is_finite v = true ->
  Float32.fmul v (Float32.Finite 0) = Float32.Finite 0.
Proof.
  destruct v; simpl; try discriminate. intros _.
  rewrite Rmult_0_r. exact to_float_0.
Qed.

Lemma fmul_zero_not_finite v :
  Float32.is_finite v = false ->
  Float32.fmul v (Float32.Finite 0) = Float32.NaN.
Proof.
  destruct v; simpl; try discriminate; intros _; try reflexivity;
    unfold Float32.times_infinity;
    now rewrite !(Rltb_false 0 0) by lra.
Qed.



(** *** Tensors of float32 values *)

Lemma of_tensor_shape B T t :
  has_shape B T t -> Float32.has_shape B T (Float32.of_tensor t).
Proof.
  intros [Hlen Hrows]. split.
  - unfold Float32.of_tensor. now rewrite length_map.
  - unfold Float32.of_tensor. apply Forall_map.
    eapply Forall_impl; [|exact Hrows].
    intros row Hrow. now rewrite length_map.
Qed.


Lemma float_map_shape B T (f : Float32.float32 -> Float32.float32) t :
  Float32.has_shape B T t -> Float32.has_shape B T (map (map f) t).
Proof.
  intros [Hlen Hrows]. split.
  - now rewrite length_map.
  - apply Forall_map. eapply Forall_impl; [|exact Hrows].
    intros row Hrow. now rewrite length_map.
Qed.

Lemma float_map_all (P Q : Float32.float32 -> Prop)
    (f : Float32.float32 -> Float32.float32) t :
  (forall v, P v -> Q (f v)) ->
  Float32.all P t -> Float32.all Q (map (map f) t).
Proof.
  intros Hf Ht. unfold Float32.all in *.
  apply Forall_map. eapply Forall_impl; [|exact Ht].
  intros row Hrow. apply Forall_map.
  eapply Forall_impl; [|exact Hrow]. exact Hf.
Qed.

Lemma float_zip_with_all (P Q R : Float32.float32 -> Prop) op a :
  (forall x y, P x -> Q y -> R (op x y)) ->
  forall b, Forall P a -> Forall Q b -> Forall R (Float32.zip_with op a b).
Proof.
  intros Hop. induction a as [|x a IH]; intros [|y b] Ha Hb; simpl;
    try constructor.
  - apply Hop; [now apply Forall_inv in Ha | now apply Forall_inv in Hb].
  - apply IH; [now apply Forall_inv_tail in Ha | now apply Forall_inv_tail in Hb].
Qed.

Lemma float_zip_with_length op a :
  forall b, length b = length a ->
  length (Float32.zip_with op a b) = length a.
Proof.
  induction a as [|x a IH]; intros [|y b] Hlen; simpl in *;
    try reflexivity; try discriminate.
  f_equal. apply IH. now injection Hlen.
Qed.

Lemma float_zip_rows_same_shape op T a :
  forall b, length b = length a ->
  Forall (fun row => length row = T) a ->
  Forall (fun row => length row = T) b ->
  exists c,
    Float32.zip_rows op a b = Ok c /\ length c = length a /\
    Forall (fun row => length row = T) c /\
    forall P Q R : Float32.float32 -> Prop,
      (forall x y, P x -> Q y -> R (op x y)) ->
      Float32.all P a -> Float32.all Q b -> Float32.all R c.
Proof.
  induction a as [|ra a IH]; intros b Hlen Ra Rb.
  - exists []. destruct b; [|discriminate]. simpl.
    repeat split; try constructor.
  - destruct b as [|rb b]; [discriminate|].
    pose proof (Forall_inv Ra) as Hra. pose proof (Forall_inv Rb) as Hrb.
    injection Hlen as Hlen.
    destruct (IH b Hlen (Forall_inv_tail Ra) (Forall_inv_tail Rb))
      as [c [Hc [Lc [Rc Hall]]]].
    exists (Float32.zip_with op ra rb :: c). simpl.
    unfold Float32.broadcast1.
    replace (length ra =? length rb)%nat with true
      by (symmetry; apply Nat.eqb_eq; congruence).
    rewrite bind_Ok, Hc, bind_Ok. split; [reflexivity|].
    split; [simpl; congruence|]. split.
    + constructor; [|exact Rc].
      rewrite float_zip_with_length; congruence.
    + intros P Q R Hop HP HQ. constructor.
      * apply (float_zip_with_all P Q R); [exact Hop | |].
        -- now apply Forall_inv in HP.
        -- now apply Forall_inv in HQ.
      * apply (Hall P Q R Hop).
        -- now apply Forall_inv_tail in HP.
        -- now apply Forall_inv_tail in HQ.
Qed.

(** An elementwise operation on two tensors of one shape succeeds; its
    result has that shape, and a property that the operation brings about
    holds of every entry. *)
Lemma float_broadcast2_same_shape op B T a b :
  Float32.has_shape B T a -> Float32.has_shape B T b ->
  exists c,
    Float32.broadcast2 op a b = Ok c /\ Float32.has_shape B T c /\
    forall P Q R : Float32.float32 -> Prop,
      (forall x y, P x -> Q y -> R (op x y)) ->
      Float32.all P a -> Float32.all Q b -> Float32.all R c.
Proof.
  intros [Ha Ra] [Hb Rb]. unfold Float32.broadcast2.
  replace (length a =? length b)%nat with true
    by (symmetry; apply Nat.eqb_eq; congruence).
  destruct (float_zip_rows_same_shape op T a b) as [c [Hc [Lc [Rc Hall]]]];
    [congruence | exact Ra | exact Rb |].
  exists c. split; [exact Hc|]. split; [|exact Hall].
  split; [congruence | exact Rc].
Qed.

(** *** Overflow of the exponential *)

Lemma exp_ge_pow_2 n : 2 ^ n <= exp (INR n).
Proof.
  induction n as [|n IH]; [simpl; rewrite exp_0; lra|].
  rewrite S_INR, exp_plus. simpl pow.
  pose proof (exp_ineq1 1 ltac:(lra)) as He.
  pose proof (pow_lt 2 n ltac:(lra)) as Hp.
  rewrite (Rmult_comm 2). apply Rmult_le_compat; lra.
Qed.

Lemma exp_200_overflows : Float32.FLT_MAX < exp 200.
Proof.
  pose proof FLT_MAX_bounds as HM.
  pose proof (exp_ge_pow_2 200) as He.
  replace (INR 200) with 200 in He by (rewrite INR_IZR_INZ; reflexivity).
  pose proof (Rle_pow 2 128 200 ltac:(lra) ltac:(lia)) as Hp.
  lra.
Qed.

(** *** Masks of ones and of zeros *)

Lemma of_tensor_constant B T c :
  Float32.of_tensor (tabulate B T (fun _ _ => c))
  = repeat (repeat (Float32.to_float c) T) B.
Proof.
  unfold Float32.of_tensor, tabulate. rewrite map_map.
  rewrite (map_ext _ (fun _ => repeat (Float32.to_float c) T)).
  - now rewrite map_const, length_seq.
  - intros b. rewrite map_map. now rewrite map_const, length_seq.
Qed.


Lemma of_tensor_zeros B T :
  Float32.of_tensor (zeros B T) = repeat (repeat (Float32.Finite 0) T) B.
Proof. unfold zeros. now rewrite of_tensor_constant, to_float_0. Qed.

Lemma float_zip_with_repeat op c (P : Float32.float32 -> Prop) g :
  (forall x, P x -> op x c = g x) ->
  forall a, Forall P a ->
  Float32.zip_with op a (repeat c (length a)) = map g a.
Proof.
  intros Hop. induction a as [|x a IH]; intros Ha; [reflexivity|].
  simpl. rewrite Hop by now apply Forall_inv in Ha.
  rewrite IH by now apply Forall_inv_tail in Ha. reflexivity.
Qed.

(** Combining every entry with one constant, as a mask of ones or of zeros
    does. *)
Lemma float_broadcast2_constant op c (P : Float32.float32 -> Prop) g B T a :
  (forall x, P x -> op x c = g x) ->
  Float32.has_shape B T a -> Float32.all P a ->
  Float32.broadcast2 op a (repeat (repeat c T) B) = Ok (map (map g) a).
Proof.
  intros Hop [Hlen Hrows] Hall. subst B. unfold Float32.broadcast2.
  rewrite repeat_length, Nat.eqb_refl.
  unfold Float32.all in Hall.
  induction a as [|ra a IH]; [reflexivity|].
  pose proof (Forall_inv Hrows) as Hra. simpl in Hra |- *.
  unfold Float32.broadcast1.
  rewrite repeat_length, Hra, Nat.eqb_refl, bind_Ok.
  rewrite IH;
    [| now apply Forall_inv_tail in Hrows | now apply Forall_inv_tail in Hall].
  rewrite bind_Ok. rewrite <- Hra at 1.
  rewrite (float_zip_with_repeat op c P g Hop)
    by now apply Forall_inv in Hall.
  reflexivity.
Qed.


Lemma float_map_map_constant (c : Float32.float32) B T
    (a : list (list Float32.float32)) :
  Float32.has_shape B T a ->
  map (map (fun _ => c)) a = repeat (repeat c T) B.
Proof.
  intros [Hlen Hrows]. rewrite <- Hlen. clear Hlen.
  induction a as [|ra a IH]; [reflexivity|].
  simpl. rewrite map_const, (Forall_inv Hrows).
  now rewrite IH by now apply Forall_inv_tail in Hrows.
Qed.


(** A mask of zeros gives zeros where every entry is finite. *)
Lemma float_mask_of_zeros B T a :
  Float32.has_shape B T a -> Float32.all_finite a ->
  Float32.tf_mul a (Float32.of_tensor (zeros B T))
  = Ok (Float32.of_tensor (zeros B T)).
Proof.
  intros Hshape Hall. unfold Float32.tf_mul. rewrite of_tensor_zeros.
  rewrite (float_broadcast2_constant Float32.fmul (Float32.Finite 0)
             (fun v => Float32.is_finite v = true)
             (fun _ => Float32.Finite 0) B T a fmul_zero Hshape Hall).
  now rewrite (float_map_map_constant _ B T).
Qed.

Lemma float_sum_of_zeros l :
  Forall (fun v => v = Float32.Finite 0) l ->
  fold_right Float32.fadd (Float32.Finite 0) l = Float32.Finite 0.
Proof.
  induction l as [|v l IH]; intros Hl; [reflexivity|].
  simpl. rewrite IH by now apply Forall_inv_tail in Hl.
  rewrite (Forall_inv Hl). simpl. rewrite Rplus_0_r. exact to_float_0.
Qed.

Lemma length_concat_repeat (c : Float32.float32) T B :
  length (concat (repeat (repeat c T) B)) = (B * T)%nat.
Proof.
  induction B as [|B IH]; [reflexivity|].
  simpl. now rewrite length_app, repeat_length, IH.
Qed.

Lemma float_reduce_mean_zeros B T :
  (0 < B)%nat -> (0 < T)%nat ->
  Float32.reduce_mean (Float32.of_tensor (zeros B T)) = Float32.Finite 0.
Proof.
  intros HB HT. rewrite of_tensor_zeros.
  unfold Float32.reduce_mean, Float32.reduce_sum.
  rewrite float_sum_of_zeros.
  - rewrite length_concat_repeat.
    assert (Hn : 0 < INR (B * T)) by (apply lt_0_INR; nia).
    pose proof FLT_MAX_bounds as HM.
    unfold Float32.to_float.
    destruct (Rltb Float32.FLT_MAX (INR (B * T))); [reflexivity|].
    rewrite (Rltb_false (INR (B * T))) by lra. simpl.
    rewrite Rltb_true by exact Hn. simpl.
    unfold Rdiv. rewrite Rmult_0_l. exact to_float_0.
  - apply Forall_concat, Forall_forall. intros row Hrow.
    apply repeat_spec in Hrow. subst row.
    apply Forall_forall. intros v Hv. now apply repeat_spec in Hv.
Qed.


Lemma float_all_True t : Float32.all (fun _ => True) t.
Proof.
  apply Forall_forall. intros row _. apply Forall_forall. now intros v _.
Qed.


Section MaskedLosses.

Context `{Collaborators}.

(** The per-timestep policy gradient loss of a well-shaped batch is
    computed, with the shape of the batch. *)
Lemma float_policy_gradient_per_timestep_runs self actions
    sample_action_log_probs advantages current_policy_distribution B T :
  has_shape B T (log_probability current_policy_distribution actions) ->
  has_shape B T sample_action_log_probs ->
  has_shape B T advantages ->
  exists loss,
    Float32.policy_gradient_per_timestep self actions
      sample_action_log_probs advantages current_policy_distribution
    = Ok loss /\
    Float32.has_shape B T loss /\ Float32.all Float32.representable loss.
Proof.
  intros Hnew Hold Hadv. unfold Float32.policy_gradient_per_timestep.
  cbv zeta.
  set (action_log_prob := if Rltb 0 (_log_prob_clipping self) then _ else _).
  assert (Slp : Float32.has_shape B T action_log_prob).
  { unfold action_log_prob. destruct (Rltb 0 (_log_prob_clipping self));
      [apply float_map_shape|]; now apply of_tensor_shape. }
  pose proof (of_tensor_shape B T _ Hold) as Sold.
  pose proof (of_tensor_shape B T _ Hadv) as Sadv.
  destruct (float_broadcast2_same_shape Float32.fsub B T _ _ Slp Sold)
    as [d [Hd [Sd _]]].
  unfold Float32.tf_sub. rewrite Hd, bind_Ok.
  pose proof (float_map_shape B T Float32.fexp d Sd) as Sratio.
  fold (Float32.tf_exp d) in Sratio.
  destruct (float_broadcast2_same_shape Float32.fmul B T _ _ Sratio Sadv)
    as [objective [Hobjective [Sobjective Aobjective]]].
  unfold Float32.tf_mul at 1. rewrite Hobjective, bind_Ok.
  set (importance_ratio_clipped := Float32.clip_by_value _ _ _).
  assert (Sclipped : Float32.has_shape B T importance_ratio_clipped)
    by now apply float_map_shape.
  destruct (float_broadcast2_same_shape Float32.fmul B T _ _ Sclipped Sadv)
    as [clipped [Hclipped [Sclipped' Aclipped]]].
  unfold Float32.tf_mul. rewrite Hclipped, bind_Ok.
  destruct (float_broadcast2_same_shape Float32.fmin B T _ _
              Sobjective Sclipped')
    as [minimum [Hminimum [Sminimum Aminimum]]].
  unfold Float32.tf_minimum. rewrite Hminimum, bind_Ok.
  assert (Robjective : Float32.all Float32.representable objective).
  { apply (Aobjective (fun _ => True) (fun _ => True));
      [intros x y _ _; apply fmul_representable | apply float_all_True ..]. }
  assert (Rclipped : Float32.all Float32.representable clipped).
  { apply (Aclipped (fun _ => True) (fun _ => True));
      [intros x y _ _; apply fmul_representable | apply float_all_True ..]. }
  assert (Rminimum : Float32.all Float32.representable minimum).
  { apply (Aminimum Float32.representable Float32.representable);
      [exact fmin_representable | assumption ..]. }
  destruct (Rltb 0 (_importance_ratio_clipping self)); eexists;
    (split; [reflexivity|]); (split; [now apply float_map_shape|]);
    unfold Float32.tf_neg;
    apply (float_map_all Float32.representable); try assumption;
    exact fneg_representable.
Qed.




End MaskedLosses.

(** ** Concrete runs on the test double *)

Lemma has_shape_rows B T (t : list (list R)) :
  length t = B -> forallb (fun row => (length row =? T)%nat) t = true ->
  has_shape B T t.
Proof.
  intros HB Hrows. split; [exact HB|].
  apply Forall_forall. intros row Hin.
  rewrite forallb_forall in Hrows. now apply Nat.eqb_eq, Hrows.
Qed.

Ltac shape := apply has_shape_rows; reflexivity.

Lemma clip_below x lo hi : x <= lo -> lo <= hi -> clip x lo hi = lo.
Proof.
  intros Hx Hlh. unfold clip. rewrite Rmin_left by lra. now apply Rmax_right.
Qed.

Lemma clip_inside x lo hi : lo <= x -> x <= hi -> clip x lo hi = x.
Proof.
  intros Hlo Hhi. unfold clip. rewrite Rmin_left by lra. now apply Rmax_left.
Qed.

Lemma reduce_mean_pair x y : reduce_mean [[x; y]] = (x + y) / 2.
Proof. unfold reduce_mean, reduce_sum. simpl. field. Qed.

Lemma compute_returns_reverse_scan_witness :
  has_shape 1 3 [[1; 1; 1]] /\ has_shape 1 3 [[1; 1; 0]] /\
  compute_returns example_agent [[1; 1; 1]] [[1; 1; 0]]
    default_norm_variance_epsilon = Ok [[3; 2; 1]].
Proof.
  split; [shape|]. split; [shape|].
  apply (compute_returns_reverse_scan example_agent 1 3
           [[1; 1; 1]] [[1; 1; 0]] default_norm_variance_epsilon);
    [lia | lia | shape | shape].
Defined.

Lemma compute_returns_shape_mismatch_witness :
  shape [[1; 1]] <> shape [[1]] /\
  compute_returns example_agent [[1; 1]] [[1]] default_norm_variance_epsilon
  = Raise (ValueError "Shapes are incompatible").
Proof.
  assert (Hneq : shape [[1; 1]] <> shape [[1]]) by (simpl; discriminate).
  split; [exact Hneq|].
  apply (compute_returns_shape_mismatch example_agent [[1; 1]] [[1]]
           default_norm_variance_epsilon Hneq).
Defined.

Lemma compute_advantages_paths_witness :
  has_shape 1 2 [[1; 1]] /\ has_shape 1 2 [[2; 1]] /\
  has_shape 1 3 [[0; 0; 0]] /\
  exists advantages,
    compute_advantages example_agent [[1; 1]] [[2; 1]] [[1; 1]] [[0; 0; 0]]
    = Ok advantages /\
    at2 advantages 0 0 = at2 [[2; 1]] 0 0 - at2 [[0; 0; 0]] 0 0.
Proof.
  split; [shape|]. split; [shape|]. split; [shape|].
  destruct (compute_advantages_paths example_agent 1 2
              [[1; 1]] [[2; 1]] [[1; 1]] [[0; 0; 0]])
    as [Hsplit [advantages [Hadv [_ [_ [Hmc _]]]]]];
    [lia | lia | shape | shape | shape | shape |].
  exists advantages. split; [exact Hadv|].
  rewrite (Hmc eq_refl 0%nat 0%nat) by lia.
  now rewrite (proj1 (Hsplit 0%nat 0%nat ltac:(lia) ltac:(lia))).
Defined.

(** C7, as stated, fails: with [lambda = 1] and the single discount [1],
    rewards [[1]] and value predictions [[0, 1]], the GAE advantage is [2]
    and the Monte Carlo advantage [returns - value_preds] is [1]. *)
Lemma gae_lambda_one_differs_from_monte_carlo :
  Forall (Forall (fun d => d <> 0)) [[1]] /\
  compute_returns example_agent [[1]] [[1]] default_norm_variance_epsilon
  = Ok [[1]] /\
  compute_advantages (with_estimator example_agent true false 1)
    [[1]] [[1]] [[1]] [[0; 1]] = Ok [[2]] /\
  compute_advantages (with_estimator example_agent false false 1)
    [[1]] [[1]] [[1]] [[0; 1]] = Ok [[1]] /\
  2 - 1 = 1.
Proof.
  split; [repeat constructor; lra|].
  split; [|split; [|split; [|lra]]].
  - unfold compute_returns, check_shape, assert_is_compatible_with,
      assert_equal_shape, transpose, tf_scan2, discounted_accumulate_rewards,
      broadcast1. simpl. do 3 f_equal. ring.
  - unfold compute_advantages, tf_mul, tf_add, tf_sub, broadcast2, transpose,
      tf_scan2, gae_step, broadcast1. simpl. do 3 f_equal. ring.
  - unfold compute_advantages, tf_sub, broadcast2, broadcast1. simpl.
    do 3 f_equal. ring.
Qed.

Lemma gae_lambda_one_is_monte_carlo_plus_bootstrap_witness :
  has_shape 1 1 [[1]] /\ has_shape 1 2 [[0; 1]] /\
  exists returns gae mc,
    compute_returns (with_estimator example_agent true false 1)
      [[1]] [[1]] default_norm_variance_epsilon = Ok returns /\
    compute_advantages (with_estimator example_agent true false 1)
      [[1]] returns [[1]] [[0; 1]] = Ok gae /\
    compute_advantages example_agent [[1]] returns [[1]] [[0; 1]] = Ok mc /\
    at2 gae 0 0 = at2 mc 0 0 + discount_product [[1]] 0 0 1 * at2 [[0; 1]] 0 1.
Proof.
  split; [shape|]. split; [shape|].
  destruct (gae_lambda_one_is_monte_carlo_plus_bootstrap
              (with_estimator example_agent true false 1) example_agent
              1 1 [[1]] [[1]] [[0; 1]] default_norm_variance_epsilon)
    as [returns [gae [mc [Hret [Hgae [Hmc [Hdiff _]]]]]]];
    [reflexivity | reflexivity | reflexivity | lia | lia
    | shape | shape | shape |].
  exists returns, gae, mc. repeat split; try assumption.
  apply (Hdiff 0%nat 0%nat); lia.
Defined.

Lemma td_lambda_return_adds_full_value_preds_witness :
  has_shape 1 2 (reward example_next_time_steps) /\
  has_shape 1 3 [[0; 0; 0]] /\
  compute_return_and_advantage (with_estimator example_agent true true 0.95)
    example_time_steps tt example_next_time_steps [[0; 0; 0]]
  = Raise (InvalidArgumentError "Incompatible shapes").
Proof.
  split; [shape|]. split; [shape|].
  apply (td_lambda_return_adds_full_value_preds
           (with_estimator example_agent true true 0.95)
           example_time_steps tt example_next_time_steps [[0; 0; 0]] 1 2);
    [reflexivity | reflexivity | lia | lia | shape | shape | shape | shape].
Defined.

Lemma update_adaptive_kl_beta_three_branches_witness :
  _adaptive_kl_beta example_agent = Some 1.0 /\
  update_adaptive_kl_beta example_agent [[0.02]]
  = Ok (set_adaptive_kl_beta example_agent (Some 1.5)).
Proof.
  split; [reflexivity|].
  pose proof (update_adaptive_kl_beta_three_branches example_agent 1.0
                [[0.02]] eq_refl) as Hbranches.
  cbv zeta in Hbranches.
  destruct Hbranches as [_ [_ [_ [_ [_ Hexamples]]]]].
  exact (proj1 (Hexamples eq_refl eq_refl eq_refl)).
Defined.

(** C5, as stated, fails twice. With [initial_adaptive_kl_beta = 1e-16] the
    controller is enabled and its beta is below the floor; when the mean KL
    is inside the band the beta is not kept, it becomes the floor [1e-15].
    And with a negative tolerance, here [-0.3], a mean KL of 0.01 passes
    both bound checks of the target 0.01, and the exclusive case raises. *)
Lemma adaptive_kl_beta_below_floor_is_raised :
  (let self :=
     set_adaptive_kl_beta example_agent (create_adaptive_kl_beta 1e-16) in
   _adaptive_kl_beta self = Some 1e-16 /\ 0 < 1e-16 /\
   ~ reduce_mean [[0.01]]
     < _adaptive_kl_target self * (1.0 - _adaptive_kl_tolerance self) /\
   ~ _adaptive_kl_target self * (1.0 + _adaptive_kl_tolerance self)
     < reduce_mean [[0.01]] /\
   update_adaptive_kl_beta self [[0.01]]
   = Ok (set_adaptive_kl_beta self (Some 10e-16)) /\
   10e-16 <> 1e-16) /\
  (let self := with_kl_target example_agent 0.01 (-0.3) in
   reduce_mean [[0.01]]
   < _adaptive_kl_target self * (1.0 - _adaptive_kl_tolerance self) /\
   _adaptive_kl_target self * (1.0 + _adaptive_kl_tolerance self)
   < reduce_mean [[0.01]] /\
   exists e, update_adaptive_kl_beta self [[0.01]] = Raise e).
Proof.
  split.
  - cbv zeta. unfold create_adaptive_kl_beta.
    rewrite (Rltb_true 0 1e-16) by lra.
    rewrite reduce_mean_singleton. simpl.
    split; [reflexivity|]. split; [lra|]. split; [lra|]. split; [lra|].
    split; [|lra].
    destruct (update_adaptive_kl_beta_cases
                (set_adaptive_kl_beta example_agent (Some 1e-16)) 1e-16
                [[0.01]] eq_refl) as [_ [_ [Hband _]]].
    rewrite reduce_mean_singleton in Hband. simpl in Hband.
    rewrite Hband by lra. do 3 f_equal. apply Rmax_right. lra.
  - cbv zeta. rewrite reduce_mean_singleton. simpl.
    split; [lra|]. split; [lra|].
    destruct (update_adaptive_kl_beta_cases
                (with_kl_target example_agent 0.01 (-0.3)) 1.0
                [[0.01]] eq_refl) as [_ [_ [_ Hboth]]].
    rewrite reduce_mean_singleton in Hboth. simpl in Hboth.
    apply Hboth; lra.
Qed.

Lemma reduce_mean_tabulate_1_1 f : reduce_mean (tabulate 1 1 f) = f 0%nat 0%nat.
Proof. unfold tabulate. simpl. apply reduce_mean_singleton. Qed.

Lemma policy_gradient_loss_clipped_surrogate_witness :
  has_shape 1 1 [[0]] /\ has_shape 1 1 [[1]] /\
  policy_gradient_loss example_agent example_time_steps tt [[0]] [[1]]
    (one_step_distribution 0) [[1]]
  = Ok (- reduce_mean (tabulate 1 1 (fun b t =>
          surrogate_objective example_agent
            (importance_ratio_at example_agent
               (at2 [[0]] b t) (at2 [[0]] b t))
            (at2 [[1]] b t)
          * at2 [[1]] b t))).
Proof.
  split; [shape|]. split; [shape|].
  apply (policy_gradient_loss_clipped_surrogate example_agent
           example_time_steps tt [[0]] [[1]] (one_step_distribution 0)
           [[1]] 1 1); [lia | lia | shape | shape | shape | shape].
Defined.

(** C3, as stated, fails: with a log-probability clipping of 1, no ratio
    clipping, and the new and old log-probabilities both [-5], the agent's
    ratio is [exp(-1 - (-5)) = exp 4], while the ratio of the clipped
    difference is [exp 0 = 1]; with advantage 1 and mask 1 the loss is
    [- exp 4] and not [-1]. *)
Lemma policy_gradient_loss_clips_new_log_prob_only :
  let self := with_clipping example_agent 0 1 in
  policy_gradient_loss self example_time_steps tt [[-5]] [[1]]
    (one_step_distribution (-5)) [[1]]
  = Ok (- exp 4) /\
  - reduce_mean (tabulate 1 1 (fun b t =>
      surrogate_objective self
        (importance_ratio_of_clipped_difference self
           (at2 [[-5]] b t) (at2 [[-5]] b t))
        (at2 [[1]] b t)
      * at2 [[1]] b t))
  = -1 /\
  - exp 4 <> -1.
Proof.
  cbv zeta. split; [|split].
  - rewrite (policy_gradient_loss_entries _ _ _ _ _ _ _ 1 1) by shape.
    rewrite reduce_mean_tabulate_1_1.
    unfold surrogate_objective, importance_ratio_at, at2. simpl.
    rewrite (Rltb_false 0 0) by lra. rewrite (Rltb_true 0 1) by lra.
    rewrite clip_below by lra.
    replace (exp _) with (exp 4) by (f_equal; lra). f_equal. ring.
  - rewrite reduce_mean_tabulate_1_1.
    unfold surrogate_objective, importance_ratio_of_clipped_difference, at2.
    simpl.
    rewrite (Rltb_false 0 0) by lra. rewrite (Rltb_true 0 1) by lra.
    rewrite clip_inside by lra.
    replace (exp _) with (exp 0) by (f_equal; lra). rewrite exp_0. ring.
  - pose proof (exp_ineq1 4). lra.
Qed.




(** A new log-probability of [0] against an old one of [-200], under the
    default settings: the importance ratio [exp 200] is beyond every finite
    float32, so the ratio is [inf] and the loss of the step is [-inf]. *)
Lemma overflowing_policy_gradient_per_timestep :
  Float32.policy_gradient_per_timestep example_agent tt [[-200]] [[1]]
    (one_step_distribution 0)
  = Ok [[Float32.NegInf]].
Proof.
  unfold Float32.policy_gradient_per_timestep. cbv zeta.
  change (_log_prob_clipping example_agent) with 0.0.
  change (_importance_ratio_clipping example_agent) with 0.0.
  rewrite !(Rltb_false 0 0.0) by lra.
  change (@log_probability stub_collaborators (one_step_distribution 0) tt)
    with [[0]].
  unfold Float32.of_tensor. simpl map.
  rewrite to_float_0.
  rewrite !to_float_finite by (apply finite_float_small; lra).
  unfold Float32.tf_sub, Float32.broadcast2, Float32.tf_exp. simpl.
  replace (0 + - (-200)) with 200 by lra.
  rewrite (to_float_finite 200) by (apply finite_float_small; lra).
  simpl Float32.fexp. rewrite to_float_overflow by exact exp_200_overflows.
  simpl Float32.fmul. unfold Float32.times_infinity.
  rewrite (Rltb_true 0 1) by lra. reflexivity.
Qed.


(** C8, as stated, fails for the KL penalty: with a negative KL target,
    here [-0.01] under the default cutoff factor 2 and coefficient 1000, a
    mask of zeros leaves the cutoff term [1000 * (0 + 0.02)^2 = 0.4]. *)
Lemma kl_penalty_loss_of_zero_mask_with_negative_target :
  let self := with_kl_target example_agent (-0.01) 0.3 in
  has_shape 1 2 (zeros 1 2) /\
  kl_penalty_loss self example_time_steps
    example_parameters example_distribution (zeros 1 2) = Ok 0.4 /\
  0.4 <> 0.
Proof.
  cbv zeta. split; [apply tabulate_shape|]. split; [|lra].
  unfold kl_penalty_loss.
  rewrite (mask_of_zeros 1 2) by shape. rewrite bind_Ok.
  unfold kl_cutoff_loss, adaptive_kl_loss. rewrite reduce_mean_zeros. simpl.
  rewrite Rleb_false by lra. rewrite Rmax_left by lra. f_equal. lra.
Qed.

(** The optimizer of the test double is stationary. *)
Lemma stub_weights_after_epochs n : forall (self : PPOAgent) time_steps
    actions act_log_probs returns normalized_advantages params valid_mask,
  weights_after_epochs n self time_steps actions act_log_probs returns
    normalized_advantages params valid_mask = trainable_weights self.
Proof.
  induction n as [|n IH]; intros; simpl; [reflexivity|].
  now rewrite IH.
Qed.

Lemma example_experience_well_shaped :
  well_shaped_experience example_agent example_experience 1 2.
Proof.
  unfold well_shaped_experience. simpl.
  do 6 (split; [shape|]).
  intros w. simpl. do 4 (split; [shape|]).
  exists 0. unfold l2_regularization_loss. simpl.
  now rewrite (Rltb_false 0 0.0) by lra.
Qed.

Lemma train_from_experience_final_updates_witness :
  well_shaped_experience example_agent example_experience 1 2 /\
  exists final,
    train_from_experience example_agent example_experience
    = Ok (final,
          map TrainOp (seq 0 25)
          ++ [KLDivergenceOp; UpdateAdaptiveKLBetaOp;
              UpdateObservationNormalizerOp; UpdateRewardNormalizerOp]).
Proof.
  split; [exact example_experience_well_shaped|].
  destruct (train_from_experience_final_updates example_agent
              example_experience 1 2 example_time_steps
              (stub_policy_steps example_experience)
              example_next_time_steps eq_refl
              example_experience_well_shaped)
    as [returns [nadv [warnings [losses [beta' [_ [_ [_ Hcall]]]]]]]];
    [lia | lia | simpl; lia | reflexivity | simpl; lra |].
  eexists. exact Hcall.
Defined.

(** C6, as stated, fails: the KL divergence that drives the beta update is
    not masked. On the example batch the KL divergence is 0.02 at both
    timesteps and the mask is [[1, 0]]: the unmasked mean 0.02 is above the
    band and the call leaves beta at 1.5, where the masked mean 0.01 is
    inside the band and would leave beta at 1.0. *)
Lemma train_from_experience_feeds_unmasked_kl :
  make_timestep_mask example_next_time_steps = [[1; 0]] /\
  nested_kl_divergence example_parameters example_distribution
  = [[0.02; 0.02]] /\
  (exists final trace,
     train_from_experience example_agent example_experience
     = Ok (final, trace) /\
     _adaptive_kl_beta final = Some 1.5) /\
  (exists masked_kl,
     tf_mul (nested_kl_divergence example_parameters example_distribution)
       (make_timestep_mask example_next_time_steps) = Ok masked_kl /\
     reduce_mean masked_kl = 0.01 /\
     update_adaptive_kl_beta example_agent masked_kl
     = Ok (set_adaptive_kl_beta example_agent (Some 1.0))) /\
  1.5 <> 1.0.
Proof.
  split; [reflexivity|]. split; [reflexivity|].
  split; [|split; [|lra]].
  - destruct (train_from_experience_runs example_agent example_experience
                1 2 example_time_steps
                (stub_policy_steps example_experience)
                example_next_time_steps eq_refl
                example_experience_well_shaped)
      as [returns [nadv [warnings [losses [beta' [_ [_ [Hupdate Hcall]]]]]]]];
      [lia | lia | simpl; lia | reflexivity | simpl; lra |].
    cbv zeta in Hupdate, Hcall.
    rewrite stub_weights_after_epochs in Hupdate, Hcall.
    do 2 eexists. split; [exact Hcall|].
    cbn [_adaptive_kl_beta set_normalizers set_adaptive_kl_beta].
    destruct (update_adaptive_kl_beta_cases
                (set_trainable_weights example_agent
                   (trainable_weights example_agent)) 1.0
                [[0.02; 0.02]] eq_refl) as [_ [Habove _]].
    rewrite reduce_mean_pair in Habove.
    change (nested_kl_divergence _ _) with [[0.02; 0.02]] in Hupdate.
    rewrite Habove in Hupdate by (simpl; lra).
    injection Hupdate as Hbeta. rewrite <- Hbeta. f_equal.
    rewrite Rmax_left by lra. lra.
  - exists [[0.02 * 1; 0.02 * 0]]. split; [reflexivity|].
    assert (Hmean : reduce_mean [[0.02 * 1; 0.02 * 0]] = 0.01)
      by (rewrite reduce_mean_pair; lra).
    split; [exact Hmean|].
    destruct (update_adaptive_kl_beta_cases example_agent 1.0
                [[0.02 * 1; 0.02 * 0]] eq_refl) as [_ [_ [Hband _]]].
    rewrite Hmean in Hband. simpl in Hband.
    rewrite Hband by lra. do 3 f_equal. apply Rmax_left. lra.
Qed.

(** * Further properties of the agent *)

(** ** Sums over indices *)

Lemma sum_upto_ext n : forall f g,
  (forall k, (k < n)%nat -> f k = g k) -> sum_upto n f = sum_upto n g.
Proof.
  induction n as [|n IH]; intros f g Hfg; simpl; [reflexivity|].
  rewrite (Hfg 0%nat) by lia. f_equal.
  apply IH. intros k Hk. apply Hfg. lia.
Qed.

Lemma sum_upto_scale c n : forall f,
  c * sum_upto n f = sum_upto n (fun k => c * f k).
Proof.
  induction n as [|n IH]; intros f; simpl; [ring|].
  rewrite <- IH. ring.
Qed.

Lemma sum_upto_plus n : forall f g,
  sum_upto n f + sum_upto n g = sum_upto n (fun k => f k + g k).
Proof.
  induction n as [|n IH]; intros f g; simpl; [ring|].
  rewrite <- IH. ring.
Qed.

Lemma sum_upto_le n : forall f g,
  (forall k, (k < n)%nat -> f k <= g k) -> sum_upto n f <= sum_upto n g.
Proof.
  induction n as [|n IH]; intros f g Hfg; simpl; [lra|].
  apply Rplus_le_compat.
  - apply Hfg. lia.
  - apply IH. intros k Hk. apply Hfg. lia.
Qed.

Lemma sum_upto_zero n : forall f,
  (forall k, (k < n)%nat -> f k = 0) -> sum_upto n f = 0.
Proof.
  induction n as [|n IH]; intros f Hf; simpl; [reflexivity|].
  rewrite (Hf 0%nat) by lia. rewrite IH; [ring|].
  intros k Hk. apply Hf. lia.
Qed.

Lemma sum_upto_const n c : sum_upto n (fun _ => c) = INR n * c.
Proof.
  induction n as [|n IH]; [simpl; ring|].
  rewrite S_INR. simpl. rewrite IH. ring.
Qed.

Lemma fold_right_Rplus_app l1 l2 :
  fold_right Rplus 0 (l1 ++ l2)
  = fold_right Rplus 0 l1 + fold_right Rplus 0 l2.
Proof. induction l1 as [|x l1 IH]; simpl; [ring | rewrite IH; ring]. Qed.

Lemma fold_right_Rplus_seq (g : nat -> R) n : forall s,
  fold_right Rplus 0 (map g (seq s n)) = sum_upto n (fun k => g (s + k)%nat).
Proof.
  induction n as [|n IH]; intros s; simpl; [reflexivity|].
  rewrite Nat.add_0_r. f_equal. rewrite IH.
  apply sum_upto_ext. intros k _. f_equal. lia.
Qed.

Lemma reduce_sum_rows (row : nat -> list R) n : forall s,
  fold_right Rplus 0 (concat (map row (seq s n)))
  = sum_upto n (fun k => fold_right Rplus 0 (row (s + k)%nat)).
Proof.
  induction n as [|n IH]; intros s; simpl; [reflexivity|].
  rewrite fold_right_Rplus_app, Nat.add_0_r. f_equal. rewrite IH.
  apply sum_upto_ext. intros k _. do 2 f_equal. lia.
Qed.

(** The sum of the entries of a tabulated tensor is the double sum of its
    entries. *)
Lemma reduce_sum_tabulate B T f :
  reduce_sum (tabulate B T f) = sum_upto B (fun b => sum_upto T (f b)).
Proof.
  unfold reduce_sum, tabulate. rewrite reduce_sum_rows.
  apply sum_upto_ext. intros b _. simpl. now rewrite fold_right_Rplus_seq.
Qed.

Lemma length_concat_rows B T (t : list (list R)) :
  has_shape B T t -> length (concat t) = (B * T)%nat.
Proof.
  intros [HB Hrows]. subst B.
  induction Hrows as [|row t Hrow _ IH]; simpl; [reflexivity|].
  rewrite length_app, IH, Hrow. reflexivity.
Qed.

Lemma reduce_mean_tabulate B T f :
  reduce_mean (tabulate B T f)
  = sum_upto B (fun b => sum_upto T (f b)) / INR (B * T).
Proof.
  unfold reduce_mean.
  rewrite reduce_sum_tabulate, (length_concat_rows B T)
    by apply tabulate_shape.
  reflexivity.
Qed.

Lemma reduce_mean_tabulate_le B T f g :
  (forall b t, (b < B)%nat -> (t < T)%nat -> f b t <= g b t) ->
  reduce_mean (tabulate B T f) <= reduce_mean (tabulate B T g).
Proof.
  intros Hfg. rewrite !reduce_mean_tabulate. unfold Rdiv.
  apply Rmult_le_compat_r.
  - destruct (B * T)%nat as [|n] eqn:Hn.
    + simpl. rewrite Rinv_0. lra.
    + left. apply Rinv_0_lt_compat, lt_0_INR. lia.
  - apply sum_upto_le. intros b Hb. apply sum_upto_le. intros t Ht.
    now apply Hfg.
Qed.


(** Induction from the last timestep backwards. *)
Lemma backward_induction T (P : nat -> Prop) :
  P T -> (forall t, (t < T)%nat -> P (S t) -> P t) ->
  forall t, (t <= T)%nat -> P t.
Proof.
  intros Hend Hstep t Ht.
  remember (T - t)%nat as n eqn:Hn. revert t Ht Hn.
  induction n as [|n IH]; intros t Ht Hn.
  - assert (t = T) by lia. now subst.
  - apply Hstep; [lia|]. apply IH; lia.
Qed.

Lemma discounted_sum_step rewards discounts b t n :
  discounted_sum rewards discounts b t (S n)
  = at2 rewards b t
    + at2 discounts b t * discounted_sum rewards discounts b (S t) n.
Proof.
  unfold discounted_sum. simpl. rewrite Nat.add_0_r.
  rewrite sum_upto_scale. rewrite Rmult_1_l. f_equal.
  apply sum_upto_ext. intros k _.
  replace (t + S k)%nat with (S (t + k)) by lia. ring.
Qed.

Lemma at2_single_row (t : list (list R)) b i :
  at2 [nth b t []] 0 i = at2 t b i.
Proof. reflexivity. Qed.

Section FurtherProperties.

Context `{Collaborators}.

(** ** Returns *)

(** X1. The return is the discounted sum the recursion unrolls to:
    [R[b, t] = sum over k < T - t of
    discounts[b, t] * ... * discounts[b, t+k-1] * rewards[b, t+k]]. *)
Theorem compute_returns_discounted_sum self B T rewards discounts eps :
  (0 < B)%nat -> (0 < T)%nat ->
  has_shape B T rewards -> has_shape B T discounts ->
  exists returns,
    compute_returns self rewards discounts eps = Ok returns /\
    forall b t, (b < B)%nat -> (t < T)%nat ->
      at2 returns b t = discounted_sum rewards discounts b t (T - t).
Proof.
  intros HB HT Hr Hd.
  destruct (compute_returns_entries self B T rewards discounts eps
              HB HT Hr Hd) as [returns [Hret [Sret Rrec]]].
  exists returns. split; [exact Hret|].
  intros b t Hb Ht.
  apply (backward_induction T
           (fun t => at2 returns b t
                     = discounted_sum rewards discounts b t (T - t)));
    [| |lia].
  - rewrite (at2_outside_row B T returns) by (assumption || lia).
    now rewrite Nat.sub_diag.
  - intros s Hs IH. rewrite Rrec, IH by assumption.
    replace (T - s)%nat with (S (T - S s)) by lia.
    now rewrite discounted_sum_step.
Qed.

(** X2. Nothing after an episode boundary leaks into the returns before it:
    when the discount of row [b] is zero at step [t], the returns of that
    row up to [t] only depend on the rewards and discounts up to [t]. *)
Theorem compute_returns_stop_at_zero_discount
    self B T rewards1 discounts1 rewards2 discounts2 eps b t :
  (0 < B)%nat -> (0 < T)%nat ->
  has_shape B T rewards1 -> has_shape B T discounts1 ->
  has_shape B T rewards2 -> has_shape B T discounts2 ->
  (b < B)%nat -> (t < T)%nat ->
  at2 discounts1 b t = 0 ->
  (forall s, (s <= t)%nat ->
     at2 rewards1 b s = at2 rewards2 b s /\
     at2 discounts1 b s = at2 discounts2 b s) ->
  exists returns1 returns2,
    compute_returns self rewards1 discounts1 eps = Ok returns1 /\
    compute_returns self rewards2 discounts2 eps = Ok returns2 /\
    at2 returns1 b t = at2 rewards1 b t /\
    forall s, (s <= t)%nat -> at2 returns1 b s = at2 returns2 b s.
Proof.
  intros HB HT Hr1 Hd1 Hr2 Hd2 Hb Ht Hzero Hsame.
  destruct (compute_returns_entries self B T rewards1 discounts1 eps
              HB HT Hr1 Hd1) as [returns1 [Hret1 [_ Rrec1]]].
  destruct (compute_returns_entries self B T rewards2 discounts2 eps
              HB HT Hr2 Hd2) as [returns2 [Hret2 [_ Rrec2]]].
  exists returns1, returns2. split; [exact Hret1|]. split; [exact Hret2|].
  split.
  - rewrite Rrec1, Hzero by assumption. ring.
  - apply (backward_induction t
             (fun s => at2 returns1 b s = at2 returns2 b s)).
    + rewrite Rrec1, Rrec2 by assumption.
      destruct (Hsame t (Nat.le_refl t)) as [Hr Hd].
      rewrite <- Hd, Hzero, Hr. ring.
    + intros s Hs IH. rewrite Rrec1, Rrec2 by (assumption || lia).
      destruct (Hsame s ltac:(lia)) as [-> ->]. now rewrite IH.
Qed.

(** X3. Returns are additive in the rewards: under the same discounts, the
    returns of the sum of two reward tensors are the sum of their
    returns. *)
Theorem compute_returns_additive self B T rewards1 rewards2 discounts eps :
  (0 < B)%nat -> (0 < T)%nat ->
  has_shape B T rewards1 -> has_shape B T rewards2 ->
  has_shape B T discounts ->
  exists rewards returns1 returns2 returns,
    tf_add rewards1 rewards2 = Ok rewards /\
    compute_returns self rewards1 discounts eps = Ok returns1 /\
    compute_returns self rewards2 discounts eps = Ok returns2 /\
    compute_returns self rewards discounts eps = Ok returns /\
    tf_add returns1 returns2 = Ok returns.
Proof.
  intros HB HT Hr1 Hr2 Hd.
  pose proof (broadcast2_same_shape Rplus B T rewards1 rewards2 Hr1 Hr2)
    as Hsum.
  set (rewards := tabulate B T _) in Hsum.
  assert (Hr : has_shape B T rewards) by apply tabulate_shape.
  destruct (compute_returns_entries self B T rewards1 discounts eps
              HB HT Hr1 Hd) as [returns1 [Hret1 [S1 Rrec1]]].
  destruct (compute_returns_entries self B T rewards2 discounts eps
              HB HT Hr2 Hd) as [returns2 [Hret2 [S2 Rrec2]]].
  destruct (compute_returns_entries self B T rewards discounts eps
              HB HT Hr Hd) as [returns [Hret [S Rrec]]].
  exists rewards, returns1, returns2, returns.
  repeat (split; [assumption|]).
  unfold tf_add. rewrite (broadcast2_same_shape Rplus B T) by assumption.
  f_equal. apply (tensor_ext B T); [apply tabulate_shape | assumption |].
  intros b t Hb Ht. rewrite at2_tabulate by assumption.
  apply (backward_induction T
           (fun t => at2 returns1 b t + at2 returns2 b t = at2 returns b t));
    [| |lia].
  - rewrite !(at2_outside_row B T) by (assumption || lia). ring.
  - intros s Hs IH. rewrite Rrec1, Rrec2, Rrec by assumption.
    rewrite <- IH. unfold rewards. rewrite at2_tabulate by assumption. ring.
Qed.

(** X4. With non-negative rewards and discounts the return is at least the
    reward of the step, and so never negative. *)
Theorem compute_returns_nonnegative self B T rewards discounts eps :
  (0 < B)%nat -> (0 < T)%nat ->
  has_shape B T rewards -> has_shape B T discounts ->
  (forall b t, (b < B)%nat -> (t < T)%nat ->
     0 <= at2 rewards b t /\ 0 <= at2 discounts b t) ->
  exists returns,
    compute_returns self rewards discounts eps = Ok returns /\
    forall b t, (b < B)%nat -> (t < T)%nat ->
      0 <= at2 rewards b t <= at2 returns b t.
Proof.
  intros HB HT Hr Hd Hpos.
  destruct (compute_returns_entries self B T rewards discounts eps
              HB HT Hr Hd) as [returns [Hret [Sret Rrec]]].
  exists returns. split; [exact Hret|].
  assert (Hnonneg : forall b t, (b < B)%nat -> (t <= T)%nat ->
            0 <= at2 returns b t).
  { intros b t Hb Ht.
    apply (backward_induction T (fun t => 0 <= at2 returns b t)); [| |lia].
    - rewrite (at2_outside_row B T) by (assumption || lia). lra.
    - intros s Hs IH. rewrite Rrec by assumption.
      destruct (Hpos b s Hb Hs) as [Hrs Hds].
      pose proof (Rmult_le_pos _ _ Hds IH). lra. }
  intros b t Hb Ht. destruct (Hpos b t Hb Ht) as [Hrt Hdt].
  split; [exact Hrt|]. rewrite Rrec by assumption.
  pose proof (Rmult_le_pos _ _ Hdt (Hnonneg b (S t) Hb ltac:(lia))). lra.
Qed.

(** X5. Tensors without a timestep are refused: the seed of the scan is
    [zeros_like(rewards[0])] of the transposed rewards, and there is no
    first slice. *)
Theorem compute_returns_without_timesteps self B rewards discounts eps :
  (0 < B)%nat ->
  has_shape B 0 rewards -> has_shape B 0 discounts ->
  compute_returns self rewards discounts eps
  = Raise (InvalidArgumentError
             "slice index 0 of dimension 0 out of bounds.").
Proof.
  intros HB Hr Hd. unfold compute_returns.
  rewrite (check_shape_same B 0) by assumption. rewrite bind_Ok.
  pose proof (has_shape_shape B 0 rewards Hr HB) as Hs.
  unfold shape in Hs. injection Hs as _ Hhd.
  unfold transpose at 1. rewrite Hhd. reflexivity.
Qed.

(** X6. The rows of a batch do not interact: row [b] of the returns of a
    batch is the returns of the batch made of row [b] alone. *)
Theorem compute_returns_row_by_row self B T rewards discounts eps b :
  (0 < B)%nat -> (0 < T)%nat ->
  has_shape B T rewards -> has_shape B T discounts ->
  (b < B)%nat ->
  exists returns,
    compute_returns self rewards discounts eps = Ok returns /\
    compute_returns self [nth b rewards []] [nth b discounts []] eps
    = Ok [nth b returns []].
Proof.
  intros HB HT Hr Hd Hb.
  destruct (compute_returns_entries self B T rewards discounts eps
              HB HT Hr Hd) as [returns [Hret [Sret Rrec]]].
  exists returns. split; [exact Hret|].
  assert (Hr1 : has_shape 1 T [nth b rewards []]).
  { split; [reflexivity|]. constructor; [|constructor].
    now apply (has_shape_row B T). }
  assert (Hd1 : has_shape 1 T [nth b discounts []]).
  { split; [reflexivity|]. constructor; [|constructor].
    now apply (has_shape_row B T). }
  assert (Hrow : has_shape 1 T [nth b returns []]).
  { split; [reflexivity|]. constructor; [|constructor].
    now apply (has_shape_row B T). }
  destruct (compute_returns_entries self 1 T _ _ eps
              (Nat.lt_0_succ 0) HT Hr1 Hd1) as [row [Hrowret [Srow Rrow]]].
  rewrite Hrowret. f_equal.
  apply (tensor_ext 1 T); try assumption.
  intros b0 t Hb0 Ht. assert (b0 = 0%nat) by lia. subst b0.
  apply (backward_induction T
           (fun t => at2 row 0 t = at2 [nth b returns []] 0 t)); [| |lia].
  - rewrite !(at2_outside_row 1 T) by (assumption || lia). reflexivity.
  - intros s Hs IH. rewrite Rrow by (assumption || lia). rewrite IH.
    rewrite !at2_single_row. symmetry. now apply Rrec.
Qed.

(** ** Advantages *)

Lemma broadcast2_incompatible op B T1 T2 a b :
  (0 < B)%nat -> (2 <= T1)%nat -> (2 <= T2)%nat -> T1 <> T2 ->
  has_shape B T1 a -> has_shape B T2 b ->
  broadcast2 op a b = Raise (InvalidArgumentError "Incompatible shapes").
Proof.
  intros HB HT1 HT2 Hneq Ha Hb.
  pose proof (has_shape_row B T1 a 0 Ha HB) as Ra.
  pose proof (has_shape_row B T2 b 0 Hb HB) as Rb.
  pose proof (has_shape_length _ _ _ Ha) as La.
  pose proof (has_shape_length _ _ _ Hb) as Lb.
  unfold broadcast2.
  replace (length a =? length b)%nat with true
    by (symmetry; apply Nat.eqb_eq; lia).
  destruct a as [|ra a]; [simpl in La; lia|].
  destruct b as [|rb b]; [simpl in Lb; lia|].
  simpl in Ra, Rb. simpl. unfold broadcast1.
  replace (length ra =? length rb)%nat with false
    by (symmetry; apply Nat.eqb_neq; lia).
  destruct ra as [|x [|x' ra]]; simpl in Ra; try lia.
  destruct rb as [|y [|y' rb]]; simpl in Rb; try lia.
  reflexivity.
Qed.

(** X7. With GAE, the advantage of a step is the one-step TD residual
    [rewards + discounts * value_next - value] when [lambda] is zero, and
    at a step whose discount is zero it is [rewards - value]: nothing of the
    later steps enters. *)
Theorem compute_advantages_td_residual self B T rewards returns discounts
    value_preds :
  _use_gae self = true ->
  (0 < B)%nat -> (0 < T)%nat ->
  has_shape B T rewards -> has_shape B T returns ->
  has_shape B T discounts -> has_shape B (S T) value_preds ->
  exists advantages,
    compute_advantages self rewards returns discounts value_preds
    = Ok advantages /\
    (_lambda self = 0 ->
     forall b t, (b < B)%nat -> (t < T)%nat ->
       at2 advantages b t =
       at2 rewards b t + at2 discounts b t * at2 value_preds b (S t)
       - at2 value_preds b t) /\
    (forall b t, (b < B)%nat -> (t < T)%nat -> at2 discounts b t = 0 ->
       at2 advantages b t = at2 rewards b t - at2 value_preds b t).
Proof.
  intros Hgae HB HT Hr Hret Hd Hv.
  destruct (compute_advantages_entries self B T rewards returns discounts
              value_preds HB HT Hr Hret Hd Hv)
    as [advantages [Hadv [_ Hentries]]].
  rewrite Hgae in Hentries.
  exists advantages. split; [exact Hadv|]. split.
  - intros Hlam b t Hb Ht. rewrite Hentries, Hlam by assumption. ring.
  - intros b t Hb Ht Hzero. rewrite Hentries, Hzero by assumption. ring.
Qed.

(** X8. Value predictions without the extra bootstrap step are refused from
    three timesteps on, on both paths: [value_preds[:, :-1]] and
    [value_preds[:, 1:]] then have one step less than the rewards. *)
Theorem compute_advantages_without_bootstrap self B T rewards returns
    discounts value_preds :
  (0 < B)%nat -> (2 <= T)%nat ->
  has_shape B (S T) rewards -> has_shape B (S T) returns ->
  has_shape B (S T) discounts -> has_shape B (S T) value_preds ->
  compute_advantages self rewards returns discounts value_preds
  = Raise (InvalidArgumentError "Incompatible shapes").
Proof.
  intros HB HT Hr Hret Hd Hv. unfold compute_advantages.
  pose proof (drop_last_step_shape B T value_preds Hv) as Hlast.
  pose proof (drop_first_step_shape B T value_preds Hv) as Hfirst.
  destruct (_use_gae self); simpl.
  - unfold tf_mul.
    now rewrite (broadcast2_incompatible Rmult B (S T) T)
      by (assumption || lia).
  - unfold tf_sub.
    now rewrite (broadcast2_incompatible Rminus B (S T) T)
      by (assumption || lia).
Qed.

(** ** The estimator as a whole *)

(** What [compute_return_and_advantage] hands out when it does not replace
    the returns: the returns under the effective discount, and the
    normalized advantages of [compute_advantages]. *)
Lemma compute_return_and_advantage_entries
    self time_steps actions next_time_steps value_preds B T :
  _use_td_lambda_return self && _use_gae self = false ->
  (0 < B)%nat -> (0 < T)%nat ->
  has_shape B T (estimator_rewards self next_time_steps) ->
  has_shape B T (discount next_time_steps) ->
  has_shape B T (get_episode_mask next_time_steps) ->
  has_shape B (S T) value_preds ->
  exists discounts returns advantages warnings,
    compute_return_and_advantage self time_steps actions next_time_steps
      value_preds
    = Ok (returns, _normalize_advantages advantages 1e-8, warnings) /\
    has_shape B T discounts /\ has_shape B T returns /\
    has_shape B T advantages /\
    (forall b t, (b < B)%nat -> (t < T)%nat ->
       at2 discounts b t =
       at2 (discount next_time_steps) b t * _discount_factor self
       * at2 (get_episode_mask next_time_steps) b t) /\
    (forall b t, (b < B)%nat -> (t < T)%nat ->
       at2 returns b t =
       at2 (estimator_rewards self next_time_steps) b t
       + at2 discounts b t * at2 returns b (S t)) /\
    compute_advantages self (estimator_rewards self next_time_steps)
      returns discounts value_preds = Ok advantages.
Proof.
  intros Hflags HB HT Hr Hd Hm Hv.
  unfold compute_return_and_advantage.
  fold (estimator_rewards self next_time_steps).
  set (rewards := estimator_rewards self next_time_steps) in *.
  pose proof (scale_shape B T (_discount_factor self) _ Hd) as Hscaled.
  unfold tf_mul.
  rewrite (broadcast2_same_shape Rmult B T) by assumption.
  rewrite bind_Ok.
  set (discounts := tabulate B T _).
  assert (Hdisc : has_shape B T discounts) by apply tabulate_shape.
  assert (Edisc : forall b t, (b < B)%nat -> (t < T)%nat ->
            at2 discounts b t =
            at2 (discount next_time_steps) b t * _discount_factor self
            * at2 (get_episode_mask next_time_steps) b t).
  { intros b t Hb Ht. unfold discounts. rewrite at2_tabulate by assumption.
    unfold scale. rewrite (map_map_tabulate B T) by assumption.
    now rewrite at2_tabulate by assumption. }
  destruct (compute_returns_entries self B T rewards discounts
              default_norm_variance_epsilon)
    as [returns [Hret [Sret Rrec]]]; try assumption.
  rewrite Hret, bind_Ok.
  destruct (compute_advantages_entries self B T rewards returns discounts
              value_preds)
    as [advantages [Hadv [Sadv _]]]; try assumption.
  rewrite Hadv, bind_Ok.
  exists discounts, returns, advantages.
  destruct (_use_td_lambda_return self); simpl in Hflags.
  - rewrite Hflags. simpl. eexists. repeat (split; [eassumption || reflexivity|]).
    assumption.
  - eexists. repeat (split; [eassumption || reflexivity|]). assumption.
Qed.

(** X12. The returns that [compute_return_and_advantage] gives obey the
    recursion under the effective discount, the environment discount times
    the discount factor times the episode mask; where the episode mask is
    zero the return is the reward of the step. The rewards are the
    normalized ones when the agent normalizes rewards. *)
Theorem compute_return_and_advantage_effective_discount
    self time_steps actions next_time_steps value_preds B T :
  _use_td_lambda_return self && _use_gae self = false ->
  (0 < B)%nat -> (0 < T)%nat ->
  has_shape B T (estimator_rewards self next_time_steps) ->
  has_shape B T (discount next_time_steps) ->
  has_shape B T (get_episode_mask next_time_steps) ->
  has_shape B (S T) value_preds ->
  exists returns normalized_advantages warnings,
    compute_return_and_advantage self time_steps actions next_time_steps
      value_preds = Ok (returns, normalized_advantages, warnings) /\
    (forall b t, (b < B)%nat -> (t < T)%nat ->
       at2 returns b t =
       at2 (estimator_rewards self next_time_steps) b t
       + at2 (discount next_time_steps) b t * _discount_factor self
         * at2 (get_episode_mask next_time_steps) b t
         * at2 returns b (S t)) /\
    (forall b t, (b < B)%nat -> (t < T)%nat ->
       at2 (get_episode_mask next_time_steps) b t = 0 ->
       at2 returns b t = at2 (estimator_rewards self next_time_steps) b t).
Proof.
  intros Hflags HB HT Hr Hd Hm Hv.
  destruct (compute_return_and_advantage_entries self time_steps actions
              next_time_steps value_preds B T Hflags HB HT Hr Hd Hm Hv)
    as [discounts [returns [advantages [warnings
         [Hcall [_ [_ [_ [Edisc [Rrec _]]]]]]]]]].
  exists returns, (_normalize_advantages advantages 1e-8), warnings.
  split; [exact Hcall|]. split.
  - intros b t Hb Ht. rewrite Rrec, Edisc by assumption. reflexivity.
  - intros b t Hb Ht Hzero. rewrite Rrec, Edisc, Hzero by assumption. ring.
Qed.

(** ** The policy gradient loss *)

Lemma clip_above x lo hi : hi <= x -> lo <= hi -> clip x lo hi = hi.
Proof.
  intros Hx Hlh. unfold clip. rewrite Rmin_right by lra. now apply Rmax_left.
Qed.



(** X15. When the current policy gives the actions the log-probabilities
    of the collection policy, and these are not cut by the log-probability
    clipping, the importance ratio is one and the loss is
    [- mean(advantages * mask)], whatever the ratio clipping is. *)
Theorem policy_gradient_loss_on_policy self time_steps actions
    sample_action_log_probs advantages current_policy_distribution
    valid_mask B T :
  (0 < B)%nat -> (0 < T)%nat ->
  log_probability current_policy_distribution actions
  = sample_action_log_probs ->
  has_shape B T sample_action_log_probs ->
  has_shape B T advantages ->
  has_shape B T valid_mask ->
  (_log_prob_clipping self <= 0 \/
   forall b t, (b < B)%nat -> (t < T)%nat ->
     - _log_prob_clipping self <= at2 sample_action_log_probs b t
     <= _log_prob_clipping self) ->
  policy_gradient_loss self time_steps actions sample_action_log_probs
    advantages current_policy_distribution valid_mask
  = Ok (- reduce_mean (tabulate B T (fun b t =>
          at2 advantages b t * at2 valid_mask b t))).
Proof.
  intros _ _ Hsame Hold Hadv Hmask Hclip.
  rewrite (policy_gradient_loss_entries self _ _ _ _ _ _ B T)
    by (rewrite ?Hsame; assumption).
  rewrite Hsame. do 3 f_equal. apply tabulate_ext. intros b t Hb Ht.
  f_equal.
  assert (Hratio : importance_ratio_at self (at2 sample_action_log_probs b t)
                     (at2 sample_action_log_probs b t) = 1).
  { unfold importance_ratio_at. unfold Rltb.
    destruct (Rlt_dec 0 (_log_prob_clipping self)) as [Hc|Hc].
    - destruct Hclip as [Hoff|Hin]; [lra|].
      rewrite clip_inside by (apply Hin; assumption).
      rewrite Rminus_diag. apply exp_0.
    - rewrite Rminus_diag. apply exp_0. }
  rewrite Hratio. unfold surrogate_objective, Rltb.
  destruct (Rlt_dec 0 (_importance_ratio_clipping self)) as [He|He].
  - rewrite clip_inside by lra. rewrite Rmin_left; lra.
  - ring.
Qed.

(** X16. With the ratio clipping on, the per-timestep loss does not move
    with the ratio beyond the bounds on the side the advantage favours: it
    is [- (1 + epsilon) * A] where [A >= 0] and the ratio is at least
    [1 + epsilon], and [- (1 - epsilon) * A] where [A <= 0] and the ratio is
    at most [1 - epsilon]. *)
Theorem policy_gradient_per_timestep_saturates self actions
    sample_action_log_probs advantages current_policy_distribution B T :
  0 < _importance_ratio_clipping self ->
  (0 < B)%nat -> (0 < T)%nat ->
  has_shape B T (log_probability current_policy_distribution actions) ->
  has_shape B T sample_action_log_probs ->
  has_shape B T advantages ->
  exists loss,
    policy_gradient_per_timestep self actions sample_action_log_probs
      advantages current_policy_distribution = Ok loss /\
    forall b t, (b < B)%nat -> (t < T)%nat ->
      let ratio :=
        importance_ratio_at self
          (at2 (log_probability current_policy_distribution actions) b t)
          (at2 sample_action_log_probs b t) in
      (0 <= at2 advantages b t ->
       1 + _importance_ratio_clipping self <= ratio ->
       at2 loss b t
       = - ((1 + _importance_ratio_clipping self) * at2 advantages b t)) /\
      (at2 advantages b t <= 0 ->
       ratio <= 1 - _importance_ratio_clipping self ->
       at2 loss b t
       = - ((1 - _importance_ratio_clipping self) * at2 advantages b t)).
Proof.
  intros Heps _ _ Hnew Hold Hadv.
  rewrite (policy_gradient_per_timestep_entries self _ _ _ _ B T)
    by assumption.
  eexists. split; [reflexivity|].
  intros b t Hb Ht ratio. rewrite at2_tabulate by assumption.
  fold ratio. unfold surrogate_objective.
  rewrite (Rltb_true _ _ Heps). split.
  - intros HA Hr. rewrite clip_above by lra. f_equal.
    apply Rmin_right. apply Rmult_le_compat_r; lra.
  - intros HA Hr. rewrite clip_below by lra. f_equal.
    apply Rmin_right. nra.
Qed.

(** ** The other losses *)



(** X18. Where the entropy and the mask have no negative entry, the entropy
    regularization never raises the total loss: its loss is at most zero. *)
Theorem entropy_regularization_loss_is_a_bonus self time_steps
    current_policy_distribution valid_mask B T :
  (0 < B)%nat -> (0 < T)%nat ->
  has_shape B T (entropy current_policy_distribution) ->
  has_shape B T valid_mask ->
  (forall b t, (b < B)%nat -> (t < T)%nat ->
     0 <= at2 (entropy current_policy_distribution) b t /\
     0 <= at2 valid_mask b t) ->
  exists loss,
    entropy_regularization_loss self time_steps current_policy_distribution
      valid_mask = Ok loss /\
    loss <= 0.
Proof.
  intros _ _ Hent Hmask Hpos. unfold entropy_regularization_loss, Rltb.
  destruct (Rlt_dec 0 (_entropy_regularization self)) as [Hcoef|Hcoef].
  - unfold tf_mul, tf_neg.
    rewrite (map_map_tabulate B T) by assumption.
    rewrite (broadcast2_same_shape _ B T)
      by (try assumption; apply tabulate_shape).
    rewrite bind_Ok. eexists. split; [reflexivity|].
    assert (Hmean : reduce_mean
                      (tabulate B T (fun i j =>
                         at2 (tabulate B T (fun b t =>
                                - at2 (entropy current_policy_distribution)
                                    b t)) i j
                         * at2 valid_mask i j)) <= 0).
    { rewrite <- (reduce_mean_zeros B T). unfold zeros.
      apply reduce_mean_tabulate_le. intros b t Hb Ht.
      rewrite at2_tabulate by assumption.
      destruct (Hpos b t Hb Ht) as [He Hm]. nra. }
    nra.
  - exists 0. split; [reflexivity | lra].
Qed.

Lemma fold_right_Rplus_scale c l :
  fold_right Rplus 0 (map (fun v => v * c) l) = fold_right Rplus 0 l * c.
Proof. induction l as [|x l IH]; simpl; [ring | rewrite IH; ring]. Qed.

(** X19. The L2 loss is zero when neither coefficient is positive; with a
    positive coefficient it is the policy coefficient times the squares of
    the actor kernels plus the value coefficient times the squares of the
    value kernels, and it is refused when the networks have no kernel at
    all, as there is nothing to add up. *)
Theorem l2_regularization_loss_cases self :
  (_policy_l2_reg self <= 0 -> _value_function_l2_reg self <= 0 ->
   l2_regularization_loss self = Ok 0) /\
  (0 < _policy_l2_reg self \/ 0 < _value_function_l2_reg self ->
   (actor_kernel_square_sums (trainable_weights self) = [] ->
    value_kernel_square_sums (trainable_weights self) = [] ->
    l2_regularization_loss self
    = Raise (ValueError "inputs must be a list of at least one Tensor")) /\
   (actor_kernel_square_sums (trainable_weights self)
    ++ value_kernel_square_sums (trainable_weights self) <> [] ->
    l2_regularization_loss self
    = Ok (fold_right Rplus 0
            (actor_kernel_square_sums (trainable_weights self))
          * _policy_l2_reg self
          + fold_right Rplus 0
              (value_kernel_square_sums (trainable_weights self))
            * _value_function_l2_reg self))).
Proof.
  unfold l2_regularization_loss. split.
  - intros Hp Hv. rewrite !Rltb_false by lra. reflexivity.
  - intros Hon.
    assert (Hcond : Rltb 0 (_policy_l2_reg self)
                    || Rltb 0 (_value_function_l2_reg self) = true).
    { destruct Hon as [Hp|Hv].
      - now rewrite (Rltb_true _ _ Hp).
      - rewrite (Rltb_true _ _ Hv). apply orb_true_r. }
    rewrite Hcond. split.
    + intros -> ->. reflexivity.
    + intros Hkernels.
      set (a := actor_kernel_square_sums _) in *.
      set (v := value_kernel_square_sums _) in *.
      rewrite <- !fold_right_Rplus_scale, <- fold_right_Rplus_app.
      destruct (map _ a ++ map _ v) eqn:Hl; [|reflexivity].
      apply app_eq_nil in Hl as [Ha Hv].
      apply map_eq_nil in Ha, Hv. subst a v.
      rewrite Ha, Hv in Hkernels. now contradiction Hkernels.
Qed.


(** ** The adaptive KL coefficient over several updates *)

Lemma floor_positive : 0 < 10e-16.
Proof. lra. Qed.

(** The update of an enabled controller whose bound checks exclude each
    other: it succeeds, and the new beta is the old one times 1/1.5, 1.5 or
    1, held at the floor. *)
Lemma update_adaptive_kl_beta_enabled self beta kl_divergence :
  _adaptive_kl_beta self = Some beta ->
  0 <= _adaptive_kl_target self * _adaptive_kl_tolerance self ->
  exists beta',
    update_adaptive_kl_beta self kl_divergence
    = Ok (set_adaptive_kl_beta self (Some beta')) /\
    (beta' = Rmax (beta / 1.5) 10e-16 \/ beta' = Rmax (beta * 1.5) 10e-16
     \/ beta' = Rmax beta 10e-16).
Proof.
  intros Hbeta Hsign.
  destruct (update_adaptive_kl_beta_cases self beta kl_divergence Hbeta)
    as [Hbelow [Habove [Hband _]]]. cbv zeta in *.
  set (mean_kl := reduce_mean kl_divergence) in *.
  destruct (Rlt_dec mean_kl
              (_adaptive_kl_target self
               * (1.0 - _adaptive_kl_tolerance self))) as [Hlo|Hlo];
    destruct (Rlt_dec (_adaptive_kl_target self
                       * (1.0 + _adaptive_kl_tolerance self)) mean_kl)
      as [Hup|Hup].
  - exfalso. lra.
  - eexists. split; [now apply Hbelow | now left].
  - eexists. split; [now apply Habove | right; now left].
  - eexists. split; [now apply Hband | right; now right].
Qed.

(** X21. An update never disables the controller and never moves beta far:
    the new beta is at least the floor [1e-15], and when the old beta is at
    least the floor the new one lies between [beta / 1.5] and
    [beta * 1.5]. Only the beta variable changes. *)
Theorem update_adaptive_kl_beta_keeps_floor self beta kl_divergence :
  _adaptive_kl_beta self = Some beta ->
  0 <= _adaptive_kl_target self * _adaptive_kl_tolerance self ->
  exists beta',
    update_adaptive_kl_beta self kl_divergence
    = Ok (set_adaptive_kl_beta self (Some beta')) /\
    10e-16 <= beta' /\
    (10e-16 <= beta -> beta / 1.5 <= beta' <= beta * 1.5).
Proof.
  intros Hbeta Hsign.
  destruct (update_adaptive_kl_beta_enabled self beta kl_divergence
              Hbeta Hsign) as [beta' [Hupdate Hcases]].
  exists beta'. split; [exact Hupdate|].
  pose proof floor_positive as Hfloor.
  split.
  - destruct Hcases as [-> | [-> | ->]]; apply Rmax_r.
  - intros Hge.
    destruct Hcases as [-> | [-> | ->]]; unfold Rmax;
      destruct (Rle_dec _ _); lra.
Qed.

(** X22. One step down and one step up cancel: for a beta of at least 1.5
    times the floor, an update with a mean KL below the band followed by an
    update with a mean KL above it gives the agent back as it was, and so
    does a step up followed by a step down for a beta of at least the
    floor. *)
Theorem update_adaptive_kl_beta_down_and_up self beta kl_low kl_high :
  _adaptive_kl_beta self = Some beta ->
  0 <= _adaptive_kl_target self * _adaptive_kl_tolerance self ->
  reduce_mean kl_low
  < _adaptive_kl_target self * (1.0 - _adaptive_kl_tolerance self) ->
  _adaptive_kl_target self * (1.0 + _adaptive_kl_tolerance self)
  < reduce_mean kl_high ->
  (1.5 * 10e-16 <= beta ->
   exists lowered,
     update_adaptive_kl_beta self kl_low = Ok lowered /\
     _adaptive_kl_beta lowered = Some (beta / 1.5) /\
     update_adaptive_kl_beta lowered kl_high = Ok self) /\
  (10e-16 <= beta ->
   exists raised,
     update_adaptive_kl_beta self kl_high = Ok raised /\
     _adaptive_kl_beta raised = Some (beta * 1.5) /\
     update_adaptive_kl_beta raised kl_low = Ok self).
Proof.
  intros Hbeta Hsign Hlow Hhigh.
  assert (Hself : forall x, set_adaptive_kl_beta
                              (set_adaptive_kl_beta self x) (Some beta)
                            = self).
  { intros x. destruct self. simpl in Hbeta. now subst. }
  split.
  - intros Hge.
    destruct (update_adaptive_kl_beta_cases self beta kl_low Hbeta)
      as [Hbelow _]. cbv zeta in Hbelow.
    rewrite Rmax_left in Hbelow by lra.
    exists (set_adaptive_kl_beta self (Some (beta / 1.5))).
    split; [apply Hbelow; lra|]. split; [reflexivity|].
    destruct (update_adaptive_kl_beta_cases
                (set_adaptive_kl_beta self (Some (beta / 1.5)))
                (beta / 1.5) kl_high eq_refl) as [_ [Habove _]].
    cbv zeta in Habove. simpl in Habove.
    rewrite Habove by lra.
    rewrite Rmax_left by lra.
    replace (beta / 1.5 * 1.5) with beta by lra. now rewrite Hself.
  - intros Hge.
    destruct (update_adaptive_kl_beta_cases self beta kl_high Hbeta)
      as [_ [Habove _]]. cbv zeta in Habove.
    rewrite Rmax_left in Habove by lra.
    exists (set_adaptive_kl_beta self (Some (beta * 1.5))).
    split; [apply Habove; lra|]. split; [reflexivity|].
    destruct (update_adaptive_kl_beta_cases
                (set_adaptive_kl_beta self (Some (beta * 1.5)))
                (beta * 1.5) kl_low eq_refl) as [Hbelow _].
    cbv zeta in Hbelow. simpl in Hbelow.
    rewrite Hbelow by lra.
    rewrite Rmax_left by lra.
    replace (beta * 1.5 / 1.5) with beta by lra. now rewrite Hself.
Qed.

(** ** Construction *)

(** X23. The switches of [__init__]: an agent built with
    [initial_adaptive_kl_beta <= 0] has no controller, its beta update
    leaves it as it is and its adaptive KL loss is zero; built with
    [kl_cutoff_factor <= 0] as well, its whole KL penalty is zero. A
    positive initial value makes a controller that starts there. *)
Theorem init_switches networks fresh_reward_normalizer
    fresh_observation_normalizer importance_ratio_clipping lambda_value
    discount_factor entropy_regularization policy_l2_reg
    value_function_l2_reg value_pred_loss_coef num_epochs use_gae
    use_td_lambda_return normalize_rewards reward_norm_clipping
    normalize_observations log_prob_clipping kl_cutoff_factor kl_cutoff_coef
    initial_adaptive_kl_beta adaptive_kl_target adaptive_kl_tolerance :
  let self :=
    __init__ networks fresh_reward_normalizer fresh_observation_normalizer
      importance_ratio_clipping lambda_value discount_factor
      entropy_regularization policy_l2_reg value_function_l2_reg
      value_pred_loss_coef num_epochs use_gae use_td_lambda_return
      normalize_rewards reward_norm_clipping normalize_observations
      log_prob_clipping kl_cutoff_factor kl_cutoff_coef
      initial_adaptive_kl_beta adaptive_kl_target adaptive_kl_tolerance in
  (0 < initial_adaptive_kl_beta ->
   _adaptive_kl_beta self = Some initial_adaptive_kl_beta) /\
  (initial_adaptive_kl_beta <= 0 ->
   _adaptive_kl_beta self = None /\
   (forall kl_divergence,
      update_adaptive_kl_beta self kl_divergence = Ok self /\
      adaptive_kl_loss self kl_divergence = 0) /\
   (kl_cutoff_factor <= 0 ->
    forall time_steps action_distribution_parameters
      current_policy_distribution valid_mask B T,
      has_shape B T
        (_kl_divergence self time_steps action_distribution_parameters
           current_policy_distribution) ->
      has_shape B T valid_mask ->
      kl_penalty_loss self time_steps action_distribution_parameters
        current_policy_distribution valid_mask = Ok 0)).
Proof.
  cbv zeta. split.
  - intros Hpos. simpl. unfold create_adaptive_kl_beta.
    now rewrite (Rltb_true _ _ Hpos).
  - intros Hoff.
    assert (Hnone : create_adaptive_kl_beta initial_adaptive_kl_beta = None).
    { unfold create_adaptive_kl_beta. rewrite Rltb_false; [reflexivity|lra]. }
    split; [exact Hnone|]. split.
    + intros kl. unfold update_adaptive_kl_beta, adaptive_kl_loss. simpl.
      now rewrite Hnone.
    + intros Hfactor time_steps params dist mask B T Hkl Hmask.
      unfold kl_penalty_loss, tf_mul.
      rewrite (broadcast2_same_shape _ B T) by assumption. rewrite bind_Ok.
      unfold kl_cutoff_loss, adaptive_kl_loss. simpl.
      rewrite Hnone, (Rleb_true _ _ Hfactor). f_equal. ring.
Qed.

(** ** Epochs and the training call *)


(** X25. Epochs compose: running [m + n] epochs is running [m] epochs and
    then [n] more on the agent they leave, numbered from [i_epoch + m];
    the losses and the train ops follow one another. An epoch that fails in
    the second part fails the whole. *)
Theorem run_epochs_compose time_steps actions act_log_probs returns
    normalized_advantages params valid_mask n m :
  forall i_epoch self self1 losses1 trace1,
  run_epochs m i_epoch self time_steps actions act_log_probs returns
    normalized_advantages params valid_mask = Ok (self1, losses1, trace1) ->
  run_epochs (m + n) i_epoch self time_steps actions act_log_probs returns
    normalized_advantages params valid_mask
  = match run_epochs n (i_epoch + m) self1 time_steps actions act_log_probs
            returns normalized_advantages params valid_mask with
    | Ok (self2, losses2, trace2) =>
        Ok (self2, losses1 ++ losses2, trace1 ++ trace2)
    | Raise e => Raise e
    end.
Proof.
  induction m as [|m IH]; intros i_epoch self self1 losses1 trace1 Hfirst.
  - simpl in Hfirst. injection Hfirst as <- <- <-.
    rewrite Nat.add_0_r. simpl.
    destruct (run_epochs n i_epoch self _ _ _ _ _ _ _)
      as [[[self2 losses2] trace2]|e]; reflexivity.
  - simpl in Hfirst. simpl.
    destruct (build_train_op self _ _ _ _ _ _ _) as [[self' losses]|e];
      [|discriminate].
    simpl in Hfirst. simpl.
    destruct (run_epochs m (S i_epoch) self' _ _ _ _ _ _ _)
      as [[[selfm lossesm] tracem]|e] eqn:Hm; [|discriminate].
    simpl in Hfirst. injection Hfirst as <- <- <-.
    rewrite (IH (S i_epoch) self' selfm lossesm tracem Hm).
    replace (S i_epoch + m)%nat with (i_epoch + S m)%nat by lia.
    destruct (run_epochs n (i_epoch + S m) selfm _ _ _ _ _ _ _)
      as [[[self2 losses2] trace2]|e]; reflexivity.
Qed.

(** X26. A training call with [num_epochs = 0] never returns a train op,
    whatever the trajectory: the loop over the epochs does not run, no
    epoch reports a loss, and what follows the loop cannot be built from an
    empty list of losses. *)
Theorem train_from_experience_without_epochs self experience :
  _num_epochs self = 0%nat ->
  exists e, train_from_experience self experience = Raise e.
Proof.
  intros Hepochs. unfold train_from_experience.
  destruct (to_transition _ _) as [[time_steps policy_steps_] next_time_steps].
  destruct (compute_return_and_advantage _ _ _ _ _)
    as [[[returns normalized_advantages] warnings]|e];
    [|exists e; reflexivity].
  rewrite bind_Ok, Hepochs. simpl.
  destruct (after_update_epochs _ _ _ _) as [[final final_trace]|e];
    [|exists e; reflexivity].
  simpl. eexists. reflexivity.
Qed.

(** X27. A training call on a well-shaped trajectory changes the trainable
    weights, the beta variable and the state of the normalizers, and
    nothing else: every constructor argument the agent stores is as before,
    the controller is enabled after the call exactly when it was before,
    and so is each normalizer. *)
Theorem train_from_experience_frame self experience B T
    time_steps policy_steps_ next_time_steps :
  to_transition (all_but_last experience) (all_but_first experience)
  = (time_steps, policy_steps_, next_time_steps) ->
  well_shaped_experience self experience B T ->
  (0 < B)%nat -> (0 < T)%nat -> (0 < _num_epochs self)%nat ->
  _use_td_lambda_return self && _use_gae self = false ->
  0 <= _adaptive_kl_target self * _adaptive_kl_tolerance self ->
  exists final trace,
    train_from_experience self experience = Ok (final, trace) /\
    _importance_ratio_clipping final = _importance_ratio_clipping self /\
    _lambda final = _lambda self /\
    _discount_factor final = _discount_factor self /\
    _policy_l2_reg final = _policy_l2_reg self /\
    _value_function_l2_reg final = _value_function_l2_reg self /\
    _entropy_regularization final = _entropy_regularization self /\
    _value_pred_loss_coef final = _value_pred_loss_coef self /\
    _use_gae final = _use_gae self /\
    _use_td_lambda_return final = _use_td_lambda_return self /\
    _num_epochs final = _num_epochs self /\
    _log_prob_clipping final = _log_prob_clipping self /\
    _kl_cutoff_factor final = _kl_cutoff_factor self /\
    _kl_cutoff_coef final = _kl_cutoff_coef self /\
    _adaptive_kl_target final = _adaptive_kl_target self /\
    _adaptive_kl_tolerance final = _adaptive_kl_tolerance self /\
    _reward_norm_clipping final = _reward_norm_clipping self /\
    (_adaptive_kl_beta final = None <-> _adaptive_kl_beta self = None) /\
    (_reward_normalizer final = None <-> _reward_normalizer self = None) /\
    (_observation_normalizer final = None
     <-> _observation_normalizer self = None) /\
    length trace = (_num_epochs self + length (final_trace self))%nat.
Proof.
  intros Htrans Hwell HB HT Hepochs Hflags Hsign.
  destruct (train_from_experience_runs self experience B T time_steps
              policy_steps_ next_time_steps Htrans Hwell HB HT Hepochs
              Hflags Hsign)
    as [returns [nadv [warnings [losses [beta' [_ [_ [Hupdate Hcall]]]]]]]].
  cbv zeta in Hupdate, Hcall.
  do 2 eexists. split; [exact Hcall|].
  cbn [_importance_ratio_clipping _lambda _discount_factor _policy_l2_reg
       _value_function_l2_reg _entropy_regularization _value_pred_loss_coef
       _use_gae _use_td_lambda_return _num_epochs _log_prob_clipping
       _kl_cutoff_factor _kl_cutoff_coef _adaptive_kl_target
       _adaptive_kl_tolerance _reward_norm_clipping _adaptive_kl_beta
       _reward_normalizer _observation_normalizer
       set_normalizers set_adaptive_kl_beta set_trainable_weights].
  repeat (split; [reflexivity|]).
  split; [|split; [|split]].
  - destruct (_adaptive_kl_beta self) as [beta|] eqn:Hbeta.
    + set (trained := set_trainable_weights self _) in Hupdate.
      destruct (update_adaptive_kl_beta_enabled trained beta
                  (nested_kl_divergence
                     (get_distribution_from_params_and_classes
                        (info policy_steps_))
                     (policy_distribution (trainable_weights trained)
                        (_observation_normalizer self) time_steps))
                  Hbeta Hsign) as [b' [Hupdate' _]].
      unfold trained in Hupdate' at 2.
      cbn [trainable_weights set_trainable_weights] in Hupdate'.
      fold trained in Hupdate'. rewrite Hupdate' in Hupdate.
      injection Hupdate as Hb. rewrite <- Hb. split; discriminate.
    + set (trained := set_trainable_weights self _) in Hupdate.
      rewrite (update_adaptive_kl_beta_disabled trained) in Hupdate
        by exact Hbeta.
      injection Hupdate as Hb.
      assert (Hb' : _adaptive_kl_beta trained
                    = _adaptive_kl_beta (set_adaptive_kl_beta trained beta'))
        by now rewrite <- Hb.
      cbn [_adaptive_kl_beta set_adaptive_kl_beta] in Hb'.
      unfold trained in Hb'.
      cbn [_adaptive_kl_beta set_trainable_weights] in Hb'.
      rewrite Hbeta in Hb'. now rewrite <- Hb'.
  - destruct (_reward_normalizer self); simpl; split;
      (discriminate || reflexivity).
  - destruct (_observation_normalizer self); simpl; split;
      (discriminate || reflexivity).
  - rewrite length_app, length_map, length_seq. reflexivity.
Qed.

End FurtherProperties.

(** ** The mask and a timestep that has overflowed *)

Lemma float_sum_with_nan l :
  In Float32.NaN l ->
  fold_right Float32.fadd (Float32.Finite 0) l = Float32.NaN.
Proof.
  induction l as [|v l IH]; intros Hin; [contradiction|].
  simpl. destruct Hin as [-> | Hin]; [reflexivity|].
  rewrite IH by exact Hin. now destruct v.
Qed.

(** A mask of zeros over a tensor with an entry that is not finite: the
    entry becomes NaN and so does the mean. *)
Lemma float_reduce_mean_of_masked_overflow B T a :
  Float32.has_shape B T a ->
  Exists (Exists (fun v => Float32.is_finite v = false)) a ->
  exists m,
    Float32.tf_mul a (Float32.of_tensor (zeros B T)) = Ok m /\
    Float32.reduce_mean m = Float32.NaN.
Proof.
  intros Hshape Hsome. unfold Float32.tf_mul. rewrite of_tensor_zeros.
  rewrite (float_broadcast2_constant Float32.fmul (Float32.Finite 0)
             (fun _ => True)
             (fun v => Float32.fmul v (Float32.Finite 0)) B T a
             (fun x _ => eq_refl) Hshape (float_all_True a)).
  eexists. split; [reflexivity|].
  unfold Float32.reduce_mean, Float32.reduce_sum.
  rewrite float_sum_with_nan; [reflexivity|].
  apply Exists_exists in Hsome. destruct Hsome as [row [Hrow Hsome]].
  apply Exists_exists in Hsome. destruct Hsome as [v [Hv Hnot]].
  apply in_concat. exists (map (fun v => Float32.fmul v (Float32.Finite 0)) row).
  split.
  - apply in_map_iff. now exists row.
  - apply in_map_iff. exists v. split; [|exact Hv].
    now apply fmul_zero_not_finite.
Qed.

Section MaskedOverflow.

Context `{Collaborators}.

(** X28. The mask does not neutralise a timestep that has overflowed: when
    some per-timestep value of the policy gradient loss is an infinity, the
    loss under a mask of zeros is NaN, since [inf * 0] is NaN; when every
    per-timestep value is finite it is zero. *)
Theorem policy_gradient_loss_of_masked_overflow self time_steps actions
    sample_action_log_probs advantages current_policy_distribution B T :
  (0 < B)%nat -> (0 < T)%nat ->
  has_shape B T (log_probability current_policy_distribution actions) ->
  has_shape B T sample_action_log_probs ->
  has_shape B T advantages ->
  exists per_timestep,
    Float32.policy_gradient_per_timestep self actions
      sample_action_log_probs advantages current_policy_distribution
    = Ok per_timestep /\
    (Float32.all_finite per_timestep ->
     Float32.policy_gradient_loss self time_steps actions
       sample_action_log_probs advantages current_policy_distribution
       (zeros B T) = Ok (Float32.Finite 0)) /\
    (Exists (Exists (fun v => Float32.is_infinite v = true)) per_timestep ->
     Float32.policy_gradient_loss self time_steps actions
       sample_action_log_probs advantages current_policy_distribution
       (zeros B T) = Ok Float32.NaN).
Proof.
  intros HB HT Hnew Hold Hadv.
  destruct (float_policy_gradient_per_timestep_runs self actions
              sample_action_log_probs advantages
              current_policy_distribution B T Hnew Hold Hadv)
    as [per_timestep [Hrun [Sloss _]]].
  exists per_timestep. split; [exact Hrun|].
  unfold Float32.policy_gradient_loss. rewrite Hrun, bind_Ok. split.
  - intros Hfinite. rewrite (float_mask_of_zeros B T), bind_Ok
      by assumption.
    now rewrite float_reduce_mean_zeros.
  - intros Hsome.
    assert (Hnot : Exists (Exists (fun v => Float32.is_finite v = false))
                     per_timestep).
    { eapply Exists_impl; [|exact Hsome]. intros row Hrow.
      eapply Exists_impl; [|exact Hrow]. intros v Hv. now destruct v. }
    destruct (float_reduce_mean_of_masked_overflow B T per_timestep
                Sloss Hnot) as [m [Hm Hmean]].
    now rewrite Hm, bind_Ok, Hmean.
Qed.

End MaskedOverflow.

(** ** Concrete runs of the further properties *)

Ltac entry b t :=
  destruct b as [|[|b]]; try lia;
  destruct t as [|[|[|t]]]; try lia;
  unfold at2; simpl; try lra; try (split; lra); try (split; reflexivity).

Lemma example_network_outputs_shaped :
  network_outputs_shaped example_agent example_time_steps tt
    example_parameters 1 2.
Proof. exact (proj2 (proj2 (proj2 (proj2 (proj2 (proj2
         example_experience_well_shaped)))))). Qed.

Lemma compute_returns_discounted_sum_witness :
  exists returns,
    compute_returns example_agent [[1; 1; 1]] [[1; 1; 0]]
      default_norm_variance_epsilon = Ok returns /\
    forall b t, (b < 1)%nat -> (t < 3)%nat ->
      at2 returns b t = discounted_sum [[1; 1; 1]] [[1; 1; 0]] b t (3 - t).
Proof.
  apply (compute_returns_discounted_sum example_agent 1 3
           [[1; 1; 1]] [[1; 1; 0]] default_norm_variance_epsilon);
    [lia | lia | shape | shape].
Defined.

Lemma compute_returns_stop_at_zero_discount_witness :
  at2 [[1; 0; 1]] 0 1 = 0 /\
  exists returns1 returns2,
    compute_returns example_agent [[1; 1; 1]] [[1; 0; 1]]
      default_norm_variance_epsilon = Ok returns1 /\
    compute_returns example_agent [[1; 1; 5]] [[1; 0; 0.5]]
      default_norm_variance_epsilon = Ok returns2 /\
    at2 returns1 0 1 = at2 [[1; 1; 1]] 0 1 /\
    forall s, (s <= 1)%nat -> at2 returns1 0 s = at2 returns2 0 s.
Proof.
  split; [reflexivity|].
  apply (compute_returns_stop_at_zero_discount example_agent 1 3
           [[1; 1; 1]] [[1; 0; 1]] [[1; 1; 5]] [[1; 0; 0.5]]
           default_norm_variance_epsilon 0 1);
    [lia | lia | shape | shape | shape | shape | lia | lia | reflexivity |].
  intros s Hs. destruct s as [|[|s]]; [split; reflexivity .. | lia].
Defined.

Lemma compute_returns_additive_witness :
  exists rewards returns1 returns2 returns,
    tf_add [[1; 1]] [[2; 3]] = Ok rewards /\
    compute_returns example_agent [[1; 1]] [[1; 0.5]]
      default_norm_variance_epsilon = Ok returns1 /\
    compute_returns example_agent [[2; 3]] [[1; 0.5]]
      default_norm_variance_epsilon = Ok returns2 /\
    compute_returns example_agent rewards [[1; 0.5]]
      default_norm_variance_epsilon = Ok returns /\
    tf_add returns1 returns2 = Ok returns.
Proof.
  apply (compute_returns_additive example_agent 1 2 [[1; 1]] [[2; 3]]
           [[1; 0.5]] default_norm_variance_epsilon);
    [lia | lia | shape | shape | shape].
Defined.

Lemma compute_returns_nonnegative_witness :
  exists returns,
    compute_returns example_agent [[1; 2]] [[1; 0.5]]
      default_norm_variance_epsilon = Ok returns /\
    forall b t, (b < 1)%nat -> (t < 2)%nat ->
      0 <= at2 [[1; 2]] b t <= at2 returns b t.
Proof.
  apply (compute_returns_nonnegative example_agent 1 2 [[1; 2]] [[1; 0.5]]
           default_norm_variance_epsilon);
    [lia | lia | shape | shape |].
  intros b t Hb Ht. entry b t.
Defined.

Lemma compute_returns_without_timesteps_witness :
  has_shape 1 0 [[]] /\
  compute_returns example_agent [[]] [[]] default_norm_variance_epsilon
  = Raise (InvalidArgumentError
             "slice index 0 of dimension 0 out of bounds.").
Proof.
  split; [shape|].
  apply (compute_returns_without_timesteps example_agent 1 [[]] [[]]
           default_norm_variance_epsilon); [lia | shape | shape].
Defined.

Lemma compute_returns_row_by_row_witness :
  exists returns,
    compute_returns example_agent [[1; 1]; [2; 2]] [[1; 0]; [0.5; 0]]
      default_norm_variance_epsilon = Ok returns /\
    compute_returns example_agent [nth 1 [[1; 1]; [2; 2]] []]
      [nth 1 [[1; 0]; [0.5; 0]] []] default_norm_variance_epsilon
    = Ok [nth 1 returns []].
Proof.
  apply (compute_returns_row_by_row example_agent 2 2
           [[1; 1]; [2; 2]] [[1; 0]; [0.5; 0]]
           default_norm_variance_epsilon 1);
    [lia | lia | shape | shape | lia].
Defined.

Lemma compute_advantages_td_residual_witness :
  _use_gae (with_estimator example_agent true false 0) = true /\
  exists advantages,
    compute_advantages (with_estimator example_agent true false 0)
      [[1; 1]] [[2; 1]] [[1; 0]] [[0.5; 0.5; 0.5]] = Ok advantages /\
    (_lambda (with_estimator example_agent true false 0) = 0 ->
     forall b t, (b < 1)%nat -> (t < 2)%nat ->
       at2 advantages b t =
       at2 [[1; 1]] b t + at2 [[1; 0]] b t * at2 [[0.5; 0.5; 0.5]] b (S t)
       - at2 [[0.5; 0.5; 0.5]] b t) /\
    (forall b t, (b < 1)%nat -> (t < 2)%nat -> at2 [[1; 0]] b t = 0 ->
       at2 advantages b t = at2 [[1; 1]] b t - at2 [[0.5; 0.5; 0.5]] b t).
Proof.
  split; [reflexivity|].
  apply (compute_advantages_td_residual
           (with_estimator example_agent true false 0) 1 2
           [[1; 1]] [[2; 1]] [[1; 0]] [[0.5; 0.5; 0.5]]);
    [reflexivity | lia | lia | shape | shape | shape | shape].
Defined.

Lemma compute_advantages_without_bootstrap_witness :
  has_shape 1 3 [[0; 0; 0]] /\
  compute_advantages example_agent [[1; 1; 1]] [[3; 2; 1]] [[1; 1; 1]]
    [[0; 0; 0]]
  = Raise (InvalidArgumentError "Incompatible shapes").
Proof.
  split; [shape|].
  apply (compute_advantages_without_bootstrap example_agent 1 2
           [[1; 1; 1]] [[3; 2; 1]] [[1; 1; 1]] [[0; 0; 0]]);
    [lia | lia | shape | shape | shape | shape].
Defined.

Lemma compute_return_and_advantage_effective_discount_witness :
  exists returns normalized_advantages warnings,
    compute_return_and_advantage example_agent example_time_steps tt
      example_next_time_steps [[0; 0; 0]]
    = Ok (returns, normalized_advantages, warnings) /\
    (forall b t, (b < 1)%nat -> (t < 2)%nat ->
       at2 returns b t =
       at2 (estimator_rewards example_agent example_next_time_steps) b t
       + at2 (discount example_next_time_steps) b t
         * _discount_factor example_agent
         * at2 (get_episode_mask example_next_time_steps) b t
         * at2 returns b (S t)) /\
    (forall b t, (b < 1)%nat -> (t < 2)%nat ->
       at2 (get_episode_mask example_next_time_steps) b t = 0 ->
       at2 returns b t
       = at2 (estimator_rewards example_agent example_next_time_steps) b t).
Proof.
  apply (compute_return_and_advantage_effective_discount example_agent
           example_time_steps tt example_next_time_steps [[0; 0; 0]] 1 2);
    [reflexivity | lia | lia | shape | shape | shape | shape].
Defined.


Lemma policy_gradient_loss_on_policy_witness :
  log_probability example_distribution tt = [[0; 0]] /\
  policy_gradient_loss example_agent example_time_steps tt [[0; 0]]
    [[1; -1]] example_distribution [[1; 0]]
  = Ok (- reduce_mean (tabulate 1 2 (fun b t =>
          at2 [[1; -1]] b t * at2 [[1; 0]] b t))).
Proof.
  split; [reflexivity|].
  apply (policy_gradient_loss_on_policy example_agent example_time_steps tt
           [[0; 0]] [[1; -1]] example_distribution [[1; 0]] 1 2);
    [lia | lia | reflexivity | shape | shape | shape |].
  left. simpl. lra.
Defined.

Lemma policy_gradient_per_timestep_saturates_witness :
  0 < _importance_ratio_clipping (with_clipping example_agent 0.2 0) /\
  exists loss,
    policy_gradient_per_timestep (with_clipping example_agent 0.2 0) tt
      [[-1; 1]] [[1; -1]] example_distribution = Ok loss /\
    forall b t, (b < 1)%nat -> (t < 2)%nat ->
      let ratio :=
        importance_ratio_at (with_clipping example_agent 0.2 0)
          (at2 (log_probability example_distribution tt) b t)
          (at2 [[-1; 1]] b t) in
      (0 <= at2 [[1; -1]] b t ->
       1 + _importance_ratio_clipping (with_clipping example_agent 0.2 0)
       <= ratio ->
       at2 loss b t
       = - ((1 + _importance_ratio_clipping
                   (with_clipping example_agent 0.2 0))
            * at2 [[1; -1]] b t)) /\
      (at2 [[1; -1]] b t <= 0 ->
       ratio
       <= 1 - _importance_ratio_clipping (with_clipping example_agent 0.2 0) ->
       at2 loss b t
       = - ((1 - _importance_ratio_clipping
                   (with_clipping example_agent 0.2 0))
            * at2 [[1; -1]] b t)).
Proof.
  assert (Hclip : 0 < _importance_ratio_clipping
                        (with_clipping example_agent 0.2 0))
    by (simpl; lra).
  split; [exact Hclip|].
  apply (policy_gradient_per_timestep_saturates
           (with_clipping example_agent 0.2 0) tt [[-1; 1]] [[1; -1]]
           example_distribution 1 2 Hclip);
    [lia | lia | shape | shape | shape].
Defined.


Lemma entropy_regularization_loss_is_a_bonus_witness :
  exists loss,
    entropy_regularization_loss example_agent example_time_steps
      example_distribution [[1; 0]] = Ok loss /\
    loss <= 0.
Proof.
  apply (entropy_regularization_loss_is_a_bonus example_agent
           example_time_steps example_distribution [[1; 0]] 1 2);
    [lia | lia | shape | shape |].
  intros b t Hb Ht. entry b t.
Defined.


Lemma update_adaptive_kl_beta_keeps_floor_witness :
  _adaptive_kl_beta example_agent = Some 1.0 /\
  exists beta',
    update_adaptive_kl_beta example_agent [[0.02; 0.02]]
    = Ok (set_adaptive_kl_beta example_agent (Some beta')) /\
    10e-16 <= beta' /\
    (10e-16 <= 1.0 -> 1.0 / 1.5 <= beta' <= 1.0 * 1.5).
Proof.
  split; [reflexivity|].
  apply (update_adaptive_kl_beta_keeps_floor example_agent 1.0
           [[0.02; 0.02]]); [reflexivity | simpl; lra].
Defined.

Lemma update_adaptive_kl_beta_down_and_up_witness :
  reduce_mean [[0; 0]]
  < _adaptive_kl_target example_agent
    * (1.0 - _adaptive_kl_tolerance example_agent) /\
  _adaptive_kl_target example_agent
  * (1.0 + _adaptive_kl_tolerance example_agent)
  < reduce_mean [[1; 1]] /\
  (1.5 * 10e-16 <= 1.0 ->
   exists lowered,
     update_adaptive_kl_beta example_agent [[0; 0]] = Ok lowered /\
     _adaptive_kl_beta lowered = Some (1.0 / 1.5) /\
     update_adaptive_kl_beta lowered [[1; 1]] = Ok example_agent) /\
  (10e-16 <= 1.0 ->
   exists raised,
     update_adaptive_kl_beta example_agent [[1; 1]] = Ok raised /\
     _adaptive_kl_beta raised = Some (1.0 * 1.5) /\
     update_adaptive_kl_beta raised [[0; 0]] = Ok example_agent).
Proof.
  assert (Hlow : reduce_mean [[0; 0]]
                 < _adaptive_kl_target example_agent
                   * (1.0 - _adaptive_kl_tolerance example_agent))
    by (rewrite reduce_mean_pair; simpl; lra).
  assert (Hhigh : _adaptive_kl_target example_agent
                  * (1.0 + _adaptive_kl_tolerance example_agent)
                  < reduce_mean [[1; 1]])
    by (rewrite reduce_mean_pair; simpl; lra).
  split; [exact Hlow|]. split; [exact Hhigh|].
  apply (update_adaptive_kl_beta_down_and_up example_agent 1.0
           [[0; 0]] [[1; 1]]);
    [reflexivity | simpl; lra | exact Hlow | exact Hhigh].
Defined.


Lemma run_epochs_compose_witness :
  exists self1 losses1 trace1,
    run_epochs 2 0 example_agent example_time_steps tt [[0; 0]] [[2; 1]]
      [[1; -1]] example_parameters [[1; 0]] = Ok (self1, losses1, trace1) /\
    run_epochs (2 + 3) 0 example_agent example_time_steps tt [[0; 0]]
      [[2; 1]] [[1; -1]] example_parameters [[1; 0]]
    = match run_epochs 3 (0 + 2) self1 example_time_steps tt [[0; 0]]
              [[2; 1]] [[1; -1]] example_parameters [[1; 0]] with
      | Ok (self2, losses2, trace2) =>
          Ok (self2, losses1 ++ losses2, trace1 ++ trace2)
      | Raise e => Raise e
      end.
Proof.
  destruct (@run_epochs_run stub_collaborators example_time_steps tt
              [[0; 0]] [[2; 1]] [[1; -1]] example_parameters [[1; 0]] 1 2)
    with (remaining := 2%nat) (i_epoch := 0%nat) (self := example_agent)
    as [losses1 [Hfirst _]];
    [shape | shape | shape | shape | exact example_network_outputs_shaped |].
  do 3 eexists. split; [exact Hfirst|].
  exact (@run_epochs_compose stub_collaborators example_time_steps tt
           [[0; 0]] [[2; 1]] [[1; -1]] example_parameters [[1; 0]] 3 2 0
           example_agent _ _ _ Hfirst).
Defined.

Lemma train_from_experience_without_epochs_witness :
  _num_epochs (with_num_epochs example_agent 0) = 0%nat /\
  exists e,
    train_from_experience (with_num_epochs example_agent 0)
      example_experience = Raise e.
Proof.
  split; [reflexivity|].
  apply (train_from_experience_without_epochs
           (with_num_epochs example_agent 0) example_experience).
  reflexivity.
Defined.

Lemma train_from_experience_frame_witness :
  well_shaped_experience example_agent example_experience 1 2 /\
  exists final trace,
    train_from_experience example_agent example_experience
    = Ok (final, trace) /\
    _num_epochs final = 25%nat /\
    _adaptive_kl_beta final <> None /\
    length trace = 29%nat.
Proof.
  split; [exact example_experience_well_shaped|].
  destruct (train_from_experience_frame example_agent example_experience
              1 2 example_time_steps (stub_policy_steps example_experience)
              example_next_time_steps eq_refl
              example_experience_well_shaped)
    as [final [trace [Hcall Hframe]]];
    [lia | lia | simpl; lia | reflexivity | simpl; lra |].
  exists final, trace. split; [exact Hcall|].
  destruct Hframe as [_ [_ [_ [_ [_ [_ [_ [_ [_ [Hepochs [_ [_ [_ [_ [_ [_
    [Hbeta [_ [_ Htrace]]]]]]]]]]]]]]]]]]].
  split; [exact Hepochs|]. split; [|exact Htrace].
  intros Hnone. apply Hbeta in Hnone. discriminate Hnone.
Defined.

Lemma policy_gradient_loss_of_masked_overflow_witness :
  has_shape 1 1 [[-200]] /\
  Float32.policy_gradient_loss example_agent example_time_steps tt
    [[-200]] [[1]] (one_step_distribution 0) (zeros 1 1)
  = Ok Float32.NaN.
Proof.
  split; [shape|].
  destruct (@policy_gradient_loss_of_masked_overflow stub_collaborators
              example_agent example_time_steps tt [[-200]] [[1]]
              (one_step_distribution 0) 1 1)
    as [per_timestep [Hrun [_ Hnan]]]; try shape; try lia.
  apply Hnan. rewrite overflowing_policy_gradient_per_timestep in Hrun.
  injection Hrun as <-. now repeat constructor.
Defined.
